(** * repoman: vault, pristine and clone managers

    A shallow embedding of the Go packages [internal/types],
    [internal/vault], [internal/pristine] and [internal/clone].

    The Go functions are stateful: they read and write the vault
    directory, the pristines directory and the clones directory, they
    print to stdout and stderr, and they drive the go-git engine.  They are
    rendered here as functions in a state-and-error monad over a [World]
    that holds exactly those pieces of state.

    Layout.  The world keeps one store for each of the three directories
    of a manager, keyed by the names of the entries directly below it.  A
    path built with [filepath.Join(root, name)] is a constructor of
    [location] applied to [name]; that reading is the program's when
    [name] is a file name ([plain_name]) and the three directories lie
    apart ([separate_roots]), as in the default configuration, and the
    properties that depend on it take the two conditions as hypotheses.
    [filepath.Clean], [filepath.Join] and [filepath.Abs] are embedded in
    full for the paths given as text.  Serialisation: writing a value with
    [json.MarshalIndent]
    and reading it back with [json.Unmarshal] is taken to return the value
    (the strings are valid UTF-8), so a file holds the value itself. *)

From Stdlib Require Import String Ascii List Bool Arith Lia DecimalString.
From stdpp Require Import base option list gmap strings sorting.

Open Scope string_scope.
Open Scope list_scope.

(** ** Strings: the functions of Go's [strings] and [path/filepath] in use *)

Module strings.

Definition HasPrefix (s p : string) : bool := String.prefix p s.

(** [strings.CutPrefix]: what follows the prefix, if [s] starts with it. *)
Fixpoint CutPrefix (s p : string) {struct p} : option string :=
  match p, s with
  | EmptyString, _ => Some s
  | String c p', String d s' => if Ascii.eqb c d then CutPrefix s' p' else None
  | String _ _, EmptyString => None
  end.

Fixpoint rev_acc (s acc : string) : string :=
  match s with
  | EmptyString => acc
  | String c s' => rev_acc s' (String c acc)
  end.

Definition rev (s : string) : string := rev_acc s "".

Definition HasSuffix (s suf : string) : bool :=
  String.prefix (rev suf) (rev s).

Definition TrimSuffix (s suf : string) : string :=
  if HasSuffix s suf
  then String.substring 0 (String.length s - String.length suf) s
  else s.

Fixpoint Contains (s sub : string) : bool :=
  String.prefix sub s ||
  match s with
  | EmptyString => false
  | String _ s' => Contains s' sub
  end.

(** [Split s sep] for a one-character separator: the pieces between the
    separators, at least one piece. *)
Fixpoint Split (s : string) (sep : ascii) : list string :=
  match s with
  | EmptyString => [""]
  | String c s' =>
      if Ascii.eqb c sep then "" :: Split s' sep
      else match Split s' sep with
           | [] => [String c ""]
           | p :: ps => String c p :: ps
           end
  end.

Fixpoint Join (elems : list string) (sep : string) : string :=
  match elems with
  | [] => ""
  | [e] => e
  | e :: rest => e +:+ sep +:+ Join rest sep
  end.

(** [%d] of a length. *)
Definition Itoa (n : nat) : string :=
  NilEmpty.string_of_uint (Nat.to_uint n).

End strings.

Module filepath.

Definition sep : ascii := "/"%char.

Fixpoint drop_leading_seps (s : string) : string :=
  match s with
  | String c s' => if Ascii.eqb c sep then drop_leading_seps s' else s
  | EmptyString => EmptyString
  end.

Definition strip_trailing_seps (s : string) : string :=
  strings.rev (drop_leading_seps (strings.rev s)).

(** [filepath.Base]: the last element of the path; trailing separators
    are removed first; [.] for the empty path and a single separator for
    a path made of separators only. *)
Definition Base (p : string) : string :=
  match p with
  | EmptyString => "."
  | _ =>
      match strip_trailing_seps p with
      | EmptyString => "/"
      | q => List.last (strings.Split q sep) q
      end
  end.

(** [filepath.IsAbs] *)
Definition IsAbs (p : string) : bool := String.prefix "/" p.

(** One element of a path met by [Clean], [stack] holding the elements
    kept so far, the last one first: an empty element and [.] are
    dropped, [..] takes back the element before it, is dropped at the
    root, and is kept at the start of a relative path. *)
Definition clean_step (rooted : bool) (stack : list string) (e : string) : list string :=
  if String.eqb e "" || String.eqb e "." then stack
  else if String.eqb e ".." then
    match stack with
    | top :: below => if String.eqb top ".." then e :: stack else below
    | [] => if rooted then [] else [e]
    end
  else e :: stack.

(** [filepath.Clean]: the shortest path name equivalent to [p] by purely
    lexical processing. *)
Definition Clean (p : string) : string :=
  let rooted := IsAbs p in
  let elems := List.rev (fold_left (clean_step rooted) (strings.Split p sep) []) in
  if rooted then "/" +:+ strings.Join elems "/"
  else match elems with
       | [] => "."
       | _ => strings.Join elems "/"
       end.

(** [filepath.Join]: the non-empty elements joined with a separator, and
    the result cleaned; the empty text when there is none. *)
Definition Join (elems : list string) : string :=
  match List.filter (fun e => negb (String.eqb e "")) elems with
  | [] => ""
  | es => Clean (strings.Join es "/")
  end.

End filepath.

(** ** Errors

    A Go [error] is either a leaf carrying its message ([errors.New], or
    [fmt.Errorf] without [%w]) or a wrapper made by
    [fmt.Errorf("<context>: %w", cause)]. *)

Inductive error : Type :=
| errors_New (msg : string)
| Errorf_w (context : string) (cause : error).

Fixpoint Error (e : error) : string :=
  match e with
  | errors_New msg => msg
  | Errorf_w ctx cause => ctx +:+ ": " +:+ Error cause
  end.

#[global] Instance error_eq_dec : EqDecision error.
Proof. solve_decision. Defined.

Inductive result (A : Type) : Type :=
| Ok (a : A)
| Err (e : error).
Arguments Ok {A} a.
Arguments Err {A} e.

Definition is_ok {A} (r : result A) : bool :=
  match r with Ok _ => true | Err _ => false end.

(** ** [internal/types] *)

Module types.

(** [time.Time], in seconds. *)
Definition Time := nat.

(** The zero value [time.Time{}]. *)
Definition zero_Time : Time := 0.

Record VaultEntry : Type := mkVaultEntry {
  Name : string;
  URL : string;
  AddedOn : Time
}.

Record Vault : Type := mkVault {
  Repos : list VaultEntry
}.

Record Clone : Type := mkClone {
  clone_Name : string;
  clone_Path : string;
  clone_Created : Time
}.

Record SyncInfo : Type := mkSyncInfo {
  Timestamp : Time;
  Type_ : string
}.

Record BuildConfig : Type := mkBuildConfig {
  BuildCommand : string;
  InstallCommand : string;
  Dependencies : list string
}.

Record HookConfig : Type := mkHookConfig {
  PreClone : string;
  PostClone : string;
  PreBuild : string;
  PostBuild : string;
  PreDestroy : string;
  PostDestroy : string
}.

Record RepoMetadata : Type := mkRepoMetadata {
  VaultURL : string;
  CreatedOn : Time;
  LastUpdated : Time;
  DefaultBranch : string;
  CurrentBranchHash : string;
  CachedArtifactDir : string;
  Clones : list Clone;
  Readme : string;
  SyncInterval : string;
  LastSync : SyncInfo;
  Build : BuildConfig;
  Hooks : HookConfig
}.

(** The value [json.Unmarshal] fills in when every field is absent. *)
Definition zero_HookConfig : HookConfig := mkHookConfig "" "" "" "" "" "".

End types.

(** ** Paths

    [filepath.Join] applied to one of the manager's three directories, or
    any other path or URL given as text.

    A constructor with a [name] stands for the entry of that name directly
    below the directory: that is where [filepath.Join] leads when the
    name is a single path element other than [.] and [..] ([plain_name]
    below) and the three directories lie apart ([separate_roots] below).
    For any other name ([x/], [a/b], [..]) the joined path is cleaned to
    a place that these constructors do not describe: the directory
    itself, its parent, an entry of another name or a path inside one.
    A property that follows a name given on the command line into the
    stores takes the two conditions as hypotheses. *)

Inductive location : Type :=
| vault_json                               (* Join(vaultPath, "vault.json") *)
| metadata_dir (name : string)             (* Join(vaultPath, name) *)
| metadata_json (name : string)            (* Join(vaultPath, name, "metadata.json") *)
| pristine_dir (name : string)             (* Join(pristinesPath, name) *)
| pristine_file (name file : string)       (* Join(pristinePath, file) *)
| clone_dir (name : string)                (* Join(clonesPath, name) *)
| dot_git (dir : string)                   (* Join(dir, ".git") outside the three directories *)
| outside (text : string).                 (* a path outside the three directories, or a URL *)

#[global] Instance location_eq_dec : EqDecision location.
Proof. solve_decision. Defined.

(** ** The go-git engine: data *)

Module git.

Definition Hash := string.

(** [transport.AuthMethod]. *)
Inductive AuthMethod : Type :=
| BasicAuth (username password : string)
| PublicKeys (keyfile : string).

#[global] Instance AuthMethod_eq_dec : EqDecision AuthMethod.
Proof. solve_decision. Defined.

(** [plumbing.ReferenceName]; the zero value is the empty name. *)
Definition ReferenceName := string.
Definition HEAD_name : ReferenceName := "HEAD".

Definition IsBranch (n : ReferenceName) : bool := String.prefix "refs/heads/" n.

Definition Short (n : ReferenceName) : string :=
  match strings.CutPrefix n "refs/heads/" with
  | Some b => b
  | None =>
      match strings.CutPrefix n "refs/tags/" with
      | Some t => t
      | None => match strings.CutPrefix n "refs/remotes/" with
                | Some r => r
                | None => n
                end
      end
  end.

Record Reference : Type := mkReference {
  ref_Name : ReferenceName;
  ref_Hash : Hash
}.

(** [git.CloneOptions]: the fields of the library's struct that bear on
    what a clone fetches and stores.  A Go struct literal leaves every
    field it does not name at its zero value. *)
Record CloneOptions : Type := mkCloneOptions {
  co_URL : location;
  co_Auth : option AuthMethod;
  co_ReferenceName : ReferenceName;
  co_SingleBranch : bool;
  co_Depth : nat;
  co_Shared : bool
}.

(** The zero-valued options with only [URL] set. *)
Definition CloneOptions_URL (url : location) : CloneOptions :=
  mkCloneOptions url None "" false 0 false.

(** [git.PullOptions] and [git.ListOptions]. *)
Record PullOptions : Type := mkPullOptions {
  po_RemoteName : string;
  po_Auth : option AuthMethod
}.
Definition PullOptions_zero : PullOptions := mkPullOptions "" None.

Record ListOptions : Type := mkListOptions {
  lo_Auth : option AuthMethod
}.
Definition ListOptions_zero : ListOptions := mkListOptions None.

(** What a URL leads to, from the machine the program runs on: the branch
    the HEAD of the repository names, the commits of each branch (tip
    first), the files of the checked-out tree, and who may read it.

    [up_default_auth] is what the transport does for this URL when the
    options of the call carry no [Auth]: it presents the user and password
    written in an http URL, or a key held by the user's ssh-agent for an
    ssh URL ([git@host:path]); it presents nothing for a URL that has
    neither; it fails where it cannot build its default (an ssh URL and no
    agent to ask). *)
Record Upstream : Type := mkUpstream {
  up_HEAD : string;
  up_refs : list (string * list Hash);
  up_files : list (string * string);
  up_default_auth : result (option AuthMethod);
  up_private : bool;
  up_authorized : list AuthMethod
}.

(** A repository on disk. *)
Record Repository : Type := mkRepository {
  bare : bool;                              (* no working tree *)
  HEAD : option (string * Hash);            (* checked-out branch and its commit *)
  refs : list (string * Hash);              (* refs/heads *)
  objects : list (Hash * option Hash);      (* commits in the repository's own object store,
                                               each with the commit before it, if it has one *)
  alternates : list location;               (* objects/info/alternates *)
  shallow : bool;                           (* history cut off by a depth *)
  remotes : list (string * list location);  (* remote name and its URLs *)
  branch_remote : option string;            (* branch.<current>.remote *)
  push_default : option string;             (* remote.pushDefault *)
  files : list (string * option string)     (* top-level files: content, or unreadable *)
}.

(** A history, latest commit first, as the commits it is made of: each
    points to the one before it, the earliest to [base]. *)
Fixpoint link (chain : list Hash) (base : option Hash) : list (Hash * option Hash) :=
  match chain with
  | [] => []
  | c :: rest => (c, match rest with p :: _ => Some p | [] => base end) :: link rest base
  end.

(** One call of the transport: the operation, the URL, and the [Auth]
    field of the options the program passed ([None] for a nil field: the
    transport is then left to its default). *)
Record NetCall : Type := mkNetCall {
  nc_op : string;
  nc_url : location;
  nc_auth : option AuthMethod
}.

(** The library's sentinel errors. *)
Definition ErrRepositoryNotExists := errors_New "repository does not exist".
Definition ErrRepositoryAlreadyExists := errors_New "repository already exists".
Definition ErrRepositoryNotFound := errors_New "repository not found".
Definition ErrAuthenticationRequired := errors_New "authentication required".
Definition ErrAuthorizationFailed := errors_New "authorization failed".
Definition ErrEmptyRemoteRepository := errors_New "remote repository is empty".
Definition ErrReferenceNotFound := errors_New "reference not found".
Definition ErrObjectNotFound := errors_New "object not found".
Definition ErrRemoteNotFound := errors_New "remote not found".
Definition ErrIsBareRepository := errors_New "worktree not available in a bare repository".
Definition ErrNonFastForwardUpdate := errors_New "non-fast-forward update".
Definition NoErrAlreadyUpToDate := errors_New "already up-to-date".

End git.

(** ** The world *)

(** A JSON file holding a value of type [A]. *)
Inductive file_state (A : Type) : Type :=
| Absent                 (* no such file *)
| Unreadable             (* present, reading fails *)
| Garbled                (* present and readable, not the JSON of an [A] *)
| Holds (a : A).         (* present, readable, the JSON of [a] *)
Arguments Absent {A}.
Arguments Unreadable {A}.
Arguments Garbled {A}.
Arguments Holds {A} a.

(** A directory below the pristines or the clones directory. *)
Inductive dir_node : Type :=
| PlainDir                          (* a directory holding no repository *)
| RepoDir (r : git.Repository).

(** A path outside the three directories. *)
Inductive dot_git_entry : Type :=
| NoDotGit
| DotGit (is_dir : bool) (r : option git.Repository).
   (* an entry named .git, a directory or a file; the repository it holds, if valid *)

Inductive local_node : Type :=
| LocalFile
| LocalDir (g : dot_git_entry).

Record World : Type := mkWorld {
  now : types.Time;                                   (* the clock *)
  vaultPath : string;                                 (* the three directories, as text *)
  pristinesPath : string;
  clonesPath : string;
  vault_listable : bool;                              (* the vault directory can be listed *)
  vault_writable : bool;                              (* entries can be created and written in it *)
  vault_index : file_state types.Vault;               (* vault.json *)
  vault_dirs : gmap string (file_state types.RepoMetadata);
                                                      (* its subdirectories, each with its metadata.json *)
  pristines_writable : bool;
  pristines : gmap string dir_node;
  clones_writable : bool;
  clones : gmap string dir_node;
  cwd : string;                                       (* the working directory *)
  locals : gmap string local_node;                    (* the rest of the filesystem, by absolute path *)
  network : gmap string git.Upstream;                 (* what each URL serves *)
  net_log : list git.NetCall;                         (* requests sent so far, latest last *)
  stdout : list string;
  stderr : list string
}.

Definition set_vault_index (v : file_state types.Vault) (w : World) : World :=
  mkWorld (now w) (vaultPath w) (pristinesPath w) (clonesPath w) (vault_listable w) (vault_writable w) v (vault_dirs w)
          (pristines_writable w) (pristines w) (clones_writable w) (clones w)
          (cwd w) (locals w) (network w) (net_log w) (stdout w) (stderr w).

Definition set_vault_dirs (d : gmap string (file_state types.RepoMetadata)) (w : World) : World :=
  mkWorld (now w) (vaultPath w) (pristinesPath w) (clonesPath w) (vault_listable w) (vault_writable w) (vault_index w) d
          (pristines_writable w) (pristines w) (clones_writable w) (clones w)
          (cwd w) (locals w) (network w) (net_log w) (stdout w) (stderr w).

Definition set_pristines (p : gmap string dir_node) (w : World) : World :=
  mkWorld (now w) (vaultPath w) (pristinesPath w) (clonesPath w) (vault_listable w) (vault_writable w) (vault_index w) (vault_dirs w)
          (pristines_writable w) p (clones_writable w) (clones w)
          (cwd w) (locals w) (network w) (net_log w) (stdout w) (stderr w).

Definition set_clones (c : gmap string dir_node) (w : World) : World :=
  mkWorld (now w) (vaultPath w) (pristinesPath w) (clonesPath w) (vault_listable w) (vault_writable w) (vault_index w) (vault_dirs w)
          (pristines_writable w) (pristines w) (clones_writable w) c
          (cwd w) (locals w) (network w) (net_log w) (stdout w) (stderr w).

Definition set_net_log (l : list git.NetCall) (w : World) : World :=
  mkWorld (now w) (vaultPath w) (pristinesPath w) (clonesPath w) (vault_listable w) (vault_writable w) (vault_index w) (vault_dirs w)
          (pristines_writable w) (pristines w) (clones_writable w) (clones w)
          (cwd w) (locals w) (network w) l (stdout w) (stderr w).

Definition set_stdout (l : list string) (w : World) : World :=
  mkWorld (now w) (vaultPath w) (pristinesPath w) (clonesPath w) (vault_listable w) (vault_writable w) (vault_index w) (vault_dirs w)
          (pristines_writable w) (pristines w) (clones_writable w) (clones w)
          (cwd w) (locals w) (network w) (net_log w) l (stderr w).

Definition set_stderr (l : list string) (w : World) : World :=
  mkWorld (now w) (vaultPath w) (pristinesPath w) (clonesPath w) (vault_listable w) (vault_writable w) (vault_index w) (vault_dirs w)
          (pristines_writable w) (pristines w) (clones_writable w) (clones w)
          (cwd w) (locals w) (network w) (net_log w) (stdout w) l.

(** ** The monad of a Go function that may fail and acts on the world *)

Definition IO (A : Type) : Type := World -> result A * World.

Definition ret {A} (a : A) : IO A := fun w => (Ok a, w).

Definition fail {A} (e : error) : IO A := fun w => (Err e, w).

Definition bind {A B} (c : IO A) (k : A -> IO B) : IO B :=
  fun w =>
    match c w with
    | (Ok a, w') => k a w'
    | (Err e, w') => (Err e, w')
    end.

(** [if err != nil { return fmt.Errorf("<context>: %w", err) }] *)
Definition or_wrap {A} (c : IO A) (context : string) : IO A :=
  fun w =>
    match c w with
    | (Ok a, w') => (Ok a, w')
    | (Err e, w') => (Err (Errorf_w context e), w')
    end.

(** [x, err := c] with the error kept as a value. *)
Definition try {A} (c : IO A) : IO (result A) :=
  fun w => let '(r, w') := c w in (Ok r, w').

Definition gets {A} (f : World -> A) : IO A := fun w => (Ok (f w), w).

Definition modify (f : World -> World) : IO unit := fun w => (Ok tt, f w).

Notation "'let!' x ':=' c 'in' k" := (bind c (fun x => k))
  (at level 10, x name, c at level 100, k at level 200).
Notation "'do!' c 'in' k" := (bind c (fun _ : unit => k))
  (at level 10, c at level 100, k at level 200).
Infix "?:" := or_wrap (at level 60, no associativity).

(** A computation that only reads the world. *)
Definition reads {A} (c : IO A) : Prop := forall w, snd (c w) = w.

(** A computation that leaves the part [f] of the world as it was. *)
Definition preserves {X A} (f : World -> X) (c : IO A) : Prop :=
  forall w, f (snd (c w)) = f w.

(** [fmt.Errorf] without [%w]. *)
Definition Errorf (msg : string) : error := errors_New msg.

Definition Println (line : string) : IO unit :=
  modify (fun w => set_stdout (stdout w ++ [line]) w).

Definition Eprintln (line : string) : IO unit :=
  modify (fun w => set_stderr (stderr w ++ [line]) w).

(** [time.Now()]: the clock is read; the environment advances it. *)
Definition time_Now : IO types.Time := gets now.

Fixpoint assoc {A} (k : string) (l : list (string * A)) : option A :=
  match l with
  | [] => None
  | (k', v) :: rest => if String.eqb k k' then Some v else assoc k rest
  end.

(** ** The operating system: Go's [os] and [path/filepath] on the world *)

Module os.

(** The errors of system calls; [*PathError] wraps them with the name of
    the operation (the path is left out of the message). *)
Definition ErrNotExist := errors_New "no such file or directory".
Definition ErrPermission := errors_New "permission denied".
Definition ErrNotDir := errors_New "not a directory".

Definition PathError (op : string) (errno : error) : error := Errorf_w op errno.

(** [os.IsNotExist(err)], [err] possibly nil. *)
Definition IsNotExist (err : result unit) : bool :=
  match err with
  | Ok _ => false
  | Err (Errorf_w _ cause) => bool_decide (cause = ErrNotExist)
  | Err e => bool_decide (e = ErrNotExist)
  end.

Definition present {A} (f : file_state A) : bool :=
  match f with Absent => false | _ => true end.

(** [filepath.Abs]: an absolute path is cleaned; a relative one is joined
    to the working directory and the result cleaned.  The working
    directory is a clean absolute path, as [os.Getwd] returns it, so [.]
    resolves to the working directory itself (lemma
    [Abs_is_filepath_Abs]). *)
Definition Abs (w : World) (p : string) : string :=
  if String.eqb p "." then cwd w
  else if filepath.IsAbs p then filepath.Clean p
  else filepath.Clean (cwd w +:+ "/" +:+ p).

(** [_, err := os.Stat(path)]: nil when the path names an existing
    entry. *)
Definition Stat (path : location) (w : World) : result unit :=
  let enoent := Err (PathError "stat" ErrNotExist) in
  match path with
  | vault_json => if present (vault_index w) then Ok tt else enoent
  | metadata_dir name =>
      match vault_dirs w !! name with
      | Some _ => Ok tt
      | None => if String.eqb name "vault.json" && present (vault_index w)
                then Ok tt else enoent
      end
  | metadata_json name =>
      match vault_dirs w !! name with
      | Some f => if present f then Ok tt else enoent
      | None => if String.eqb name "vault.json" && present (vault_index w)
                then Err (PathError "stat" ErrNotDir) else enoent
      end
  | pristine_dir name =>
      match pristines w !! name with Some _ => Ok tt | None => enoent end
  | pristine_file name file =>
      match pristines w !! name with
      | Some (RepoDir r) =>
          match assoc file (git.files r) with Some _ => Ok tt | None => enoent end
      | _ => enoent
      end
  | clone_dir name =>
      match clones w !! name with Some _ => Ok tt | None => enoent end
  | outside p =>
      match locals w !! Abs w p with Some _ => Ok tt | None => enoent end
  | dot_git dir =>
      match locals w !! Abs w dir with
      | None => enoent
      | Some LocalFile => Err (PathError "stat" ErrNotDir)
      | Some (LocalDir NoDotGit) => enoent
      | Some (LocalDir (DotGit _ _)) => Ok tt
      end
  end.

(** The bytes of a JSON file: the value they encode, if any. *)
Definition data (A : Type) : Type := option A.

Definition read_state {A} (f : file_state A) : result (data A) :=
  match f with
  | Absent => Err (PathError "open" ErrNotExist)
  | Unreadable => Err (PathError "open" ErrPermission)
  | Garbled => Ok None
  | Holds a => Ok (Some a)
  end.

(** [os.ReadFile] of [vault.json]. *)
Definition ReadFile_vault : IO (data types.Vault) :=
  fun w => (read_state (vault_index w), w).

(** [os.ReadFile] of a repository's [metadata.json]. *)
Definition ReadFile_metadata (path : location) : IO (data types.RepoMetadata) :=
  fun w =>
    match path with
    | metadata_json name =>
        match vault_dirs w !! name with
        | Some f => (read_state f, w)
        | None => (Err (PathError "open" ErrNotExist), w)
        end
    | _ => (Err (PathError "open" ErrNotExist), w)
    end.

(** [os.ReadFile] of a file at the top of a pristine's directory. *)
Definition ReadFile_text (path : location) : IO string :=
  fun w =>
    match path with
    | pristine_file name file =>
        match pristines w !! name with
        | Some (RepoDir r) =>
            match assoc file (git.files r) with
            | Some (Some content) => (Ok content, w)
            | Some None => (Err (PathError "open" ErrPermission), w)
            | None => (Err (PathError "open" ErrNotExist), w)
            end
        | _ => (Err (PathError "open" ErrNotExist), w)
        end
    | _ => (Err (PathError "open" ErrNotExist), w)
    end.

(** [os.WriteFile(vaultFile, data, 0644)], [data] the JSON of [v]. *)
Definition WriteFile_vault (v : types.Vault) : IO unit :=
  fun w =>
    if vault_writable w then (Ok tt, set_vault_index (Holds v) w)
    else (Err (PathError "open" ErrPermission), w).

(** [os.WriteFile(metadataFile, data, 0644)], [data] the JSON of [md]. *)
Definition WriteFile_metadata (path : location) (md : types.RepoMetadata) : IO unit :=
  fun w =>
    match path with
    | metadata_json name =>
        match vault_dirs w !! name with
        | None => (Err (PathError "open" ErrNotExist), w)
        | Some _ =>
            if vault_writable w
            then (Ok tt, set_vault_dirs (<[name := Holds md]> (vault_dirs w)) w)
            else (Err (PathError "open" ErrPermission), w)
        end
    | _ => (Err (PathError "open" ErrPermission), w)
    end.

(** [filepath.Join(path, file)] for a file at the top of a directory. *)
Definition Join (path : location) (file : string) : location :=
  match path with
  | pristine_dir name => pristine_file name file
  | _ => outside file
  end.

(** [os.MkdirAll(path, 0755)]: nil when the directory is already there. *)
Definition MkdirAll (path : location) : IO unit :=
  fun w =>
    match path with
    | metadata_dir name =>
        match vault_dirs w !! name with
        | Some _ => (Ok tt, w)
        | None =>
            if String.eqb name "vault.json" && present (vault_index w)
            then (Err (PathError "mkdir" ErrNotDir), w)
            else if vault_writable w
            then (Ok tt, set_vault_dirs (<[name := Absent]> (vault_dirs w)) w)
            else (Err (PathError "mkdir" ErrPermission), w)
        end
    | pristine_dir name =>
        match pristines w !! name with
        | Some _ => (Ok tt, w)
        | None =>
            if pristines_writable w
            then (Ok tt, set_pristines (<[name := PlainDir]> (pristines w)) w)
            else (Err (PathError "mkdir" ErrPermission), w)
        end
    | clone_dir name =>
        match clones w !! name with
        | Some _ => (Ok tt, w)
        | None =>
            if clones_writable w
            then (Ok tt, set_clones (<[name := PlainDir]> (clones w)) w)
            else (Err (PathError "mkdir" ErrPermission), w)
        end
    | _ => (Err (PathError "mkdir" ErrPermission), w)
    end.

(** [os.RemoveAll(path)]: nil when nothing is there. *)
Definition RemoveAll (path : location) : IO unit :=
  fun w =>
    match path with
    | pristine_dir name =>
        match pristines w !! name with
        | None => (Ok tt, w)
        | Some _ =>
            if pristines_writable w
            then (Ok tt, set_pristines (delete name (pristines w)) w)
            else (Err (PathError "unlinkat" ErrPermission), w)
        end
    | clone_dir name =>
        match clones w !! name with
        | None => (Ok tt, w)
        | Some _ =>
            if clones_writable w
            then (Ok tt, set_clones (delete name (clones w)) w)
            else (Err (PathError "unlinkat" ErrPermission), w)
        end
    | _ => (Err (PathError "unlinkat" ErrPermission), w)
    end.

(** [os.DirEntry]. *)
Record DirEntry : Type := mkDirEntry {
  entry_Name : string;
  entry_IsDir : bool
}.

Definition name_le (a b : DirEntry) : Prop :=
  String.leb (entry_Name a) (entry_Name b) = true.

#[global] Instance name_le_dec a b : Decision (name_le a b).
Proof. unfold name_le. apply _. Defined.

(** [os.ReadDir(vaultPath)]: the entries of the vault directory, sorted
    by file name. *)
Definition ReadDir_vault : IO (list DirEntry) :=
  fun w =>
    if vault_listable w then
      let dirs := map (fun kv => mkDirEntry (fst kv) true) (map_to_list (vault_dirs w)) in
      let index :=
        match vault_dirs w !! "vault.json" with
        | None => if present (vault_index w) then [mkDirEntry "vault.json" false] else []
        | Some _ => []
        end in
      (Ok (merge_sort name_le (index ++ dirs)), w)
    else (Err (PathError "open" ErrPermission), w).

End os.

(** [json.Unmarshal(data, &v)]. *)
Definition json_Unmarshal {A} (d : os.data A) : IO A :=
  match d with
  | Some a => ret a
  | None => fail (errors_New "invalid character looking for beginning of value")
  end.

(** The text of a path. *)
Definition location_text (w : World) (l : location) : string :=
  match l with
  | vault_json => filepath.Join [vaultPath w; "vault.json"]
  | metadata_dir name => filepath.Join [vaultPath w; name]
  | metadata_json name => filepath.Join [vaultPath w; name; "metadata.json"]
  | pristine_dir name => filepath.Join [pristinesPath w; name]
  | pristine_file name file => filepath.Join [pristinesPath w; name; file]
  | clone_dir name => filepath.Join [clonesPath w; name]
  | dot_git dir => filepath.Join [dir; ".git"]
  | outside text => text
  end.

(** ** The go-git engine: operations

    The behaviour of the library calls the program makes, on the world.  A
    [*git.Repository] or [*git.Worktree] handle is the location of the
    repository; each call reads the repository found there. *)

Module gogit.
Import git.

Definition dir_at (w : World) (path : location) : option dir_node :=
  match path with
  | pristine_dir name => pristines w !! name
  | clone_dir name => clones w !! name
  | _ => None
  end.

Definition repo_at (w : World) (path : location) : option Repository :=
  match path with
  | pristine_dir _ | clone_dir _ =>
      match dir_at w path with Some (RepoDir r) => Some r | _ => None end
  | outside p =>
      match locals w !! os.Abs w p with
      | Some (LocalDir (DotGit _ (Some r))) => Some r
      | _ => None
      end
  | _ => None
  end.

Definition dir_writable (w : World) (path : location) : bool :=
  match path with
  | pristine_dir _ => pristines_writable w
  | clone_dir _ => clones_writable w
  | _ => false
  end.

Definition store_repo (path : location) (r : Repository) (w : World) : World :=
  match path with
  | pristine_dir name => set_pristines (<[name := RepoDir r]> (pristines w)) w
  | clone_dir name => set_clones (<[name := RepoDir r]> (clones w)) w
  | _ => w
  end.

(** The store holds the commit [h]. *)
Definition mem (h : Hash) (store : list (Hash * option Hash)) : bool :=
  existsb (fun c => String.eqb h (fst c)) store.

(** The history of [t] in a store: [t] and the commits before it, as far
    back as the store holds them.  A store of [n] commits has no history
    longer than [n]. *)
Fixpoint history (fuel : nat) (store : list (Hash * option Hash)) (t : Hash) : list Hash :=
  match fuel with
  | 0 => []
  | S n =>
      match assoc t store with
      | None => []
      | Some parent =>
          t :: match parent with
               | Some p => history n store p
               | None => []
               end
      end
  end.

Definition history_of (r : Repository) (t : Hash) : list Hash :=
  history (length (objects r)) (objects r) t.

(** An object is found in the repository's own store or in a store its
    alternates file names. *)
Definition has_object (w : World) (r : Repository) (h : Hash) : bool :=
  mem h (objects r) ||
  existsb (fun alt => match repo_at w alt with
                      | Some src => mem h (objects src)
                      | None => false
                      end) (alternates r).

Definition readable_files (fs : list (string * option string)) : list (string * string) :=
  omap (fun kv => match snd kv with Some c => Some (fst kv, c) | None => None end) fs.

(** What a repository on disk serves when it is the source of a clone:
    each of its branches with the history of its tip.  A commit of the
    store that no branch reaches is not served. *)
Definition serve (r : Repository) : option Upstream :=
  match HEAD r with
  | None => None
  | Some (b, _) =>
      Some (mkUpstream b
              (map (fun bt => (fst bt, history_of r (snd bt))) (refs r))
              (readable_files (files r)) (Ok None) false [])
  end.

Definition log_request (op : string) (url : location) (auth : option AuthMethod)
    (w : World) : World :=
  set_net_log (net_log w ++ [mkNetCall op url auth]) w.

(** How [up] answers a call whose options carry [auth]: the transport
    presents [auth], or its default when there is none; a repository that
    is not public wants a credential it knows. *)
Definition authenticate (up : Upstream) (auth : option AuthMethod) : result unit :=
  match (match auth with
         | Some a => Ok (Some a)
         | None => up_default_auth up
         end) with
  | Err e => Err e
  | Ok presented =>
      if up_private up then
        match presented with
        | None => Err ErrAuthenticationRequired
        | Some a => if bool_decide (a ∈ up_authorized up) then Ok tt
                    else Err ErrAuthorizationFailed
        end
      else Ok tt
  end.

(** The transport: what a URL serves to a call whose options carry
    [auth]. *)
Definition connect (w : World) (url : location) (auth : option AuthMethod)
    : result Upstream :=
  match url with
  | outside u =>
      match network w !! u with
      | None => Err ErrRepositoryNotFound
      | Some up =>
          match authenticate up auth with
          | Err e => Err e
          | Ok _ => Ok up
          end
      end
  | _ =>
      match repo_at w url with
      | None => Err ErrRepositoryNotFound
      | Some r => match serve r with
                  | Some up => Ok up
                  | None => Err ErrEmptyRemoteRepository
                  end
      end
  end.

Definition is_local (url : location) : bool :=
  match url with pristine_dir _ | clone_dir _ => true | _ => false end.

(** The commits a fetch of [chain] brings with the given depth (0: all). *)
Definition fetch_chain (depth : nat) (chain : list Hash) : list (Hash * option Hash) :=
  if Nat.eqb depth 0 then link chain None else take depth (link chain None).

Definition tips (rs : list (string * list Hash)) : list (string * Hash) :=
  omap (fun bc => match snd bc with t :: _ => Some (fst bc, t) | [] => None end) rs.

(** [git.PlainClone(path, isBare, o)]. *)
Definition PlainClone (path : location) (isBare : bool) (o : CloneOptions) : IO unit :=
  fun w =>
    match dir_at w path with
    | Some (RepoDir _) => (Err ErrRepositoryAlreadyExists, w)
    | _ =>
        if negb (dir_writable w path) then (Err (os.PathError "mkdir" os.ErrPermission), w)
        else
          let w1 := log_request "clone" (co_URL o) (co_Auth o) w in
          match connect w1 (co_URL o) (co_Auth o) with
          | Err e => (Err e, w1)
          | Ok up =>
              let branch :=
                if String.eqb (co_ReferenceName o) "" || String.eqb (co_ReferenceName o) HEAD_name
                then up_HEAD up else Short (co_ReferenceName o) in
              match assoc branch (up_refs up) with
              | Some (tip :: rest) =>
                  let fetched :=
                    if co_SingleBranch o then [(branch, tip :: rest)] else up_refs up in
                  let shared := co_Shared o && is_local (co_URL o) in
                  let r := mkRepository isBare (Some (branch, tip)) (tips fetched)
                             (if shared then []
                              else concat (map (fun bc => fetch_chain (co_Depth o) (snd bc)) fetched))
                             (if shared then [co_URL o] else [])
                             (negb (Nat.eqb (co_Depth o) 0))
                             [("origin", [co_URL o])] (Some "origin") None
                             (if isBare then []
                              else map (fun kv => (fst kv, Some (snd kv))) (up_files up)) in
                  (Ok tt, store_repo path r w1)
              | _ => (Err ErrReferenceNotFound, w1)
              end
          end
    end.

(** [git.PlainOpen(path)]. *)
Definition PlainOpen (path : location) : IO location :=
  fun w =>
    match repo_at w path with
    | Some _ => (Ok path, w)
    | None => (Err ErrRepositoryNotExists, w)
    end.

(** [repo.Head()]. *)
Definition Head (repo : location) : IO Reference :=
  fun w =>
    match repo_at w repo with
    | Some r =>
        match HEAD r with
        | Some (b, h) => (Ok (mkReference ("refs/heads/" +:+ b) h), w)
        | None => (Err ErrReferenceNotFound, w)
        end
    | None => (Err ErrRepositoryNotExists, w)
    end.

(** [repo.CommitObject(h)]: the commit, here its hash. *)
Definition CommitObject (repo : location) (h : Hash) : IO Hash :=
  fun w =>
    match repo_at w repo with
    | Some r => if has_object w r h then (Ok h, w) else (Err ErrObjectNotFound, w)
    | None => (Err ErrRepositoryNotExists, w)
    end.

(** [*git.Remote]. *)
Record Remote_t : Type := mkRemote {
  rem_Name : string;
  rem_URLs : list location
}.

(** [repo.Remote(name)]. *)
Definition Remote (repo : location) (name : string) : IO Remote_t :=
  fun w =>
    match repo_at w repo with
    | Some r =>
        match assoc name (remotes r) with
        | Some urls => (Ok (mkRemote name urls), w)
        | None => (Err ErrRemoteNotFound, w)
        end
    | None => (Err ErrRepositoryNotExists, w)
    end.

(** [repo.Worktree()]. *)
Definition Worktree (repo : location) : IO location :=
  fun w =>
    match repo_at w repo with
    | Some r => if bare r then (Err ErrIsBareRepository, w) else (Ok repo, w)
    | None => (Err ErrRepositoryNotExists, w)
    end.

(** The commits of [chain] that precede [h]; none when [h] is not in it. *)
Fixpoint newer_than (h : Hash) (chain : list Hash) : option (list Hash) :=
  match chain with
  | [] => None
  | c :: rest =>
      if String.eqb c h then Some []
      else match newer_than h rest with
           | Some l => Some (c :: l)
           | None => None
           end
  end.

(** [worktree.Pull(o)]: fetch from the remote and fast-forward the
    checked-out branch. *)
Definition Pull (worktree : location) (o : PullOptions) : IO unit :=
  fun w =>
    match repo_at w worktree with
    | None => (Err ErrRepositoryNotExists, w)
    | Some r =>
        let rname := if String.eqb (po_RemoteName o) "" then "origin" else po_RemoteName o in
        match assoc rname (remotes r) with
        | Some (url :: _) =>
            let w1 := log_request "fetch" url (po_Auth o) w in
            match connect w1 url (po_Auth o), HEAD r with
            | Err e, _ => (Err e, w1)
            | Ok _, None => (Err ErrReferenceNotFound, w1)
            | Ok up, Some (b, h) =>
                match assoc b (up_refs up) with
                | Some (tip :: rest) =>
                    match newer_than h (tip :: rest) with
                    | Some [] => (Err NoErrAlreadyUpToDate, w1)
                    | Some new =>
                        if dir_writable w1 worktree then
                          let r' := mkRepository (bare r) (Some (b, tip))
                                      ((b, tip) :: filter (fun bt => negb (String.eqb (fst bt) b)) (refs r))
                                      (link new (Some h) ++ objects r) (alternates r) (shallow r)
                                      (remotes r) (branch_remote r) (push_default r)
                                      (map (fun kv => (fst kv, Some (snd kv))) (up_files up)) in
                          (Ok tt, store_repo worktree r' w1)
                        else (Err (os.PathError "open" os.ErrPermission), w1)
                    | None => (Err ErrNonFastForwardUpdate, w1)
                    end
                | _ => (Err ErrReferenceNotFound, w1)
                end
            end
        | _ => (Err ErrRemoteNotFound, w)
        end
    end.

(** [remote.List(o)]: the references the remote advertises. *)
Definition List (remote : Remote_t) (o : ListOptions) : IO (list Reference) :=
  fun w =>
    match rem_URLs remote with
    | [] => (Err ErrRemoteNotFound, w)
    | url :: _ =>
        let w1 := log_request "ls-remote" url (lo_Auth o) w in
        match connect w1 url (lo_Auth o) with
        | Err e => (Err e, w1)
        | Ok up =>
            let heads := map (fun bt => mkReference ("refs/heads/" +:+ fst bt) (snd bt))
                             (tips (up_refs up)) in
            let head := match assoc (up_HEAD up) (tips (up_refs up)) with
                        | Some t => [mkReference HEAD_name t]
                        | None => []
                        end in
            (Ok (head ++ heads), w1)
        end
    end.

(** [worktree.Reset(&git.ResetOptions{Commit: h, Mode: git.HardReset})]. *)
Definition Reset_hard (worktree : location) (h : Hash) : IO unit :=
  fun w =>
    match repo_at w worktree with
    | None => (Err ErrRepositoryNotExists, w)
    | Some r =>
        match HEAD r with
        | None => (Err ErrReferenceNotFound, w)
        | Some (b, _) =>
            if negb (has_object w r h) then (Err ErrObjectNotFound, w)
            else if dir_writable w worktree then
              let r' := mkRepository (bare r) (Some (b, h))
                          ((b, h) :: filter (fun bt => negb (String.eqb (fst bt) b)) (refs r))
                          (objects r) (alternates r) (shallow r)
                          (remotes r) (branch_remote r) (push_default r) (files r) in
              (Ok tt, store_repo worktree r' w)
            else (Err (os.PathError "open" os.ErrPermission), w)
        end
    end.

End gogit.

(** ** [internal/vault]

    The receiver [m] of each method contributes only [m.vaultPath], which
    selects the vault store of the world. *)

Module vault.
Import types.

Definition newline : string := String (ascii_of_nat 10) EmptyString.

(** One alternative of the pattern: [prefix], then any characters but a
    newline, then [.git] at the end of the text. *)
Definition match_after (prefix url : string) : bool :=
  match strings.CutPrefix url prefix with
  | Some rest =>
      strings.HasSuffix rest ".git" &&
      negb (strings.Contains (strings.TrimSuffix rest ".git") newline)
  | None => false
  end.

(** [regexp.MatchString(`^(https?://|git@).*\.git$`, url)]; the pattern
    is a valid constant, so no error is returned. *)
Definition urlPattern_MatchString (url : string) : bool :=
  match_after "http://" url || match_after "https://" url || match_after "git@" url.

Definition validateURL (url : string) : IO string :=
  if negb (urlPattern_MatchString url)
  then fail (Errorf "invalid git URL format")
  else ret url.

(** [filepath.Abs] does not fail here, so its error branch is left out. *)
Definition validateLocalPath (path : string) : IO string :=
  let! absPath := gets (fun w => os.Abs w path) in
  let! err := gets (os.Stat (outside absPath)) in
  if os.IsNotExist err
  then fail (Errorf ("path does not exist: " +:+ absPath))
  else
    let! err := gets (os.Stat (dot_git absPath)) in
    if os.IsNotExist err
    then fail (Errorf ("path is not a git repository: " +:+ absPath))
    else ret absPath.

Definition is_remote_form (urlOrPath : string) : bool :=
  strings.HasPrefix urlOrPath "http://" ||
  strings.HasPrefix urlOrPath "https://" ||
  strings.HasPrefix urlOrPath "git@".

Definition validateURLOrPath (urlOrPath : string) : IO string :=
  if String.eqb urlOrPath ""
  then fail (Errorf "URL or path cannot be empty")
  else if is_remote_form urlOrPath
  then validateURL urlOrPath
  else validateLocalPath urlOrPath.

Definition extractNameFromURL (url : string) : IO string :=
  let url := strings.TrimSuffix url ".git" in
  let name :=
    if strings.Contains url "github.com" then
      let parts := strings.Split url "/"%char in
      if Nat.leb 2 (length parts) then List.last parts "" else ""
    else if strings.Contains url "git@" then
      let parts := strings.Split url ":"%char in
      if Nat.leb 2 (length parts) then filepath.Base (List.last parts "") else ""
    else filepath.Base url in
  if String.eqb name ""
  then fail (Errorf ("could not extract repository name from URL: " +:+ url))
  else ret name.

Definition extractRepoName (urlOrPath : string) : IO string :=
  if is_remote_form urlOrPath
  then extractNameFromURL urlOrPath
  else ret (filepath.Base urlOrPath).

Definition loadVault : IO Vault :=
  let! err := gets (os.Stat vault_json) in
  if os.IsNotExist err
  then ret (mkVault [])
  else
    let! data := os.ReadFile_vault ?: "failed to read vault file" in
    let! vault := json_Unmarshal data ?: "failed to unmarshal vault" in
    ret vault.

(** [json.MarshalIndent] cannot fail on these records; its error branch
    is left out here and wherever a value is saved. *)
Definition saveVault (vault : Vault) : IO unit :=
  os.WriteFile_vault vault ?: "failed to write vault file".

Definition repoExists (vault : Vault) (name : string) : bool :=
  existsb (fun repo => String.eqb (Name repo) name) (Repos vault).

Definition createMetadata (name url : string) : IO unit :=
  do! os.MkdirAll (metadata_dir name) ?: "failed to create metadata directory" in
  let! created := time_Now in
  let! updated := time_Now in
  let metadata :=
    mkRepoMetadata url created updated "main" "" "" [] "" "1h"
      (mkSyncInfo zero_Time "")
      (mkBuildConfig "" "" [])
      zero_HookConfig in
  os.WriteFile_metadata (metadata_json name) metadata ?: "failed to write metadata file".

Definition Add (urlOrPath : string) : IO unit :=
  let! url := validateURLOrPath urlOrPath ?: "validation failed" in
  let! name := extractRepoName url ?: "failed to extract repository name" in
  let! vault := loadVault ?: "failed to load vault" in
  if repoExists vault name
  then fail (Errorf ("repository '" +:+ name +:+ "' already exists in vault"))
  else
    let! added := time_Now in
    let vault := mkVault (Repos vault ++ [mkVaultEntry name url added]) in
    do! saveVault vault ?: "failed to save vault" in
    do! createMetadata name url ?: "failed to create metadata" in
    Println ("Added repository '" +:+ name +:+ "' to vault").

Definition getOriginRemote : IO string :=
  let! repo := gogit.PlainOpen (outside ".") ?: "failed to open git repository" in
  let! remote := gogit.Remote repo "origin" ?: "no origin remote found" in
  match gogit.rem_URLs remote with
  | [] => fail (Errorf "origin remote has no URLs")
  | url0 :: _ => gets (fun w => location_text w url0)
  end.

Definition AddFromCurrentDir : IO unit :=
  let! err := gets (os.Stat (dot_git ".")) in
  if os.IsNotExist err
  then fail (Errorf "current directory is not a git repository")
  else
    let! url := getOriginRemote ?: "failed to get origin remote" in
    Add url.

Definition List : IO (list VaultEntry) :=
  let! vault := loadVault ?: "failed to load vault" in
  ret (Repos vault).

Definition Get (name : string) : IO VaultEntry :=
  let! vault := loadVault ?: "failed to load vault" in
  match find (fun repo => String.eqb (Name repo) name) (Repos vault) with
  | Some repo => ret repo
  | None => fail (Errorf ("repository '" +:+ name +:+ "' not found in vault"))
  end.

End vault.

(** [for _, x := range xs { ... }] with the variables the body assigns
    threaded as [acc]; the body neither returns nor breaks. *)
Fixpoint range {A S} (xs : list A) (body : A -> S -> IO S) (acc : S) : IO S :=
  match xs with
  | [] => ret acc
  | x :: rest => let! acc' := body x acc in range rest body acc'
  end.

(** ** [internal/pristine]

    The receiver contributes [m.vaultPath] and [m.pristinesPath]. *)

Module pristine.
Import types.

Record RepoInfo : Type := mkRepoInfo {
  info_DefaultBranch : string;
  info_CurrentBranchHash : string;
  info_Readme : string
}.

Definition loadRepoFromVault (vaultName : string) : IO VaultEntry :=
  let! data := os.ReadFile_vault ?: "failed to read vault file" in
  let! vault := json_Unmarshal data ?: "failed to unmarshal vault" in
  match find (fun repo => String.eqb (Name repo) vaultName) (Repos vault) with
  | Some repo => ret repo
  | None => fail (Errorf ("repository '" +:+ vaultName +:+ "' not found in vault"))
  end.

Definition loadAllReposFromVault : IO (list VaultEntry) :=
  let! data := os.ReadFile_vault ?: "failed to read vault file" in
  let! vault := json_Unmarshal data ?: "failed to unmarshal vault" in
  ret (Repos vault).

Definition cloneAsReference (url : string) (path : location) : IO unit :=
  do! os.MkdirAll path ?: "failed to create directory" in
  gogit.PlainClone path false
    (git.mkCloneOptions (outside url) None git.HEAD_name true 1 false)
    ?: "failed to clone repository".

(** The loop over the README file names: the first one that exists and
    can be read gives the text, cut to 500 bytes. *)
Fixpoint readme_of (path : location) (readmeFiles : list string) : IO string :=
  match readmeFiles with
  | [] => ret ""
  | readmeFile :: rest =>
      let readmePath := os.Join path readmeFile in
      let! err := gets (os.Stat readmePath) in
      if is_ok err then
        let! content := try (os.ReadFile_text readmePath) in
        match content with
        | Ok readme =>
            if Nat.ltb 500 (String.length readme)
            then ret (String.substring 0 500 readme +:+ "...")
            else ret readme
        | Err _ => readme_of path rest
        end
      else readme_of path rest
  end.

Definition extractRepoInfo (path : location) : IO RepoInfo :=
  let! repo := gogit.PlainOpen path ?: "failed to open repository" in
  let! ref := gogit.Head repo ?: "failed to get HEAD" in
  let defaultBranch := git.Short (git.ref_Name ref) in
  let! commit := gogit.CommitObject repo (git.ref_Hash ref) ?: "failed to get commit" in
  let currentHash := commit in
  let! readme := readme_of path ["README.md"; "README.rst"; "README.txt"; "README"] in
  ret (mkRepoInfo defaultBranch currentHash readme).

(** The first advertised branch named [main] or [master]. *)
Definition find_default_branch (refs : list git.Reference) : option git.Reference :=
  find (fun ref =>
          git.IsBranch (git.ref_Name ref) &&
          (let branchName := git.Short (git.ref_Name ref) in
           String.eqb branchName "main" || String.eqb branchName "master")) refs.

Definition hardResetToOrigin (repo : location) : IO unit :=
  let! origin := gogit.Remote repo "origin" ?: "failed to get origin remote" in
  let! refs := gogit.List origin git.ListOptions_zero ?: "failed to list origin refs" in
  match find_default_branch refs with
  | None => fail (Errorf "no default branch found")
  | Some defaultBranchRef =>
      let! worktree := gogit.Worktree repo ?: "failed to get worktree" in
      gogit.Reset_hard worktree (git.ref_Hash defaultBranchRef) ?: "failed to reset"
  end.

Definition updateMetadata (vaultName : string) (info : RepoInfo) : IO unit :=
  let metadataFile := metadata_json vaultName in
  let! data := os.ReadFile_metadata metadataFile ?: "failed to read metadata file" in
  let! metadata := json_Unmarshal data ?: "failed to unmarshal metadata" in
  let! updated := time_Now in
  let! synced := time_Now in
  let metadata :=
    mkRepoMetadata (VaultURL metadata) (CreatedOn metadata) updated
      (info_DefaultBranch info) (info_CurrentBranchHash info)
      (CachedArtifactDir metadata) (Clones metadata) (info_Readme info)
      (SyncInterval metadata) (mkSyncInfo synced "manual")
      (Build metadata) (Hooks metadata) in
  os.WriteFile_metadata metadataFile metadata ?: "failed to write metadata file".

Definition Init (vaultName : string) : IO unit :=
  let! repo := loadRepoFromVault vaultName ?: "failed to load repository from vault" in
  let pristinePath := pristine_dir vaultName in
  let! err := gets (os.Stat pristinePath) in
  if is_ok err
  then fail (Errorf ("pristine '" +:+ vaultName +:+ "' already exists"))
  else
    do! cloneAsReference (URL repo) pristinePath ?: "failed to clone repository" in
    let! info := extractRepoInfo pristinePath ?: "failed to extract repository info" in
    do! updateMetadata vaultName info ?: "failed to update metadata" in
    Println ("Initialized pristine '" +:+ vaultName +:+ "'").

Definition Sync (vaultName : string) : IO unit :=
  let pristinePath := pristine_dir vaultName in
  let! err := gets (os.Stat pristinePath) in
  if os.IsNotExist err
  then fail (Errorf ("pristine '" +:+ vaultName +:+ "' does not exist"))
  else
    let! repo := gogit.PlainOpen pristinePath ?: "failed to open pristine repository" in
    let! worktree := gogit.Worktree repo ?: "failed to get worktree" in
    let! err := try (gogit.Pull worktree git.PullOptions_zero) in
    do! match err with
        | Err e =>
            if bool_decide (e ≠ git.NoErrAlreadyUpToDate)
            then fail (Errorf_w "failed to pull changes" e)
            else ret tt
        | Ok _ => ret tt
        end in
    do! hardResetToOrigin repo ?: "failed to reset to origin" in
    let! info := extractRepoInfo pristinePath ?: "failed to extract repository info" in
    do! updateMetadata vaultName info ?: "failed to update metadata" in
    Println ("Synced pristine '" +:+ vaultName +:+ "'").

Definition InitAll : IO unit :=
  let! repos := loadAllReposFromVault ?: "failed to load repositories from vault" in
  let! errors :=
    range repos
      (fun repo (errors : list string) =>
         let! err := try (Init (Name repo)) in
         match err with
         | Err e => ret (errors ++ ["failed to init " +:+ Name repo +:+ ": " +:+ Error e])
         | Ok _ => ret errors
         end) [] in
  if Nat.ltb 0 (length errors)
  then fail (Errorf ("some repositories failed to initialize:" +:+ vault.newline
                     +:+ strings.Join errors vault.newline))
  else Println ("Initialized " +:+ strings.Itoa (length repos) +:+ " repositories").

Definition SyncAll : IO unit :=
  let! repos := loadAllReposFromVault ?: "failed to load repositories from vault" in
  let! errors :=
    range repos
      (fun repo (errors : list string) =>
         let! err := try (Sync (Name repo)) in
         match err with
         | Err e => ret (errors ++ ["failed to sync " +:+ Name repo +:+ ": " +:+ Error e])
         | Ok _ => ret errors
         end) [] in
  if Nat.ltb 0 (length errors)
  then fail (Errorf ("some repositories failed to sync:" +:+ vault.newline
                     +:+ strings.Join errors vault.newline))
  else Println ("Synced " +:+ strings.Itoa (length repos) +:+ " repositories").

End pristine.

(** ** [internal/clone]

    The receiver contributes [m.vaultPath], [m.pristinesPath] and
    [m.clonesPath]. *)

Module clone.
Import types.

(** [time.Now().Format("20060102-150405")]: a text that depends on the
    second only; the digits of the second count stand for it. *)
Definition Format (t : Time) : string := strings.Itoa t.

Definition generateCloneName (pristineName : string) : IO string :=
  let! t := time_Now in
  let timestamp := Format t in
  ret (pristineName +:+ "-clone-" +:+ timestamp).

Definition cloneExists (cloneName : string) : IO bool :=
  let clonePath := clone_dir cloneName in
  let! err := gets (os.Stat clonePath) in
  ret (is_ok err).

Definition cloneRepository (sourcePath targetPath : location) : IO unit :=
  gogit.PlainClone targetPath false (git.CloneOptions_URL sourcePath)
    ?: "failed to clone from pristine".

Definition loadMetadata (filename : location) : IO RepoMetadata :=
  let! data := os.ReadFile_metadata filename ?: "failed to read metadata file" in
  json_Unmarshal data ?: "failed to unmarshal metadata".

Definition saveMetadata (filename : location) (metadata : RepoMetadata) : IO unit :=
  os.WriteFile_metadata filename metadata ?: "failed to write metadata file".

Definition with_Clones (metadata : RepoMetadata) (clones : list Clone) (updated : Time)
    : RepoMetadata :=
  mkRepoMetadata (VaultURL metadata) (CreatedOn metadata) updated
    (DefaultBranch metadata) (CurrentBranchHash metadata)
    (CachedArtifactDir metadata) clones (Readme metadata)
    (SyncInterval metadata) (LastSync metadata) (Build metadata) (Hooks metadata).

Definition addCloneToMetadata (repoName cloneName : string) (clonePath : location)
    : IO unit :=
  let metadataFile := metadata_json repoName in
  let! metadata := loadMetadata metadataFile ?: "failed to load metadata" in
  let! path := gets (fun w => location_text w clonePath) in
  let! created := time_Now in
  let newClone := mkClone cloneName path created in
  let! updated := time_Now in
  let metadata := with_Clones metadata (Clones metadata ++ [newClone]) updated in
  saveMetadata metadataFile metadata ?: "failed to save metadata".

(** The loop of [removeCloneFromMetadata] over the entries of the vault
    directory; it returns from inside the loop at the first metadata
    file that lists the clone. *)
Fixpoint removeClone_scan (cloneName : string) (entries : list os.DirEntry) : IO unit :=
  match entries with
  | [] => fail (Errorf ("clone '" +:+ cloneName +:+ "' not found in any metadata"))
  | entry :: rest =>
      if os.entry_IsDir entry then
        let metadataFile := metadata_json (os.entry_Name entry) in
        let! loaded := try (loadMetadata metadataFile) in
        match loaded with
        | Err _ => removeClone_scan cloneName rest
        | Ok metadata =>
            let updatedClones :=
              filter (fun c => clone_Name c ≠ cloneName) (Clones metadata) in
            if negb (Nat.eqb (length updatedClones) (length (Clones metadata)))
            then
              let! updated := time_Now in
              saveMetadata metadataFile (with_Clones metadata updatedClones updated)
            else removeClone_scan cloneName rest
        end
      else removeClone_scan cloneName rest
  end.

Definition removeCloneFromMetadata (cloneName : string) : IO unit :=
  let! entries := os.ReadDir_vault ?: "failed to read vault directory" in
  removeClone_scan cloneName entries.

Definition Clone (pristineName cloneName : string) : IO unit :=
  let pristinePath := pristine_dir pristineName in
  let! err := gets (os.Stat pristinePath) in
  if os.IsNotExist err
  then fail (Errorf ("pristine '" +:+ pristineName +:+ "' does not exist, run 'repoman init "
                     +:+ pristineName +:+ "' first"))
  else
    let! cloneName :=
      (if String.eqb cloneName "" then generateCloneName pristineName else ret cloneName) in
    let! exists_ := cloneExists cloneName in
    if exists_
    then fail (Errorf ("clone '" +:+ cloneName +:+ "' already exists"))
    else
      let clonePath := clone_dir cloneName in
      do! os.MkdirAll clonePath ?: "failed to create clone directory" in
      let! err := try (cloneRepository pristinePath clonePath) in
      match err with
      | Err e =>
          let! _ := try (os.RemoveAll clonePath) in
          fail (Errorf_w "failed to clone repository" e)
      | Ok _ =>
          let! err := try (addCloneToMetadata pristineName cloneName clonePath) in
          match err with
          | Err e =>
              let! _ := try (os.RemoveAll clonePath) in
              fail (Errorf_w "failed to update metadata" e)
          | Ok _ => Println ("Created clone '" +:+ cloneName +:+ "'")
          end
      end.

Definition destroyClone (cloneName : string) : IO unit :=
  let clonePath := clone_dir cloneName in
  do! os.RemoveAll clonePath ?: "failed to remove clone directory" in
  let! err := try (removeCloneFromMetadata cloneName) in
  do! match err with
      | Err e => Eprintln ("Warning: failed to update metadata: " +:+ Error e)
      | Ok _ => ret tt
      end in
  Println ("Destroyed clone '" +:+ cloneName +:+ "'").

Definition destroyPristine (pristineName : string) : IO unit :=
  let pristinePath := pristine_dir pristineName in
  do! os.RemoveAll pristinePath ?: "failed to remove pristine directory" in
  Println ("Destroyed pristine '" +:+ pristineName +:+ "' (kept in vault)").

Definition Destroy (target : string) : IO unit :=
  let clonePath := clone_dir target in
  let! err := gets (os.Stat clonePath) in
  if is_ok err then destroyClone target
  else
    let pristinePath := pristine_dir target in
    let! err := gets (os.Stat pristinePath) in
    if is_ok err then destroyPristine target
    else fail (Errorf ("target '" +:+ target +:+ "' not found (not a clone or pristine)")).

End clone.

(** ** What [Init] leaves behind *)

(** The clone that [Init] asks of the engine: a working tree (not bare),
    the branch of the remote HEAD only, one commit deep. *)
Definition pristine_of (url : string) (up : git.Upstream) (tip : git.Hash)
    (before : option git.Hash) : git.Repository :=
  git.mkRepository false (Some (git.up_HEAD up, tip)) [(git.up_HEAD up, tip)]
    [(tip, before)] [] true
    [("origin", [outside url])] (Some "origin") None
    (map (fun kv => (fst kv, Some (snd kv))) (git.up_files up)).

(** The metadata after [updateMetadata]. *)
Definition updated_metadata (md : types.RepoMetadata) (info : pristine.RepoInfo)
    (t : types.Time) : types.RepoMetadata :=
  types.mkRepoMetadata (types.VaultURL md) (types.CreatedOn md) t
    (pristine.info_DefaultBranch info) (pristine.info_CurrentBranchHash info)
    (types.CachedArtifactDir md) (types.Clones md) (pristine.info_Readme info)
    (types.SyncInterval md) (types.mkSyncInfo t "manual") (types.Build md) (types.Hooks md).

(** A bare mirror of what [up] serves, as the specification words the
    pristine: no working tree, every branch, the whole history. *)
Definition bare_mirror_of (up : git.Upstream) (r : git.Repository) : Prop :=
  git.bare r = true /\
  git.shallow r = false /\
  git.refs r = gogit.tips (git.up_refs up).

(** A clone whose object store is linked to the object store at
    [source], as the specification words it: the alternates file names
    [source] and the clone keeps no copy of the history of its own. *)
Definition shares_objects_with (source : location) (c : git.Repository) : Prop :=
  In source (git.alternates c) /\ git.objects c = [].

(** ** Requests and credentials *)

(** The requests in a log that offer a credential. *)
Definition credential_attempts (log : list git.NetCall) : nat :=
  length (List.filter (fun call => match git.nc_auth call with
                                   | Some _ => true
                                   | None => false
                                   end) log).

(** [c] sends at most [n] requests, none of which offers a credential. *)
Definition sends_unauthenticated {A} (n : nat) (c : IO A) : Prop :=
  forall w, exists new,
    net_log (snd (c w)) = net_log w ++ new /\
    length new <= n /\
    Forall (fun call => git.nc_auth call = None) new.

(** ** Bulk operations, as the specification words them

    The per-repository operation is attempted on every name in turn,
    whatever the earlier attempts returned; the outcome of each is kept. *)

Fixpoint attempt_all (op : string -> IO unit) (names : list string) (w : World)
    : list (string * result unit) * World :=
  match names with
  | [] => ([], w)
  | name :: rest =>
      let '(r, w1) := op name w in
      let '(outcomes, w2) := attempt_all op rest w1 in
      ((name, r) :: outcomes, w2)
  end.

(** The report lines of the attempts that failed. *)
Definition failures (label : string) (outcomes : list (string * result unit)) : list string :=
  flat_map (fun o => match snd o with
                     | Err e => [label +:+ fst o +:+ ": " +:+ Error e]
                     | Ok _ => []
                     end) outcomes.

(** ** The default remote, as the specification words it

    In order: the remote tracked by the current branch, the configured
    push-default remote, a remote named [origin], else the first remote in
    lexical order. *)

Definition lexical_first (names : list string) : option string :=
  fold_right (fun n best =>
                match best with
                | Some b => if String.leb n b then Some n else Some b
                | None => Some n
                end) None names.

Definition spec_default_remote (r : git.Repository) : option string :=
  match git.branch_remote r with
  | Some n => Some n
  | None =>
      match git.push_default r with
      | Some n => Some n
      | None =>
          if existsb (String.eqb "origin") (map fst (git.remotes r)) then Some "origin"
          else lexical_first (map fst (git.remotes r))
      end
  end.


(** Whether a call failed with a message that contains [text]. *)
Definition error_contains {A} (r : result A) (text : string) : bool :=
  match r with
  | Ok _ => false
  | Err e => strings.Contains (Error e) text
  end.

(** ** Sample worlds *)

Module sample.

Definition repo_url : string := "https://github.com/user/test-repo.git".
Definition private_url : string := "https://github.com/user/priv.git".
Definition gone_url : string := "https://github.com/user/gone.git".
Definition other_url : string := "https://github.com/user/other.git".

(** An upstream with two branches and three commits on [main]. *)
Definition upstream : git.Upstream :=
  git.mkUpstream "main" [("main", ["c3"; "c2"; "c1"]); ("dev", ["d1"; "c1"])]
    [("README.md", "hello")] (Ok None) false [].

(** An upstream that demands credentials and accepts none. *)
Definition private_upstream : git.Upstream :=
  git.mkUpstream "main" [("main", ["x1"])] [] (Ok None) true [].

Definition other_upstream : git.Upstream :=
  git.mkUpstream "master" [("master", ["o2"; "o1"])] [] (Ok None) false [].

(** Empty directories, everything writable, no vault index yet. *)
Definition fresh : World :=
  mkWorld 100 "/v" "/p" "/c" true true Absent ∅ true ∅ true ∅ "/home/u" ∅
    (<[repo_url := upstream]>
       (<[private_url := private_upstream]> (<[other_url := other_upstream]> ∅)))
    [] [] [].

Definition after {A} (c : IO A) (w : World) : World := snd (c w).

(** The same with a few paths outside the three directories: a directory
    whose [.git] is a regular file (a linked worktree), a directory with
    no [.git] entry, and a regular file. *)
Definition with_paths : World :=
  mkWorld 100 "/v" "/p" "/c" true true Absent ∅ true ∅ true ∅ "/home/u"
    (<["/home/u/wt" := LocalDir (DotGit false None)]>
       (<["/home/u/plain" := LocalDir NoDotGit]>
          (<["/etc/hostname" := LocalFile]> ∅)))
    ∅ [] [] [].

(** [repoman add <repo_url>] *)
Definition added : World := after (vault.Add repo_url) fresh.

(** [repoman init test-repo] *)
Definition initialised : World := after (pristine.Init "test-repo") added.

(** [repoman clone test-repo work] *)
Definition cloned : World := after (clone.Clone "test-repo" "work") initialised.

(** A clone directory that no metadata file lists. *)
Definition untracked_clone : World :=
  mkWorld 100 "/v" "/p" "/c" true true Absent ∅ true ∅ true (<["scratch" := PlainDir]> ∅)
    "/home/u" ∅ ∅ [] [] [].

(** A vault of three repositories, the second of which is unreachable. *)
Definition three_repos : World :=
  after (vault.Add other_url) (after (vault.Add gone_url) added).

(** A checkout whose current branch tracks [upstream], with the
    contributor's fork as [origin]. *)
Definition fork_checkout : git.Repository :=
  git.mkRepository false (Some ("main", "c3")) [("main", "c3")]
    (git.link ["c3"; "c2"; "c1"] None) [] false
    [("origin", [outside "https://github.com/me/fork.git"]);
     ("upstream", [outside "https://github.com/org/proj.git"])]
    (Some "upstream") None [].

(** A checkout with no remote named [origin]. *)
Definition upstream_only_checkout : git.Repository :=
  git.mkRepository false (Some ("main", "c3")) [("main", "c3")]
    (git.link ["c3"; "c2"; "c1"] None) [] false
    [("upstream", [outside "https://github.com/org/proj.git"])]
    (Some "upstream") None [].

Definition in_checkout (r : git.Repository) : World :=
  mkWorld 100 "/v" "/p" "/c" true true Absent ∅ true ∅ true ∅ "/home/u/proj"
    (<["/home/u/proj" := LocalDir (DotGit true (Some r))]> ∅) ∅ [] [] [].

(** The sample vault with a stray directory below the pristines
    directory that no vault entry names. *)
Definition stray_pristine : World :=
  after (os.MkdirAll (pristine_dir "stray")) added.

(** The vault with the private repository added. *)
Definition with_private : World := after (vault.Add private_url) fresh.

(** The sample vault with an empty directory where the pristine of
    [test-repo] would be, as the package's tests set it up. *)
Definition hollow_pristine : World :=
  after (os.MkdirAll (pristine_dir "test-repo")) added.

End sample.

(** ** [internal/types]: validation *)

Module validation.
Import types.

Record ValidationError : Type := mkValidationError {
  Field : string;
  Message : string
}.

(** The method [Error] of [ValidationError]. *)
Definition ValidationError_Error (e : ValidationError) : string := Message e.

(** The method [Validate] of [Vault]: the first entry with an empty name or an empty
    URL gives the error; nil when there is none. *)
Fixpoint Validate_range (repos : list VaultEntry) : option ValidationError :=
  match repos with
  | [] => None
  | repo :: rest =>
      if String.eqb (Name repo) ""
      then Some (mkValidationError "name" "repository name cannot be empty")
      else if String.eqb (URL repo) ""
      then Some (mkValidationError "url" "repository URL cannot be empty")
      else Validate_range rest
  end.

Definition Vault_Validate (v : Vault) : option ValidationError :=
  Validate_range (Repos v).

(** The method [Validate] of [RepoMetadata]. *)
Definition RepoMetadata_Validate (m : RepoMetadata) : option ValidationError :=
  if String.eqb (VaultURL m) ""
  then Some (mkValidationError "vault_url" "vault URL cannot be empty")
  else None.

End validation.

(** ** [internal/clone]: listing and orphaned clones

    The remaining methods of the clone manager.  [os.ReadDir(m.clonesPath)]
    lists the clone directories, sorted by name; the clones directory is
    there and can be listed in every world (the program creates it when it
    starts), so the call returns no error here, and the branches of
    [DetectOrphanedClones] that handle one are kept as written. *)

Module orphans.
Import types.

(** [os.ReadDir(m.clonesPath)] *)
Definition ReadDir_clones : IO (list os.DirEntry) :=
  fun w =>
    (Ok (merge_sort os.name_le
           (map (fun kv => os.mkDirEntry (fst kv) true) (map_to_list (clones w)))), w).

Record CloneInfo : Type := mkCloneInfo {
  ci_Name : string;
  ci_Path : string;
  ci_Created : Time;
  ci_Repo : string
}.

#[global] Instance CloneInfo_eq_dec : EqDecision CloneInfo.
Proof. solve_decision. Defined.

(** The clones one metadata file lists, as [List] reports them. *)
Definition infos_of (repo : string) (metadata : RepoMetadata) : list CloneInfo :=
  map (fun clone => mkCloneInfo (clone_Name clone) (clone_Path clone)
                      (clone_Created clone) repo) (Clones metadata).

Definition List : IO (list CloneInfo) :=
  let! entries := os.ReadDir_vault ?: "failed to read vault directory" in
  range entries
    (fun entry (clones : list CloneInfo) =>
       if os.entry_IsDir entry then
         let metadataFile := metadata_json (os.entry_Name entry) in
         let! err := gets (os.Stat metadataFile) in
         if is_ok err then
           let! loaded := try (clone.loadMetadata metadataFile) in
           match loaded with
           | Err _ => ret clones
           | Ok metadata => ret (clones ++ infos_of (os.entry_Name entry) metadata)
           end
         else ret clones
       else ret clones) [].

Definition DetectOrphanedClones : IO (list string) :=
  let! listed := try ReadDir_clones in
  match listed with
  | Err e =>
      if os.IsNotExist (Err e) then ret []
      else fail (Errorf_w "failed to read clones directory" e)
  | Ok cloneEntries =>
      let! expectedClones := List ?: "failed to list expected clones" in
      let expectedNames : gset string := list_to_set (map ci_Name expectedClones) in
      range cloneEntries
        (fun entry (orphaned : list string) =>
           if os.entry_IsDir entry && negb (bool_decide (os.entry_Name entry ∈ expectedNames))
           then ret (orphaned ++ [os.entry_Name entry])
           else ret orphaned) []
  end.

Definition CleanupOrphanedClones : IO unit :=
  let! orphaned := DetectOrphanedClones ?: "failed to detect orphaned clones" in
  if Nat.eqb (length orphaned) 0
  then Println "No orphaned clones found"
  else
    do! Println ("Found " +:+ strings.Itoa (length orphaned) +:+ " orphaned clone(s):") in
    do! range orphaned
          (fun clone (_ : unit) =>
             do! Println ("  - " +:+ clone) in
             let clonePath := clone_dir clone in
             let! err := try (os.RemoveAll clonePath) in
             match err with
             | Err e => Eprintln ("Warning: failed to remove orphaned clone '" +:+ clone
                                  +:+ "': " +:+ Error e)
             | Ok _ => ret tt
             end) tt in
    Println ("Cleaned up " +:+ strings.Itoa (length orphaned) +:+ " orphaned clone(s)").

End orphans.

(** ** Notions used in the further properties *)

(** Some readable metadata file lists a clone of this name. *)
Definition tracked (w : World) (cloneName : string) : Prop :=
  exists repo md,
    vault_dirs w !! repo = Some (Holds md) /\
    In cloneName (map types.clone_Name (types.Clones md)).

(** The clone records that the metadata file of a repository holds, when
    it can be read. *)
Definition records_of (w : World) (repo : string) : option (list types.Clone) :=
  match vault_dirs w !! repo with
  | Some (Holds md) => Some (types.Clones md)
  | _ => None
  end.

(** The characters of a text. *)
Fixpoint chars (s : string) : list ascii :=
  match s with
  | EmptyString => []
  | String c s' => c :: chars s'
  end.

(** The element [e] can sit on top of [below] in a cleaned path. *)
Definition kept (rooted : bool) (below : list string) (e : string) : Prop :=
  e <> "" /\ e <> "." /\ ~ In filepath.sep (chars e) /\
  (e = ".." -> rooted = false /\ match below with [] => True | b :: _ => b = ".." end).

Fixpoint cleaned (rooted : bool) (stack : list string) : Prop :=
  match stack with
  | [] => True
  | top :: below => kept rooted below top /\ cleaned rooted below
  end.

(** A single path element: not empty, no separator in it. *)
Definition path_element (name : string) : Prop :=
  name <> "" /\ ~ In filepath.sep (chars name).

(** A name that [filepath.Join] puts directly below a directory, under
    its own spelling, and that the file system takes as a file name: one
    path element other than [.] and [..], with no NUL byte in it, of at
    most 255 bytes. *)
Definition plain_nameb (name : string) : bool :=
  negb (String.eqb name "") && negb (String.eqb name ".") && negb (String.eqb name "..") &&
  forallb (fun c => negb (Ascii.eqb c filepath.sep) && negb (Ascii.eqb c "000")) (chars name) &&
  Nat.leb (String.length name) 255.

Definition plain_name (name : string) : Prop := plain_nameb name = true.

(** A directory of the configuration, given as a clean absolute path. *)
Definition rootb (p : string) : bool :=
  filepath.IsAbs p && String.eqb (filepath.Clean p) p.

(** The path [a] is [b] or leads below it, both being clean and
    absolute. *)
Definition within (a b : string) : bool :=
  String.eqb a b || String.eqb b "/" || String.prefix (b +:+ "/") a.

(** The vault, the pristines and the clones directory lie apart: none of
    them is another or lies below another, as with the three directories
    of the default configuration. *)
Definition separate_rootsb (w : World) : bool :=
  rootb (vaultPath w) && rootb (pristinesPath w) && rootb (clonesPath w) &&
  negb (within (vaultPath w) (pristinesPath w)) &&
  negb (within (pristinesPath w) (vaultPath w)) &&
  negb (within (vaultPath w) (clonesPath w)) &&
  negb (within (clonesPath w) (vaultPath w)) &&
  negb (within (pristinesPath w) (clonesPath w)) &&
  negb (within (clonesPath w) (pristinesPath w)).

Definition separate_roots (w : World) : Prop := separate_rootsb w = true.

(** The entries of the clones directory are file names, as the listing
    of a directory gives them. *)
Definition clone_entries_plain (w : World) : Prop :=
  forall name, is_Some (clones w !! name) -> plain_name name.

(** The README of a working tree: the text of the first of [names] that
    is there and can be read. *)
Fixpoint first_readable (names : list string) (files : list (string * option string))
    : option string :=
  match names with
  | [] => None
  | name :: rest =>
      match assoc name files with
      | Some (Some text) => Some text
      | _ => first_readable rest files
      end
  end.

(** A text as the metadata keeps it: whole when it has at most 500 bytes,
    else its first 500 bytes followed by three dots. *)
Definition excerpt (text : string) : string :=
  if Nat.ltb 500 (String.length text)
  then String.substring 0 500 text +:+ "..."
  else text.

(** The README excerpt of a working tree with the given files: that of
    the first of the four README names that is there and can be read; the
    empty text when there is none. *)
Definition readme_excerpt (files : list (string * option string)) : string :=
  match first_readable ["README.md"; "README.rst"; "README.txt"; "README"] files with
  | Some text => excerpt text
  | None => ""
  end.

(** The names a vault lists. *)
Definition names_of (v : types.Vault) : list string := map types.Name (types.Repos v).

(** The records [List] reports for one entry of the vault directory. *)
Definition listed_under (w : World) (entry : os.DirEntry) : list orphans.CloneInfo :=
  if os.entry_IsDir entry then
    match vault_dirs w !! os.entry_Name entry with
    | Some (Holds md) => orphans.infos_of (os.entry_Name entry) md
    | _ => []
    end
  else [].

(** The test of the loop of [DetectOrphanedClones]. *)
Definition is_orphan (expectedNames : gset string) (entry : os.DirEntry) : bool :=
  os.entry_IsDir entry && negb (bool_decide (os.entry_Name entry ∈ expectedNames)).

(** The last character of a text. *)
Fixpoint last_char (s : string) : option ascii :=
  match s with
  | EmptyString => None
  | String c EmptyString => Some c
  | String _ s' => last_char s'
  end.

(** ** Further sample worlds *)

Module scenario.

(** A vault directory whose index file is present but is not JSON. *)
Definition garbled_index : World :=
  mkWorld 100 "/v" "/p" "/c" true true Garbled ∅ true ∅ true ∅ "/home/u" ∅ ∅ [] [] [].

(** A repository whose name is that of the index file itself. *)
Definition index_name_url : string := "https://github.com/user/vault.json.git".

(** The sample pristine holding the three commits of [main], its branch
    set back to the second of them: the latest commit is still in the
    store and no branch reaches it. *)
Definition rewound : World :=
  gogit.store_repo (pristine_dir "test-repo")
    (git.mkRepository false (Some ("main", "c2")) [("main", "c2")]
       (git.link ["c3"; "c2"; "c1"] None) [] false
       [("origin", [outside sample.repo_url])] (Some "origin") None [])
    sample.initialised.

(** The sample pristine once its remote has turned private. *)
Definition locked_out : World :=
  mkWorld 100 "/v" "/p" "/c" true true
    (vault_index sample.initialised) (vault_dirs sample.initialised)
    true (pristines sample.initialised) true ∅ "/home/u" ∅
    (<[sample.repo_url := sample.private_upstream]> ∅) [] [] [].

(** A README of 600 bytes. *)
Definition long_text : string :=
  Eval vm_compute in
    fold_right (fun _ s => "0123456789" +:+ s) "" (seq 0 60).

(** The sample upstream with that README. *)
Definition wordy_upstream : git.Upstream :=
  git.mkUpstream "main" [("main", ["c3"; "c2"; "c1"])] [("README.md", long_text)]
    (Ok None) false [].

(** The sample vault, the repository serving the long README, and the
    pristine made of it. *)
Definition wordy_added : World :=
  mkWorld 100 "/v" "/p" "/c" true true (vault_index sample.added) (vault_dirs sample.added)
    true ∅ true ∅ "/home/u" ∅ (<[sample.repo_url := wordy_upstream]> ∅) [] [] [].

Definition wordy_initialised : World := sample.after (pristine.Init "test-repo") wordy_added.

End scenario.

(** * Properties *)

(** ** Reasoning in the monad *)

Section Monad.
Context {A B : Type}.

Lemma bind_Ok (c : IO A) (k : A -> IO B) w a w1 :
  c w = (Ok a, w1) -> bind c k w = k a w1.
Proof. intros H. unfold bind. now rewrite H. Qed.

Lemma bind_Err (c : IO A) (k : A -> IO B) w e w1 :
  c w = (Err e, w1) -> bind c k w = (Err e, w1).
Proof. intros H. unfold bind. now rewrite H. Qed.

Lemma bind_Ok_inv (c : IO A) (k : A -> IO B) w b w' :
  bind c k w = (Ok b, w') ->
  exists a w1, c w = (Ok a, w1) /\ k a w1 = (Ok b, w').
Proof.
  unfold bind. destruct (c w) as [[a|e] w1]; intros H.
  - now exists a, w1.
  - discriminate.
Qed.

Lemma or_wrap_Ok (c : IO A) ctx w a w1 :
  c w = (Ok a, w1) -> (c ?: ctx) w = (Ok a, w1).
Proof. intros H. unfold or_wrap. now rewrite H. Qed.

Lemma or_wrap_Err (c : IO A) ctx w e w1 :
  c w = (Err e, w1) -> (c ?: ctx) w = (Err (Errorf_w ctx e), w1).
Proof. intros H. unfold or_wrap. now rewrite H. Qed.

Lemma or_wrap_Ok_inv (c : IO A) ctx w a w1 :
  (c ?: ctx) w = (Ok a, w1) -> c w = (Ok a, w1).
Proof.
  unfold or_wrap. destruct (c w) as [[a'|e] w']; intros H; now inversion H.
Qed.

Lemma try_eq (c : IO A) w : try c w = (Ok (fst (c w)), snd (c w)).
Proof. unfold try. now destruct (c w). Qed.
End Monad.

Lemma reads_eq {A} (c : IO A) w : reads c -> c w = (fst (c w), w).
Proof. intros H. rewrite <- (H w) at 3. now destruct (c w). Qed.

Lemma reads_ret {A} (a : A) : reads (ret a).
Proof. now intros w. Qed.

Lemma reads_fail {A} e : reads (@fail A e).
Proof. now intros w. Qed.

Lemma reads_gets {A} (f : World -> A) : reads (gets f).
Proof. now intros w. Qed.

Lemma reads_bind {A B} (c : IO A) (k : A -> IO B) :
  reads c -> (forall a, reads (k a)) -> reads (bind c k).
Proof.
  intros Hc Hk w. unfold bind. specialize (Hc w).
  destruct (c w) as [[a|e] w1]; simpl in *; subst; [apply Hk | reflexivity].
Qed.

Lemma reads_or_wrap {A} (c : IO A) ctx : reads c -> reads (c ?: ctx).
Proof.
  intros Hc w. unfold or_wrap. specialize (Hc w).
  now destruct (c w) as [[a|e] w1].
Qed.

Lemma reads_if {A} (b : bool) (c d : IO A) : reads c -> reads d -> reads (if b then c else d).
Proof. now destruct b. Qed.

Ltac reads_step :=
  lazymatch goal with
  | |- reads (ret _) => apply reads_ret
  | |- reads (fail _) => apply reads_fail
  | |- reads (gets _) => apply reads_gets
  | |- reads (bind _ _) => apply reads_bind; [ | intros ? ]
  | |- reads (or_wrap _ _) => apply reads_or_wrap
  | |- reads (if _ then _ else _) => apply reads_if
  end.

Ltac solve_reads := repeat reads_step.

(** ** The vault *)

Lemma reads_ReadFile_vault : reads os.ReadFile_vault.
Proof. now intros w. Qed.

Lemma reads_json_Unmarshal {A} (d : os.data A) : reads (json_Unmarshal d).
Proof. destruct d; [apply reads_ret | apply reads_fail]. Qed.

Lemma reads_loadVault : reads vault.loadVault.
Proof.
  unfold vault.loadVault. solve_reads.
  - apply reads_ReadFile_vault.
  - apply reads_json_Unmarshal.
Qed.

Lemma reads_validateURLOrPath u : reads (vault.validateURLOrPath u).
Proof.
  unfold vault.validateURLOrPath, vault.validateURL, vault.validateLocalPath.
  solve_reads.
Qed.

Lemma reads_extractRepoName u : reads (vault.extractRepoName u).
Proof.
  unfold vault.extractRepoName, vault.extractNameFromURL. solve_reads.
Qed.

Lemma loadVault_Absent w :
  vault_index w = Absent -> vault.loadVault w = (Ok (types.mkVault []), w).
Proof.
  intros H. unfold vault.loadVault, bind, gets. simpl. now rewrite H.
Qed.

Lemma loadVault_Holds w v :
  vault_index w = Holds v -> vault.loadVault w = (Ok v, w).
Proof.
  intros H. unfold vault.loadVault, bind, gets, or_wrap, os.ReadFile_vault. simpl.
  rewrite H. simpl. now rewrite H.
Qed.

Lemma List_Holds w v : vault_index w = Holds v -> vault.List w = (Ok (types.Repos v), w).
Proof.
  intros H. unfold vault.List.
  rewrite (bind_Ok _ _ w v w); [reflexivity|].
  apply or_wrap_Ok. now apply loadVault_Holds.
Qed.

Lemma Get_Absent name w :
  vault_index w = Absent ->
  vault.Get name w = (Err (Errorf ("repository '" +:+ name +:+ "' not found in vault")), w).
Proof.
  intros H. unfold vault.Get.
  rewrite (bind_Ok _ _ w (types.mkVault []) w); [reflexivity|].
  apply or_wrap_Ok. now apply loadVault_Absent.
Qed.

(** What [Add] does once validation has produced [url] and the name
    [name], on a vault [v0] that does not list [name], when the vault
    directory can be written. *)
Lemma Add_fresh urlOrPath url name v0 w :
  vault.validateURLOrPath urlOrPath w = (Ok url, w) ->
  vault.extractRepoName url w = (Ok name, w) ->
  vault.loadVault w = (Ok v0, w) ->
  vault.repoExists v0 name = false ->
  vault_writable w = true ->
  name <> "vault.json" ->
  exists w',
    vault.Add urlOrPath w = (Ok tt, w') /\
    vault_index w' =
      Holds (types.mkVault (types.Repos v0 ++ [types.mkVaultEntry name url (now w)])) /\
    (exists md, vault_dirs w' = <[name := Holds md]> (vault_dirs w) /\
                types.VaultURL md = url) /\
    pristines w' = pristines w /\ clones w' = clones w.
Proof.
  intros Hv Hn Hl Hex Hw Hne.
  unfold vault.Add.
  rewrite (bind_Ok _ _ w url w) by now apply or_wrap_Ok.
  rewrite (bind_Ok _ _ w name w) by now apply or_wrap_Ok.
  rewrite (bind_Ok _ _ w v0 w) by now apply or_wrap_Ok.
  rewrite Hex.
  unfold bind at 1. unfold time_Now, gets.
  unfold vault.saveVault, vault.createMetadata, bind, or_wrap, os.WriteFile_vault,
    os.MkdirAll, os.WriteFile_metadata, time_Now, gets, Println, modify.
  simpl. rewrite Hw. simpl.
  assert (Hb : String.eqb name "vault.json" = false) by now apply String.eqb_neq.
  destruct (vault_dirs w !! name) as [f|] eqn:Hd; simpl.
  - rewrite Hd. simpl. rewrite Hw. simpl.
    eexists. split; [reflexivity|]. simpl. repeat split; eauto.
  - rewrite Hb. simpl. rewrite Hw. simpl.
    rewrite lookup_insert_eq. simpl. rewrite Hw. simpl.
    eexists. split; [reflexivity|]. simpl.
    split; [reflexivity|]. split; [|split; reflexivity].
    eexists. split.
    + now rewrite insert_insert_eq.
    + reflexivity.
Qed.

Lemma reads_inv {A} (c : IO A) w r w1 : reads c -> c w = (r, w1) -> w1 = w.
Proof. intros Hc H. specialize (Hc w). rewrite H in Hc. exact Hc. Qed.

Lemma find_existsb_false {A} (f : A -> bool) l : existsb f l = false -> find f l = None.
Proof.
  induction l as [|x l IH]; simpl; [reflexivity|].
  destruct (f x); simpl; [discriminate | exact IH].
Qed.

Lemma find_app_fresh {A} (f : A -> bool) l x :
  existsb f l = false -> f x = true -> find f (l ++ [x]) = Some x.
Proof.
  induction l as [|y l IH]; simpl; intros Hl Hx.
  - now rewrite Hx.
  - destruct (f y); simpl in *; [discriminate | now apply IH].
Qed.

Section Preserves.
Context {X : Type} (f : World -> X).

Lemma preserves_reads {A} (c : IO A) : reads c -> preserves f c.
Proof. intros H w. now rewrite H. Qed.

Lemma preserves_ret {A} (a : A) : preserves f (ret a).
Proof. now intros w. Qed.

Lemma preserves_fail {A} e : preserves f (@fail A e).
Proof. now intros w. Qed.

Lemma preserves_gets {A} (g : World -> A) : preserves f (gets g).
Proof. now intros w. Qed.

Lemma preserves_bind {A B} (c : IO A) (k : A -> IO B) :
  preserves f c -> (forall a, preserves f (k a)) -> preserves f (bind c k).
Proof.
  intros Hc Hk w. unfold bind. specialize (Hc w).
  destruct (c w) as [[a|e] w1]; simpl in *.
  - now rewrite Hk.
  - exact Hc.
Qed.

Lemma preserves_or_wrap {A} (c : IO A) ctx : preserves f c -> preserves f (c ?: ctx).
Proof.
  intros Hc w. unfold or_wrap. specialize (Hc w).
  now destruct (c w) as [[a|e] w1].
Qed.

Lemma preserves_try {A} (c : IO A) : preserves f c -> preserves f (try c).
Proof. intros Hc w. rewrite try_eq. apply Hc. Qed.

Lemma preserves_if {A} (b : bool) (c d : IO A) :
  preserves f c -> preserves f d -> preserves f (if b then c else d).
Proof. now destruct b. Qed.

Lemma preserves_time_Now : preserves f time_Now.
Proof. now intros w. Qed.

Lemma preserves_inv {A} (c : IO A) w r w1 : preserves f c -> c w = (r, w1) -> f w1 = f w.
Proof. intros Hc H. specialize (Hc w). now rewrite H in Hc. Qed.
End Preserves.

Ltac preserves_step :=
  lazymatch goal with
  | |- preserves _ (ret _) => apply preserves_ret
  | |- preserves _ (fail _) => apply preserves_fail
  | |- preserves _ (gets _) => apply preserves_gets
  | |- preserves _ time_Now => apply preserves_time_Now
  | |- preserves _ (bind _ _) => apply preserves_bind; [ | intros ? ]
  | |- preserves _ (or_wrap _ _) => apply preserves_or_wrap
  | |- preserves _ (try _) => apply preserves_try
  | |- preserves _ (if _ then _ else _) => apply preserves_if
  end.

Ltac solve_preserves := repeat preserves_step.

Lemma MkdirAll_vault_index path : preserves vault_index (os.MkdirAll path).
Proof.
  intros w. unfold os.MkdirAll.
  repeat (match goal with
          | |- context [match ?x with _ => _ end] => destruct x; simpl
          end); reflexivity.
Qed.

Lemma WriteFile_metadata_vault_index path md :
  preserves vault_index (os.WriteFile_metadata path md).
Proof.
  intros w. unfold os.WriteFile_metadata.
  repeat (match goal with
          | |- context [match ?x with _ => _ end] => destruct x; simpl
          end); reflexivity.
Qed.

Lemma createMetadata_vault_index name url :
  preserves vault_index (vault.createMetadata name url).
Proof.
  unfold vault.createMetadata. solve_preserves.
  - apply MkdirAll_vault_index.
  - apply WriteFile_metadata_vault_index.
Qed.

(** C5: when [Add] succeeds it has resolved a name that the vault did
    not list before; [Get] of that name, read back from the written vault
    index, returns the entry just added, with that name and the validated
    URL; and a further [Add] that resolves to the same name fails with the
    already-exists error and leaves the world as it is. *)
Theorem Add_Get_round_trip urlOrPath w w' :
  vault.Add urlOrPath w = (Ok tt, w') ->
  exists url name v0,
    vault.validateURLOrPath urlOrPath w = (Ok url, w) /\
    vault.extractRepoName url w = (Ok name, w) /\
    vault.loadVault w = (Ok v0, w) /\
    vault.repoExists v0 name = false /\
    vault_index w' =
      Holds (types.mkVault (types.Repos v0 ++ [types.mkVaultEntry name url (now w)])) /\
    vault.Get name w' = (Ok (types.mkVaultEntry name url (now w)), w') /\
    (forall urlOrPath2 url2,
       vault.validateURLOrPath urlOrPath2 w' = (Ok url2, w') ->
       vault.extractRepoName url2 w' = (Ok name, w') ->
       vault.Add urlOrPath2 w' =
         (Err (Errorf ("repository '" +:+ name +:+ "' already exists in vault")), w')).
Proof.
  intros H. unfold vault.Add in H.
  apply bind_Ok_inv in H as (url & w1 & Hv & H). apply or_wrap_Ok_inv in Hv.
  pose proof (reads_inv _ _ _ _ (reads_validateURLOrPath urlOrPath) Hv) as ->.
  apply bind_Ok_inv in H as (name & w1 & Hn & H). apply or_wrap_Ok_inv in Hn.
  pose proof (reads_inv _ _ _ _ (reads_extractRepoName url) Hn) as ->.
  apply bind_Ok_inv in H as (v0 & w1 & Hl & H). apply or_wrap_Ok_inv in Hl.
  pose proof (reads_inv _ _ _ _ reads_loadVault Hl) as ->.
  destruct (vault.repoExists v0 name) eqn:Hex; [discriminate H|].
  apply bind_Ok_inv in H as (added & w1 & Ht & H).
  unfold time_Now, gets in Ht. inversion Ht; subst added w1; clear Ht.
  apply bind_Ok_inv in H as ([] & w2 & Hs & H). apply or_wrap_Ok_inv in Hs.
  unfold vault.saveVault in Hs. apply or_wrap_Ok_inv in Hs.
  unfold os.WriteFile_vault in Hs.
  destruct (vault_writable w); [|discriminate Hs]. inversion Hs; subst w2; clear Hs.
  apply bind_Ok_inv in H as ([] & w3 & Hc & H). apply or_wrap_Ok_inv in Hc.
  apply (preserves_inv _ _ _ _ _ (createMetadata_vault_index name url)) in Hc.
  simpl in Hc.
  unfold Println, modify in H. injection H as Hw'.
  set (entry := types.mkVaultEntry name url (now w)) in *.
  set (v1 := types.mkVault (types.Repos v0 ++ [entry])) in *.
  assert (Hidx : vault_index w' = Holds v1) by (rewrite <- Hw'; exact Hc).
  clear Hw' Hc.
  assert (Hname : String.eqb (types.Name entry) name = true) by apply String.eqb_refl.
  exists url, name, v0. repeat split; try assumption.
  - unfold vault.Get.
    rewrite (bind_Ok _ _ w' v1 w') by (apply or_wrap_Ok; now apply loadVault_Holds).
    simpl. rewrite (find_app_fresh _ _ entry Hex Hname). reflexivity.
  - intros urlOrPath2 url2 Hv2 Hn2. unfold vault.Add.
    rewrite (bind_Ok _ _ w' url2 w') by now apply or_wrap_Ok.
    rewrite (bind_Ok _ _ w' name w') by now apply or_wrap_Ok.
    rewrite (bind_Ok _ _ w' v1 w') by (apply or_wrap_Ok; now apply loadVault_Holds).
    unfold vault.repoExists, v1. simpl. rewrite existsb_app. simpl.
    rewrite String.eqb_refl, orb_true_r. reflexivity.
Qed.

(** C5 at the sample world: the entry added for the sample URL is read back. *)
Lemma Add_Get_round_trip_witness :
  vault.Get "test-repo" sample.added =
    (Ok (types.mkVaultEntry "test-repo" sample.repo_url 100), sample.added).
Proof.
  destruct (Add_Get_round_trip sample.repo_url sample.fresh sample.added eq_refl)
    as (url & name & v0 & Hv & Hn & _ & _ & _ & Hget & _).
  vm_compute in Hv. injection Hv as <-.
  vm_compute in Hn. injection Hn as <-.
  exact Hget.
Defined.

(** C10: with no vault index on disk the vault reads as empty: [List]
    returns the empty list and no error, [Get] fails with the not-found
    error for every name, and [Add] of an input that validates and resolves
    to a name succeeds when the vault directory can be written (the name
    [vault.json] would collide with the index file itself) and leaves an
    index holding exactly the new entry. *)
Theorem missing_index_is_empty_vault w :
  vault_index w = Absent ->
  vault.List w = (Ok [], w) /\
  (forall name,
     vault.Get name w =
       (Err (Errorf ("repository '" +:+ name +:+ "' not found in vault")), w)) /\
  (forall urlOrPath url name,
     vault.validateURLOrPath urlOrPath w = (Ok url, w) ->
     vault.extractRepoName url w = (Ok name, w) ->
     vault_writable w = true ->
     name <> "vault.json" ->
     exists w',
       vault.Add urlOrPath w = (Ok tt, w') /\
       vault_index w' = Holds (types.mkVault [types.mkVaultEntry name url (now w)])).
Proof.
  intros H. split; [|split].
  - unfold vault.List.
    rewrite (bind_Ok _ _ w (types.mkVault []) w); [reflexivity|].
    apply or_wrap_Ok. now apply loadVault_Absent.
  - intros name. now apply Get_Absent.
  - intros urlOrPath url name Hv Hn Hw Hne.
    destruct (Add_fresh urlOrPath url name (types.mkVault []) w Hv Hn
                (loadVault_Absent w H) eq_refl Hw Hne) as (w' & Hadd & Hidx & _).
    exists w'. split; [exact Hadd | exact Hidx].
Qed.

(** C10 at the sample world. *)
Lemma missing_index_is_empty_vault_witness :
  vault.List sample.fresh = (Ok [], sample.fresh) /\
  fst (vault.Get "anything" sample.fresh) =
    Err (Errorf "repository 'anything' not found in vault") /\
  exists w', vault.Add sample.repo_url sample.fresh = (Ok tt, w').
Proof.
  destruct (missing_index_is_empty_vault sample.fresh eq_refl) as (HL & HG & HA).
  split; [exact HL|]. split; [now rewrite HG|].
  destruct (HA sample.repo_url sample.repo_url "test-repo" eq_refl eq_refl eq_refl)
    as (w' & Hadd & _); [discriminate|].
  now exists w'.
Defined.

(** ** Strings *)

Lemma append_nil (b : string) : "" +:+ b = b.
Proof. reflexivity. Qed.

Lemma append_cons x (a b : string) : String x a +:+ b = String x (a +:+ b).
Proof. reflexivity. Qed.


Lemma append_assoc (a b c : string) : (a +:+ b) +:+ c = a +:+ (b +:+ c).
Proof.
  induction a as [|x a IH]; [reflexivity|]. now rewrite !append_cons, IH.
Qed.


Lemma prefix_append p : forall a b, String.prefix p a = true -> String.prefix p (a +:+ b) = true.
Proof.
  induction p as [|c p IH]; intros a b H.
  - now destruct (a +:+ b).
  - destruct a as [|d a]; [discriminate|]. rewrite append_cons. simpl in *.
    destruct (ascii_dec c d); [now apply IH | discriminate].
Qed.

Lemma rev_acc_append s : forall acc, strings.rev_acc s acc = strings.rev s +:+ acc.
Proof.
  unfold strings.rev. induction s as [|c s IH]; intros acc; simpl; [reflexivity|].
  rewrite (IH (String c "")), (IH (String c acc)), append_assoc. reflexivity.
Qed.





(** *** [filepath.Clean] *)

Lemma Split_no_sep sep s : forall p, In p (strings.Split s sep) -> ~ In sep (chars p).
Proof.
  induction s as [|c s IH]; simpl; intros p Hp.
  - destruct Hp as [<-|[]]. simpl. tauto.
  - destruct (Ascii.eqb c sep) eqn:E.
    + destruct Hp as [<-|Hp]; [simpl; tauto | now apply IH].
    + destruct (strings.Split s sep) as [|q qs] eqn:Hs.
      * destruct Hp as [<-|[]]. simpl. intros [->|[]].
        now rewrite Ascii.eqb_refl in E.
      * destruct Hp as [<-|Hp].
        -- simpl. intros [->|Hq]; [now rewrite Ascii.eqb_refl in E|].
           apply (IH q); [now left | exact Hq].
        -- apply IH. now right.
Qed.

Lemma Split_sep_free sep e : ~ In sep (chars e) -> strings.Split e sep = [e].
Proof.
  induction e as [|c e IH]; simpl; intros H; [reflexivity|].
  destruct (Ascii.eqb c sep) eqn:E.
  - apply Ascii.eqb_eq in E. exfalso. apply H. now left.
  - rewrite IH by tauto. reflexivity.
Qed.



Lemma clean_step_cleaned rooted stack e :
  ~ In filepath.sep (chars e) -> cleaned rooted stack ->
  cleaned rooted (filepath.clean_step rooted stack e).
Proof.
  intros Hfree Hs. unfold filepath.clean_step.
  destruct (String.eqb e "") eqn:E1; [exact Hs|].
  destruct (String.eqb e ".") eqn:E2; [exact Hs|]. simpl.
  apply String.eqb_neq in E1, E2.
  destruct (String.eqb e "..") eqn:E3.
  - apply String.eqb_eq in E3. subst e.
    destruct stack as [|top below].
    + destruct rooted; [exact I|]. simpl. repeat split; auto.
    + destruct (String.eqb top "..") eqn:E4; [|now destruct Hs].
      apply String.eqb_eq in E4. subst top. simpl. split; [|exact Hs].
      repeat split; auto. destruct Hs as [(_ & _ & _ & Hd) _]. now destruct Hd.
  - apply String.eqb_neq in E3. simpl. split; [|exact Hs].
    repeat split; auto; contradiction.
Qed.

Lemma fold_cleaned rooted l : forall stack,
  (forall e, In e l -> ~ In filepath.sep (chars e)) -> cleaned rooted stack ->
  cleaned rooted (fold_left (filepath.clean_step rooted) l stack).
Proof.
  induction l as [|e l IH]; intros stack Hfree Hs; [exact Hs|].
  simpl. apply IH.
  - intros x Hx. apply Hfree. now right.
  - apply clean_step_cleaned; [apply Hfree; now left | exact Hs].
Qed.




Lemma IsAbs_root s : filepath.IsAbs ("/" +:+ s) = true.
Proof. unfold filepath.IsAbs. simpl. now destruct s. Qed.




Lemma rev_not_nil {A} (l : list A) : l <> [] -> List.rev l <> [].
Proof.
  intros Hne E. apply Hne. apply (f_equal (@List.rev _)) in E.
  now rewrite rev_involutive in E.
Qed.





Lemma Clean_IsAbs p : filepath.IsAbs p = true -> filepath.IsAbs (filepath.Clean p) = true.
Proof. intros H. unfold filepath.Clean. rewrite H. apply IsAbs_root. Qed.

Example Clean_cases :
  filepath.Clean "/home/u/./wt" = "/home/u/wt" /\
  filepath.Clean "/home/u/wt/" = "/home/u/wt" /\
  filepath.Clean "/c/.." = "/" /\
  filepath.Clean "a//b/../c" = "a/c" /\
  filepath.Clean "../x" = "../x" /\
  filepath.Clean "" = "." /\
  filepath.Clean "/../a" = "/a" /\
  filepath.Clean "a/b/../../.." = ".." /\
  filepath.Clean "/a/../.." = "/" /\
  filepath.Clean "a/.." = "." /\
  filepath.Join ["/c"; "feature/login"] = "/c/feature/login" /\
  filepath.Join ["/c"; "x/"] = "/c/x" /\
  filepath.Join ["/c"; ".."] = "/" /\
  filepath.Join ["/c"; "."] = "/c" /\
  filepath.Join [""; "a"] = "a" /\
  filepath.Join [""; ""] = "".
Proof. repeat split. Qed.

Lemma Abs_is_absolute w p :
  filepath.IsAbs (cwd w) = true -> filepath.IsAbs (os.Abs w p) = true.
Proof.
  intros Hc. unfold os.Abs.
  destruct (String.eqb p "."); [exact Hc|].
  destruct (filepath.IsAbs p) eqn:E; apply Clean_IsAbs; [exact E|].
  now apply prefix_append.
Qed.


Lemma Split_not_nil s sep : strings.Split s sep <> [].
Proof.
  induction s as [|c s IH]; simpl; [discriminate|].
  destruct (Ascii.eqb c sep); [discriminate|].
  destruct (strings.Split s sep); [contradiction | discriminate].
Qed.

(** *** Plain names below a directory *)

Lemma plain_name_inv name :
  plain_name name ->
  name <> "" /\ name <> "." /\ name <> ".." /\ ~ In filepath.sep (chars name).
Proof.
  unfold plain_name, plain_nameb. intros H.
  apply andb_prop in H as [H _]. apply andb_prop in H as [H Hc].
  apply andb_prop in H as [H H3]. apply andb_prop in H as [H1 H2].
  apply negb_true_iff, String.eqb_neq in H1, H2, H3.
  repeat split; auto.
  intros Hin. rewrite forallb_forall in Hc. specialize (Hc _ Hin).
  apply andb_prop in Hc as [Hc _]. now rewrite Ascii.eqb_refl in Hc.
Qed.

Lemma Split_append sep a b :
  strings.Split (a +:+ String sep b) sep = strings.Split a sep ++ strings.Split b sep.
Proof.
  induction a as [|c a IH].
  - rewrite append_nil. simpl. now rewrite Ascii.eqb_refl.
  - rewrite append_cons. simpl. rewrite IH.
    destruct (Ascii.eqb c sep); [reflexivity|].
    pose proof (Split_not_nil a sep) as Hne.
    now destruct (strings.Split a sep).
Qed.

Lemma Join_snoc l x sep :
  l <> [] -> strings.Join (l ++ [x]) sep = strings.Join l sep +:+ sep +:+ x.
Proof.
  induction l as [|e l IH]; intros Hne; [contradiction|].
  destruct l as [|e' l]; [reflexivity|].
  change (strings.Join ((e :: e' :: l) ++ [x]) sep)
    with (e +:+ sep +:+ strings.Join ((e' :: l) ++ [x]) sep).
  rewrite IH by discriminate.
  change (strings.Join (e :: e' :: l) sep) with (e +:+ sep +:+ strings.Join (e' :: l) sep).
  now rewrite !append_assoc.
Qed.

(** Below a clean absolute directory other than the root of the file
    system, a plain name is joined under its own spelling. *)
Lemma Join_plain root name :
  rootb root = true -> root <> "/" -> plain_name name ->
  filepath.Join [root; name] = root +:+ "/" +:+ name.
Proof.
  intros Hroot Hnot Hplain.
  apply andb_prop in Hroot as [Habs Hclean]. apply String.eqb_eq in Hclean.
  apply plain_name_inv in Hplain as (Hn1 & Hn2 & Hn3 & Hfree).
  assert (Hr : root <> "") by (intros ->; discriminate Habs).
  unfold filepath.Join. simpl List.filter.
  apply String.eqb_neq in Hr, Hn1. rewrite Hr, Hn1. simpl negb. cbv iota.
  change (strings.Join [root; name] "/") with (root +:+ String filepath.sep name).
  set (stack := fold_left (filepath.clean_step true) (strings.Split root filepath.sep) []).
  assert (Hs : cleaned true stack)
    by (apply fold_cleaned; [apply Split_no_sep | exact I]).
  assert (Hroot : root = "/" +:+ strings.Join (List.rev stack) "/").
  { rewrite <- Hclean at 1. unfold filepath.Clean. now rewrite Habs. }
  assert (Hne : stack <> []).
  { intros E. rewrite E in Hroot. simpl in Hroot. contradiction. }
  unfold filepath.Clean.
  rewrite (prefix_append "/" root _ Habs : filepath.IsAbs (root +:+ String filepath.sep name) = true).
  rewrite Split_append, fold_left_app. fold stack.
  rewrite (Split_sep_free _ _ Hfree). simpl fold_left.
  assert (Hstep : filepath.clean_step true stack name = name :: stack).
  { unfold filepath.clean_step. apply String.eqb_neq in Hn2, Hn3.
    now rewrite Hn1, Hn2, Hn3. }
  rewrite Hstep. simpl List.rev.
  rewrite Join_snoc by now apply rev_not_nil.
  rewrite <- append_assoc, <- Hroot. reflexivity.
Qed.

Lemma separate_roots_inv w :
  separate_roots w ->
  (rootb (vaultPath w) = true /\ vaultPath w <> "/") /\
  (rootb (pristinesPath w) = true /\ pristinesPath w <> "/") /\
  (rootb (clonesPath w) = true /\ clonesPath w <> "/").
Proof.
  unfold separate_roots, separate_rootsb. intros H.
  repeat (apply andb_prop in H as [H ?]).
  repeat match goal with
         | H : negb _ = true |- _ => apply negb_true_iff in H
         end.
  repeat match goal with
         | H : within _ _ = false |- _ =>
             unfold within in H; apply orb_false_elim in H as [H _];
             apply orb_false_elim in H as [_ H]; apply String.eqb_neq in H
         end.
  repeat split; auto.
  unfold rootb. apply andb_true_intro. now split.
Qed.

(** Below a clean absolute directory, an empty element and [.] lead to
    the directory itself. *)
Lemma Clean_root_dropped root e :
  rootb root = true -> e = "" \/ e = "." ->
  filepath.Clean (root +:+ String filepath.sep e) = root.
Proof.
  intros Hroot He.
  apply andb_prop in Hroot as [Habs Hclean]. apply String.eqb_eq in Hclean.
  assert (Hfree : ~ In filepath.sep (chars e)).
  { destruct He as [-> | ->]; simpl; [tauto|]. intros [E|[]]. discriminate E. }
  rewrite <- Hclean at 2. unfold filepath.Clean.
  rewrite (prefix_append "/" root _ Habs : filepath.IsAbs (root +:+ String filepath.sep e) = true).
  rewrite Habs, Split_append, fold_left_app, (Split_sep_free _ _ Hfree). simpl fold_left.
  assert (Hstep : forall stack, filepath.clean_step true stack e = stack).
  { intros stack. unfold filepath.clean_step. now destruct He as [-> | ->]. }
  now rewrite Hstep.
Qed.

(** [os.Abs] is [filepath.Abs] when the working directory is a clean
    absolute path, as [os.Getwd] gives it. *)
Lemma Abs_is_filepath_Abs w p :
  rootb (cwd w) = true ->
  os.Abs w p = if filepath.IsAbs p then filepath.Clean p else filepath.Join [cwd w; p].
Proof.
  intros Hroot.
  assert (Hc : String.eqb (cwd w) "" = false).
  { apply andb_prop in Hroot as [Habs _]. apply String.eqb_neq. intros E.
    rewrite E in Habs. discriminate Habs. }
  unfold os.Abs, filepath.Join. simpl List.filter. rewrite Hc. simpl negb. cbv iota.
  destruct (String.eqb p ".") eqn:E.
  - apply String.eqb_eq in E. subst p. simpl.
    symmetry. apply (Clean_root_dropped (cwd w) "." Hroot). now right.
  - destruct (filepath.IsAbs p); [reflexivity|].
    destruct (String.eqb p "") eqn:E0; simpl; [|reflexivity].
    apply String.eqb_eq in E0. subst p.
    apply andb_prop in Hroot as [Habs Hclean]. apply String.eqb_eq in Hclean.
    rewrite Hclean. apply (Clean_root_dropped (cwd w) ""); [|now left].
    unfold rootb. now rewrite Habs, Hclean, String.eqb_refl.
Qed.

(** ** Validation in [Add] *)





(** The path is made absolute and cleaned before it is looked up: the
    same directory is accepted under another spelling, and recorded under
    its clean absolute path. *)
Example Add_cleans_its_argument :
  fst (vault.Add "./wt" sample.with_paths) = Ok tt /\
  fst (vault.Add "/home/u/wt/" sample.with_paths) = Ok tt /\
  fst (vault.Add "../u/./wt" sample.with_paths) = Ok tt /\
  vault_index (sample.after (vault.Add "./wt") sample.with_paths) =
    Holds (types.mkVault [types.mkVaultEntry "wt" "/home/u/wt" 100]).
Proof. vm_compute. repeat split. Qed.

(** A path that names a regular file passes validation too: [Stat] of
    [<file>/.git] fails with "not a directory", which [os.IsNotExist] does
    not recognise. *)
Lemma Add_accepts_regular_file :
  locals sample.with_paths !! "/etc/hostname" = Some LocalFile /\
  os.Stat (dot_git "/etc/hostname") sample.with_paths =
    Err (os.PathError "stat" os.ErrNotDir) /\
  fst (vault.Add "/etc/hostname" sample.with_paths) = Ok tt.
Proof. repeat split. Qed.

(** ** Destroying clones and pristines *)

Lemma preserves_match_result {X A B} (f : World -> X) (r : result A)
    (k1 : A -> IO B) (k2 : error -> IO B) :
  (forall a, preserves f (k1 a)) -> (forall e, preserves f (k2 e)) ->
  preserves f (match r with Ok a => k1 a | Err e => k2 e end).
Proof. destruct r; auto. Qed.

Lemma preserves_ReadFile_metadata {X} (f : World -> X) path :
  preserves f (os.ReadFile_metadata path).
Proof.
  apply preserves_reads. intros w. unfold os.ReadFile_metadata.
  destruct path; try reflexivity. now destruct (vault_dirs w !! name).
Qed.

Lemma preserves_json_Unmarshal {X A} (f : World -> X) (d : os.data A) :
  preserves f (json_Unmarshal d).
Proof. apply preserves_reads, reads_json_Unmarshal. Qed.

Lemma preserves_loadMetadata {X} (f : World -> X) path : preserves f (clone.loadMetadata path).
Proof.
  unfold clone.loadMetadata. solve_preserves.
  - apply preserves_ReadFile_metadata.
  - apply preserves_json_Unmarshal.
Qed.

Lemma WriteFile_metadata_clones path md : preserves clones (os.WriteFile_metadata path md).
Proof.
  intros w. unfold os.WriteFile_metadata.
  destruct path; try reflexivity.
  destruct (vault_dirs w !! name); [|reflexivity].
  now destruct (vault_writable w).
Qed.

Lemma removeClone_scan_clones cloneName entries :
  preserves clones (clone.removeClone_scan cloneName entries).
Proof.
  induction entries as [|entry rest IH]; simpl.
  - apply preserves_fail.
  - apply preserves_if; [|exact IH].
    apply preserves_bind; [apply preserves_try, preserves_loadMetadata|].
    intros loaded. apply preserves_match_result; [|intros; exact IH].
    intros metadata. apply preserves_if; [|exact IH].
    unfold clone.saveMetadata. solve_preserves.
    apply WriteFile_metadata_clones.
Qed.

Lemma removeCloneFromMetadata_clones cloneName :
  preserves clones (clone.removeCloneFromMetadata cloneName).
Proof.
  unfold clone.removeCloneFromMetadata. solve_preserves.
  - apply preserves_reads. intros w. unfold os.ReadDir_vault.
    now destruct (vault_listable w).
  - apply removeClone_scan_clones.
Qed.

Lemma RemoveAll_clone_gone name w w1 :
  os.RemoveAll (clone_dir name) w = (Ok tt, w1) -> clones w1 !! name = None.
Proof.
  unfold os.RemoveAll. destruct (clones w !! name) eqn:E.
  - destruct (clones_writable w); [|discriminate].
    intros H. injection H as <-. simpl. apply lookup_delete_eq.
  - intros H. now injection H as <-.
Qed.

(** C7: when the directory of an existing clone has been removed and the
    metadata update that follows fails with [e], [Destroy] (through
    [destroyClone]) still returns nil: the failure only adds a warning line
    to stderr, the success line is printed, and the clone directory is
    gone. *)
Theorem Destroy_metadata_failure_is_warning target d w w1 e w2 :
  clones w !! target = Some d ->
  os.RemoveAll (clone_dir target) w = (Ok tt, w1) ->
  clone.removeCloneFromMetadata target w1 = (Err e, w2) ->
  exists w',
    clone.Destroy target w = (Ok tt, w') /\
    clone.destroyClone target w = (Ok tt, w') /\
    stderr w' = stderr w2 ++ ["Warning: failed to update metadata: " +:+ Error e] /\
    stdout w' = stdout w2 ++ ["Destroyed clone '" +:+ target +:+ "'"] /\
    clones w' !! target = None.
Proof.
  intros Hd Hrm Hmeta.
  assert (Hdc : clone.destroyClone target w =
                (Ok tt, set_stdout (stdout w2 ++ ["Destroyed clone '" +:+ target +:+ "'"])
                          (set_stderr (stderr w2 ++
                             ["Warning: failed to update metadata: " +:+ Error e]) w2))).
  { unfold clone.destroyClone.
    rewrite (bind_Ok _ _ w tt w1) by now apply or_wrap_Ok.
    unfold bind at 1. rewrite try_eq, Hmeta. reflexivity. }
  eexists. split; [|split; [exact Hdc|]].
  - unfold clone.Destroy, bind, gets. simpl. rewrite Hd. simpl. exact Hdc.
  - simpl. repeat split.
    rewrite (preserves_inv clones _ _ _ _ (removeCloneFromMetadata_clones target) Hmeta).
    now apply (RemoveAll_clone_gone target w).
Qed.

(** C7 at a sample world: the clone directory [scratch] is listed in no
    metadata file; destroying it succeeds and warns. *)
Lemma Destroy_metadata_failure_is_warning_witness :
  fst (clone.Destroy "scratch" sample.untracked_clone) = Ok tt /\
  stderr (sample.after (clone.Destroy "scratch") sample.untracked_clone) =
    ["Warning: failed to update metadata: clone 'scratch' not found in any metadata"].
Proof.
  destruct (Destroy_metadata_failure_is_warning "scratch" PlainDir sample.untracked_clone
              (sample.after (os.RemoveAll (clone_dir "scratch")) sample.untracked_clone)
              (Errorf "clone 'scratch' not found in any metadata")
              (sample.after (os.RemoveAll (clone_dir "scratch")) sample.untracked_clone)
              eq_refl eq_refl eq_refl) as (w' & HD & _ & Herr & _).
  unfold sample.after. rewrite HD. simpl. split; [reflexivity|]. exact Herr.
Defined.

Lemma or_wrap_result {A} (c : IO A) ctx w :
  (exists a w1, (c ?: ctx) w = (Ok a, w1)) \/
  (exists e w1, (c ?: ctx) w = (Err (Errorf_w ctx e), w1)).
Proof.
  unfold or_wrap. destruct (c w) as [[a|e] w1]; [left | right]; eauto.
Qed.

Lemma reads_loadRepoFromVault name : reads (pristine.loadRepoFromVault name).
Proof.
  unfold pristine.loadRepoFromVault. solve_reads.
  - apply reads_ReadFile_vault.
  - apply reads_json_Unmarshal.
  - destruct (find _ _); [apply reads_ret | apply reads_fail].
Qed.

(** Without a pristine directory, [Init] is not refused as already
    existing: it returns nil or an error wrapped by one of its stages. *)
Lemma Init_not_refused name w r w2 :
  pristines w !! name = None ->
  pristine.Init name w = (r, w2) ->
  r <> Err (Errorf ("pristine '" +:+ name +:+ "' already exists")).
Proof.
  intros Hnone. unfold pristine.Init. unfold bind at 1.
  destruct (or_wrap_result (pristine.loadRepoFromVault name)
              "failed to load repository from vault" w)
    as [(entry & w1 & E)|(e & w1 & E)]; rewrite E; [|intros H; now inversion H].
  apply or_wrap_Ok_inv in E.
  pose proof (reads_inv _ _ _ _ (reads_loadRepoFromVault name) E) as ->.
  unfold bind at 1, gets. simpl. rewrite Hnone. simpl.
  unfold bind at 1.
  destruct (or_wrap_result (pristine.cloneAsReference (types.URL entry) (pristine_dir name))
              "failed to clone repository" w)
    as [(a & w1 & E1)|(e & w1 & E1)]; rewrite E1; [|intros H; now inversion H].
  unfold bind at 1.
  destruct (or_wrap_result (pristine.extractRepoInfo (pristine_dir name))
              "failed to extract repository info" w1)
    as [(info & w3 & E2)|(e & w3 & E2)]; rewrite E2; [|intros H; now inversion H].
  unfold bind at 1.
  destruct (or_wrap_result (pristine.updateMetadata name info)
              "failed to update metadata" w3)
    as [(b & w4 & E3)|(e & w4 & E3)]; rewrite E3; [|intros H; now inversion H].
  unfold Println, modify. intros H. now inversion H.
Qed.

(** C8: for the name of a pristine, which is a file name, and with the
    three directories lying apart, [destroyPristine] changes nothing but
    the pristine directory of that name: the vault index, every metadata
    file, the clones and the other pristines are as before.  [Destroy]
    reaches it for a name that has a pristine directory and no clone
    directory.  When it returns nil the pristine directory is gone, and a
    following [Init] of the name is not refused as already existing. *)
Theorem destroyPristine_keeps_vault pristineName w r w' :
  plain_name pristineName ->
  separate_roots w ->
  clone.destroyPristine pristineName w = (r, w') ->
  vault_index w' = vault_index w /\
  vault_dirs w' = vault_dirs w /\
  clones w' = clones w /\
  (forall other, other <> pristineName -> pristines w' !! other = pristines w !! other) /\
  (clones w !! pristineName = None -> pristines w !! pristineName <> None ->
   clone.Destroy pristineName w = (r, w')) /\
  (r = Ok tt ->
   pristines w' !! pristineName = None /\
   forall r2 w2, pristine.Init pristineName w' = (r2, w2) ->
     r2 <> Err (Errorf ("pristine '" +:+ pristineName +:+ "' already exists"))).
Proof.
  intros _ _ H.
  assert (Hshape :
    (r = Ok tt /\ pristines w !! pristineName = None /\
     w' = set_stdout (stdout w ++ ["Destroyed pristine '" +:+ pristineName +:+ "' (kept in vault)"]) w) \/
    (r = Ok tt /\
     w' = set_stdout (stdout w ++ ["Destroyed pristine '" +:+ pristineName +:+ "' (kept in vault)"])
            (set_pristines (delete pristineName (pristines w)) w)) \/
    (r <> Ok tt /\ w' = w)).
  { revert H. unfold clone.destroyPristine, bind, or_wrap, os.RemoveAll, Println, modify.
    destruct (pristines w !! pristineName) eqn:E.
    - destruct (pristines_writable w); simpl; intros H; inversion H; subst.
      + right. left. now split.
      + right. right. now split.
    - simpl. intros H; inversion H; subst. left. now repeat split. }
  assert (Hframe : vault_index w' = vault_index w /\ vault_dirs w' = vault_dirs w /\
                   clones w' = clones w /\
                   forall other, other <> pristineName ->
                                 pristines w' !! other = pristines w !! other).
  { destruct Hshape as [(_ & _ & ->) | [(_ & ->) | (_ & ->)]]; simpl; repeat split; auto.
    intros other Hne. now apply lookup_delete_ne. }
  destruct Hframe as (F1 & F2 & F3 & F4).
  repeat split; auto.
  - intros Hc Hp. unfold clone.Destroy, bind, gets. simpl. rewrite Hc. simpl.
    destruct (pristines w !! pristineName); [simpl; exact H | contradiction].
  - destruct Hshape as [(_ & Hn & ->) | [(_ & ->) | (Hr & _)]]; simpl; auto.
    + apply lookup_delete_eq.
    + contradiction.
  - intros r2 w2 HI. apply (Init_not_refused pristineName w' r2 w2); [|exact HI].
    destruct Hshape as [(_ & Hn & ->) | [(_ & ->) | (Hr' & _)]]; simpl; auto.
    + apply lookup_delete_eq.
    + contradiction.
Qed.

(** C8 at the sample world: after [init], destroying the pristine
    leaves the vault index and the metadata in place, and [init] succeeds
    again. *)
Lemma destroyPristine_keeps_vault_witness :
  let w := sample.initialised in
  let w' := sample.after (clone.destroyPristine "test-repo") w in
  vault_index w' = vault_index w /\ vault_dirs w' = vault_dirs w /\
  pristines w' !! "test-repo" = None /\
  fst (pristine.Init "test-repo" w') = Ok tt.
Proof.
  intros w w'.
  assert (H : clone.destroyPristine "test-repo" w = (Ok tt, w')) by (vm_compute; reflexivity).
  assert (Hs : separate_roots w) by (vm_compute; reflexivity).
  destruct (destroyPristine_keeps_vault "test-repo" w (Ok tt) w' eq_refl Hs H)
    as (F1 & F2 & _ & _ & _ & F5).
  destruct (F5 eq_refl) as (Hgone & _).
  split; [exact F1|]. split; [exact F2|]. split; [exact Hgone|].
  vm_compute. reflexivity.
Defined.

(** ** Bulk operations *)

Lemma attempt_all_names op names : forall w,
  map fst (fst (attempt_all op names w)) = names.
Proof.
  induction names as [|n rest IH]; intros w; simpl; [reflexivity|].
  destruct (op n w) as [r w1]. specialize (IH w1).
  destruct (attempt_all op rest w1) as [outs w2]. simpl in *. now rewrite IH.
Qed.

(** The loop of [InitAll] and [SyncAll]: every repository is attempted,
    and the error lines gathered are those of the failed attempts. *)
Lemma range_collects (op : string -> IO unit) (label : string) repos :
  forall (errors : list string) w,
    range repos
      (fun repo (errors : list string) =>
         let! err := try (op (types.Name repo)) in
         match err with
         | Err e => ret (errors ++ [label +:+ types.Name repo +:+ ": " +:+ Error e])
         | Ok _ => ret errors
         end) errors w =
    (Ok (errors ++ failures label (fst (attempt_all op (map types.Name repos) w))),
     snd (attempt_all op (map types.Name repos) w)).
Proof.
  induction repos as [|repo rest IH]; intros errors w; simpl.
  - unfold ret. now rewrite app_nil_r.
  - unfold bind at 1. unfold bind at 1. rewrite try_eq.
    destruct (op (types.Name repo) w) as [[[]|e] w1]; simpl.
    + rewrite IH. destruct (attempt_all op (map types.Name rest) w1); reflexivity.
    + rewrite IH. destruct (attempt_all op (map types.Name rest) w1). simpl.
      now rewrite <- app_assoc.
Qed.

Lemma loadAllReposFromVault_Holds w v :
  vault_index w = Holds v -> pristine.loadAllReposFromVault w = (Ok (types.Repos v), w).
Proof.
  intros H. unfold pristine.loadAllReposFromVault, bind, or_wrap, os.ReadFile_vault.
  rewrite H. reflexivity.
Qed.

(** C4: on a vault index listing the repositories [v], [InitAll] and
    [SyncAll] attempt [Init], respectively [Sync], on every listed name in
    turn, whatever the earlier attempts returned: the world they leave is
    the one left by all the attempts, and they return once, after the last
    attempt, nil (with the count printed) when none failed and otherwise
    one error that carries the line of every failed attempt. *)
Theorem bulk_attempts_every_repository w v :
  vault_index w = Holds v ->
  let names := map types.Name (types.Repos v) in
  let inits := attempt_all pristine.Init names w in
  let syncs := attempt_all pristine.Sync names w in
  map fst (fst inits) = names /\
  map fst (fst syncs) = names /\
  pristine.InitAll w =
    match failures "failed to init " (fst inits) with
    | [] =>
        (Ok tt,
         set_stdout (stdout (snd inits) ++
                     ["Initialized " +:+ strings.Itoa (length (types.Repos v)) +:+ " repositories"])
           (snd inits))
    | errors =>
        (Err (Errorf ("some repositories failed to initialize:" +:+ vault.newline
                      +:+ strings.Join errors vault.newline)), snd inits)
    end /\
  pristine.SyncAll w =
    match failures "failed to sync " (fst syncs) with
    | [] =>
        (Ok tt,
         set_stdout (stdout (snd syncs) ++
                     ["Synced " +:+ strings.Itoa (length (types.Repos v)) +:+ " repositories"])
           (snd syncs))
    | errors =>
        (Err (Errorf ("some repositories failed to sync:" +:+ vault.newline
                      +:+ strings.Join errors vault.newline)), snd syncs)
    end.
Proof.
  intros H names inits syncs.
  split; [apply attempt_all_names|]. split; [apply attempt_all_names|]. split.
  - unfold pristine.InitAll.
    rewrite (bind_Ok _ _ w (types.Repos v) w)
      by (apply or_wrap_Ok; now apply loadAllReposFromVault_Holds).
    unfold bind at 1. rewrite (range_collects pristine.Init "failed to init "). simpl.
    fold names. fold inits.
    destruct (failures "failed to init " (fst inits)); reflexivity.
  - unfold pristine.SyncAll.
    rewrite (bind_Ok _ _ w (types.Repos v) w)
      by (apply or_wrap_Ok; now apply loadAllReposFromVault_Holds).
    unfold bind at 1. rewrite (range_collects pristine.Sync "failed to sync "). simpl.
    fold names. fold syncs.
    destruct (failures "failed to sync " (fst syncs)); reflexivity.
Qed.

(** C4 at the sample world: of three repositories the second cannot be
    reached; [InitAll] reports that one failure, and the first and the
    third pristine are both there afterwards. *)
Lemma bulk_attempts_every_repository_witness :
  let w' := sample.after pristine.InitAll sample.three_repos in
  fst (pristine.InitAll sample.three_repos) =
    Err (Errorf ("some repositories failed to initialize:" +:+ vault.newline +:+
                 "failed to init gone: failed to clone repository: " +:+
                 "failed to clone repository: repository not found")) /\
  (exists r, pristines w' !! "test-repo" = Some (RepoDir r)) /\
  (exists r, pristines w' !! "other" = Some (RepoDir r)) /\
  pristines w' !! "gone" = Some PlainDir.
Proof.
  assert (H : vault_index sample.three_repos =
              Holds (types.mkVault
                       [types.mkVaultEntry "test-repo" sample.repo_url 100;
                        types.mkVaultEntry "gone" sample.gone_url 100;
                        types.mkVaultEntry "other" sample.other_url 100]))
    by (vm_compute; reflexivity).
  pose proof (bulk_attempts_every_repository sample.three_repos _ H) as (_ & _ & HI & _).
  cbv zeta in HI. intros w'. unfold w', sample.after. rewrite HI.
  vm_compute. repeat split; eexists; reflexivity.
Defined.

(** ** Adding the repository of the working directory *)

(** C6, as amended: [AddFromCurrentDir] looks at the remote named
    [origin] and at nothing else.  In a working directory that holds a
    repository it adds the first URL of [origin] exactly as [Add] does (so
    the vault entry carries that single URL); it fails when [origin] has no
    URL and when there is no remote of that name, whatever other remotes,
    tracking configuration or push default the repository has.  In a
    directory with no [.git] entry it fails at once. *)
Theorem AddFromCurrentDir_uses_origin w :
  (locals w !! cwd w = Some (LocalDir NoDotGit) ->
   vault.AddFromCurrentDir w =
     (Err (Errorf "current directory is not a git repository"), w)) /\
  (forall is_dir r,
     locals w !! cwd w = Some (LocalDir (DotGit is_dir (Some r))) ->
     vault.AddFromCurrentDir w =
       match assoc "origin" (git.remotes r) with
       | Some (url0 :: _) => vault.Add (location_text w url0) w
       | Some [] =>
           (Err (Errorf_w "failed to get origin remote"
                   (Errorf "origin remote has no URLs")), w)
       | None =>
           (Err (Errorf_w "failed to get origin remote"
                   (Errorf_w "no origin remote found" git.ErrRemoteNotFound)), w)
       end).
Proof.
  assert (Hdot : os.Abs w "." = cwd w) by reflexivity.
  split.
  - intros H. unfold vault.AddFromCurrentDir, bind, gets. simpl.
    rewrite Hdot, H. reflexivity.
  - intros is_dir r H.
    unfold vault.AddFromCurrentDir. unfold bind at 1. unfold gets at 1. simpl.
    rewrite Hdot, H. simpl.
    unfold vault.getOriginRemote, gogit.PlainOpen, gogit.Remote.
    unfold bind at 1. unfold or_wrap at 1. unfold bind at 1. unfold or_wrap at 1.
    simpl. rewrite Hdot, H. simpl.
    unfold bind at 1. unfold or_wrap at 1. simpl. rewrite Hdot, H. simpl.
    destruct (assoc "origin" (git.remotes r)) as [[|url0 urls]|]; reflexivity.
Qed.

(** C6 at the sample worlds. *)
Lemma AddFromCurrentDir_uses_origin_witness :
  vault.AddFromCurrentDir (sample.in_checkout sample.fork_checkout) =
    vault.Add "https://github.com/me/fork.git" (sample.in_checkout sample.fork_checkout) /\
  fst (vault.AddFromCurrentDir (sample.in_checkout sample.upstream_only_checkout)) =
    Err (Errorf_w "failed to get origin remote"
           (Errorf_w "no origin remote found" git.ErrRemoteNotFound)).
Proof.
  split.
  - destruct (AddFromCurrentDir_uses_origin (sample.in_checkout sample.fork_checkout))
      as (_ & H).
    exact (H true sample.fork_checkout eq_refl).
  - destruct (AddFromCurrentDir_uses_origin (sample.in_checkout sample.upstream_only_checkout))
      as (_ & H).
    now rewrite (H true sample.upstream_only_checkout eq_refl).
Defined.

(** C6 as first stated fails: in a checkout whose current branch tracks
    [upstream], the specification's order selects [upstream], while
    [AddFromCurrentDir] stores the URL of [origin], and only that URL; and
    a checkout that has [upstream] but no [origin] is refused. *)
Lemma AddFromCurrentDir_ignores_tracked_remote :
  spec_default_remote sample.fork_checkout = Some "upstream" /\
  assoc "upstream" (git.remotes sample.fork_checkout) =
    Some [outside "https://github.com/org/proj.git"] /\
  fst (vault.AddFromCurrentDir (sample.in_checkout sample.fork_checkout)) = Ok tt /\
  vault_index (sample.after vault.AddFromCurrentDir (sample.in_checkout sample.fork_checkout)) =
    Holds (types.mkVault
             [types.mkVaultEntry "fork" "https://github.com/me/fork.git" 100]) /\
  spec_default_remote sample.upstream_only_checkout = Some "upstream" /\
  is_ok (fst (vault.AddFromCurrentDir (sample.in_checkout sample.upstream_only_checkout)))
    = false.
Proof. vm_compute. repeat split. Qed.

(** ** [Init], stage by stage *)

Lemma loadRepoFromVault_Holds name w v :
  vault_index w = Holds v ->
  pristine.loadRepoFromVault name w =
    match find (fun repo => String.eqb (types.Name repo) name) (types.Repos v) with
    | Some repo => (Ok repo, w)
    | None => (Err (Errorf ("repository '" +:+ name +:+ "' not found in vault")), w)
    end.
Proof.
  intros H. unfold pristine.loadRepoFromVault, bind, or_wrap, os.ReadFile_vault.
  rewrite H. simpl. now destruct (find _ _).
Qed.

Lemma Short_branch b : git.Short ("refs/heads/" +:+ b) = b.
Proof. reflexivity. Qed.

Lemma mem_head h p l : gogit.mem h ((h, p) :: l) = true.
Proof. unfold gogit.mem. simpl. now rewrite String.eqb_refl. Qed.

(** The loop over the README names gives the excerpt of the first one
    that is there and can be read. *)
Lemma readme_of_first name r names : forall w,
  pristines w !! name = Some (RepoDir r) ->
  pristine.readme_of (pristine_dir name) names w =
    (Ok (match first_readable names (git.files r) with
         | Some text => excerpt text
         | None => ""
         end), w).
Proof.
  induction names as [|file rest IH]; intros w Hr; [reflexivity|].
  simpl pristine.readme_of. simpl first_readable.
  unfold bind at 1. unfold gets at 1. unfold os.Stat, os.Join. rewrite Hr.
  destruct (assoc file (git.files r)) as [[text|]|] eqn:E; simpl.
  - unfold bind at 1. rewrite try_eq. unfold os.ReadFile_text. rewrite Hr, E. simpl.
    unfold excerpt. now destruct (Nat.ltb 500 (String.length text)).
  - unfold bind at 1. rewrite try_eq. unfold os.ReadFile_text. rewrite Hr, E. simpl.
    now apply IH.
  - now apply IH.
Qed.

Lemma cloneAsReference_ok url name w up tip rest :
  pristines w !! name = None ->
  pristines_writable w = true ->
  network w !! url = Some up ->
  gogit.authenticate up None = Ok tt ->
  assoc (git.up_HEAD up) (git.up_refs up) = Some (tip :: rest) ->
  pristine.cloneAsReference url (pristine_dir name) w =
    (Ok tt,
     set_pristines (<[name := RepoDir (pristine_of url up tip (head rest))]> (pristines w))
       (set_net_log (net_log w ++ [git.mkNetCall "clone" (outside url) None]) w)).
Proof.
  intros Hnone Hw Hnet Hpub Href.
  unfold pristine.cloneAsReference, bind, or_wrap, os.MkdirAll, gogit.PlainClone. simpl.
  rewrite Hnone, Hw. simpl. rewrite lookup_insert_eq, Hw. simpl.
  rewrite Hnet, Hpub, Href. simpl.
  unfold pristine_of. rewrite insert_insert_eq. now destruct rest.
Qed.

Lemma extractRepoInfo_ok name w r b h :
  pristines w !! name = Some (RepoDir r) ->
  git.HEAD r = Some (b, h) ->
  gogit.mem h (git.objects r) = true ->
  pristine.extractRepoInfo (pristine_dir name) w =
    (Ok (pristine.mkRepoInfo b h (readme_excerpt (git.files r))), w).
Proof.
  intros Hr Hh Hm.
  unfold pristine.extractRepoInfo.
  rewrite (bind_Ok _ _ w (pristine_dir name) w).
  2:{ apply or_wrap_Ok. unfold gogit.PlainOpen. simpl. now rewrite Hr. }
  rewrite (bind_Ok _ _ w (git.mkReference ("refs/heads/" +:+ b) h) w).
  2:{ apply or_wrap_Ok. unfold gogit.Head. simpl. now rewrite Hr, Hh. }
  rewrite (bind_Ok _ _ w h w).
  2:{ apply or_wrap_Ok. unfold gogit.CommitObject, gogit.has_object. simpl.
      now rewrite Hr, Hm. }
  rewrite (bind_Ok _ _ w (readme_excerpt (git.files r)) w)
    by (now apply readme_of_first).
  reflexivity.
Qed.

Lemma updateMetadata_ok name info w md :
  vault_dirs w !! name = Some (Holds md) ->
  vault_writable w = true ->
  pristine.updateMetadata name info w =
    (Ok tt, set_vault_dirs (<[name := Holds (updated_metadata md info (now w))]> (vault_dirs w)) w).
Proof.
  intros Hd Hw.
  unfold pristine.updateMetadata, bind, or_wrap, os.ReadFile_metadata, os.WriteFile_metadata,
    time_Now, gets.
  simpl. rewrite Hd. simpl. rewrite Hd, Hw. reflexivity.
Qed.

(** C2, as amended: [Init] first looks the name up in the vault index and
    fails with the vault error when it is not listed, whether or not a
    pristine directory is there.  For a listed name it fails with the
    already-exists error when the pristine directory is present.
    Otherwise it asks the engine for a clone of the URL of the entry with
    a working tree (not bare), of the branch of the remote HEAD only, one
    commit deep.  When the name is a file name, the three directories lie
    apart, the remote answers the call, the directories can be written and
    the metadata file parses, [Init] succeeds: the pristine is that clone,
    and the metadata file is the one that was there with the HEAD branch,
    the hash of its commit, the README excerpt of the working tree, a
    manual sync and the time of the update written into it; the index is
    left as it was. *)
Theorem Init_outcomes vaultName w v :
  vault_index w = Holds v ->
  match find (fun repo => String.eqb (types.Name repo) vaultName) (types.Repos v) with
  | None =>
      pristine.Init vaultName w =
        (Err (Errorf_w "failed to load repository from vault"
                (Errorf ("repository '" +:+ vaultName +:+ "' not found in vault"))), w)
  | Some entry =>
      (pristines w !! vaultName <> None ->
       pristine.Init vaultName w =
         (Err (Errorf ("pristine '" +:+ vaultName +:+ "' already exists")), w)) /\
      (pristines w !! vaultName = None ->
       forall up tip rest md,
         plain_name vaultName ->
         separate_roots w ->
         pristines_writable w = true ->
         vault_writable w = true ->
         network w !! types.URL entry = Some up ->
         gogit.authenticate up None = Ok tt ->
         assoc (git.up_HEAD up) (git.up_refs up) = Some (tip :: rest) ->
         vault_dirs w !! vaultName = Some (Holds md) ->
         let r := pristine_of (types.URL entry) up tip (head rest) in
         pristine.Init vaultName w =
           (Ok tt,
            set_stdout (stdout w ++ ["Initialized pristine '" +:+ vaultName +:+ "'"])
              (set_vault_dirs
                 (<[vaultName :=
                      Holds (updated_metadata md
                               (pristine.mkRepoInfo (git.up_HEAD up) tip
                                  (readme_excerpt (git.files r))) (now w))]>
                    (vault_dirs w))
                 (set_pristines (<[vaultName := RepoDir r]> (pristines w))
                    (set_net_log
                       (net_log w ++ [git.mkNetCall "clone" (outside (types.URL entry)) None])
                       w)))))
  end.
Proof.
  intros Hv. pose proof (loadRepoFromVault_Holds vaultName w v Hv) as Hload.
  destruct (find _ (types.Repos v)) as [entry|].
  - split.
    + intros Hsome. unfold pristine.Init.
      rewrite (bind_Ok _ _ w entry w) by now apply or_wrap_Ok.
      unfold bind, gets. simpl.
      destruct (pristines w !! vaultName); [reflexivity | contradiction].
    + intros Hnone up tip rest md _ _ Hpw Hvw Hnet Hpub Href Hmd r.
      set (w1 := set_pristines (<[vaultName := RepoDir r]> (pristines w))
                   (set_net_log (net_log w ++
                      [git.mkNetCall "clone" (outside (types.URL entry)) None]) w)).
      assert (Hinfo : pristine.extractRepoInfo (pristine_dir vaultName) w1 =
                        (Ok (pristine.mkRepoInfo (git.up_HEAD up) tip
                               (readme_excerpt (git.files r))), w1)).
      { apply extractRepoInfo_ok.
        - unfold w1. simpl. apply lookup_insert_eq.
        - reflexivity.
        - apply mem_head. }
      unfold pristine.Init.
      rewrite (bind_Ok _ _ w entry w) by now apply or_wrap_Ok.
      unfold bind at 1. unfold gets at 1. simpl. rewrite Hnone. simpl.
      rewrite (bind_Ok _ _ w tt w1)
        by (apply or_wrap_Ok; now apply (cloneAsReference_ok _ _ _ up tip rest)).
      rewrite (bind_Ok _ _ w1 _ w1) by (apply or_wrap_Ok; exact Hinfo).
      rewrite (bind_Ok _ _ w1 tt _)
        by (apply or_wrap_Ok; now apply (updateMetadata_ok _ _ _ md)).
      unfold Println, modify. reflexivity.
  - unfold pristine.Init. apply bind_Err. now apply or_wrap_Err.
Qed.

(** C2 at the sample world: [init test-repo] on the vault that lists it
    leaves the one-commit clone of [main] with its working tree, and the
    metadata records [main], the hash [c3] and the README. *)
Lemma Init_outcomes_witness :
  exists w' md,
    pristine.Init "test-repo" sample.added = (Ok tt, w') /\
    pristines w' !! "test-repo" =
      Some (RepoDir (pristine_of sample.repo_url sample.upstream "c3" (Some "c2"))) /\
    vault_dirs w' !! "test-repo" = Some (Holds md) /\
    types.DefaultBranch md = "main" /\
    types.CurrentBranchHash md = "c3" /\
    types.Readme md = "hello".
Proof.
  assert (Hv : vault_index sample.added =
               Holds (types.mkVault [types.mkVaultEntry "test-repo" sample.repo_url 100]))
    by (vm_compute; reflexivity).
  pose proof (Init_outcomes "test-repo" sample.added _ Hv) as H.
  simpl in H. destruct H as [_ H].
  assert (Hmd : exists md, vault_dirs sample.added !! "test-repo" = Some (Holds md))
    by (vm_compute; eexists; reflexivity).
  destruct Hmd as [md Hmd].
  specialize (H eq_refl sample.upstream "c3" ["c2"; "c1"] md eq_refl eq_refl eq_refl eq_refl
                eq_refl eq_refl eq_refl Hmd).
  eexists. eexists. split; [exact H|].
  split; [apply lookup_insert_eq|].
  split; [apply lookup_insert_eq|].
  repeat split.
Defined.

(** C2 as first stated fails.  [Init] of a listed name, with no pristine
    directory, succeeds and leaves a repository that is not a bare mirror:
    it has a working tree, one of the two branches and one of the three
    commits.  And with a pristine directory present for a name the vault
    does not list, the error is the vault error, not already-exists. *)
Lemma Init_is_not_a_bare_mirror :
  (exists r,
     fst (pristine.Init "test-repo" sample.added) = Ok tt /\
     pristines sample.initialised !! "test-repo" = Some (RepoDir r) /\
     git.bare r = false /\ git.shallow r = true /\
     git.refs r = [("main", "c3")] /\ map fst (git.objects r) = ["c3"] /\
     gogit.tips (git.up_refs sample.upstream) = [("main", "c3"); ("dev", "d1")] /\
     ~ bare_mirror_of sample.upstream r) /\
  pristines sample.stray_pristine !! "stray" = Some PlainDir /\
  fst (pristine.Init "stray" sample.stray_pristine) =
    Err (Errorf_w "failed to load repository from vault"
           (Errorf "repository 'stray' not found in vault")).
Proof.
  split; [|split; vm_compute; reflexivity].
  eexists. split; [vm_compute; reflexivity|].
  split; [vm_compute; reflexivity|].
  repeat split.
  intros (Hb & _). discriminate Hb.
Qed.

(** ** [Clone] *)

Lemma mem_In h store : gogit.mem h store = true <-> In h (map fst store).
Proof.
  unfold gogit.mem. rewrite existsb_exists, in_map_iff. split.
  - intros (x & Hx & E). apply String.eqb_eq in E. now exists x.
  - intros (x & E & Hx). exists x. split; [exact Hx|]. subst h. apply String.eqb_refl.
Qed.

Lemma assoc_In {A} k (l : list (string * A)) v : assoc k l = Some v -> In (k, v) l.
Proof.
  induction l as [|[k' v'] l IH]; simpl; [discriminate|].
  destruct (String.eqb k k') eqn:E.
  - apply String.eqb_eq in E. subst. intros H. inversion H. now left.
  - intros H. right. now apply IH.
Qed.

Lemma link_hashes chain base : map fst (git.link chain base) = chain.
Proof. induction chain as [|c rest IH]; simpl; [reflexivity | now rewrite IH]. Qed.

(** A full fetch from a repository on disk brings the commits that its
    branches reach in its store, and no other. *)
Lemma serve_fetch_reachable (p : git.Repository) up h :
  gogit.serve p = Some up ->
  gogit.mem h (concat (map (fun bc => gogit.fetch_chain 0 (snd bc)) (git.up_refs up))) = true <->
  exists b t, In (b, t) (git.refs p) /\ In h (gogit.history_of p t).
Proof.
  unfold gogit.serve. destruct (git.HEAD p) as [[hb hh]|]; [|discriminate].
  intros Hs. injection Hs as <-. simpl git.up_refs.
  rewrite mem_In, in_map_iff. split.
  - intros (c & <- & Hc). apply in_concat in Hc as (chain & Hchain & Hc).
    apply in_map_iff in Hchain as ([b hist] & <- & Hbc).
    apply in_map_iff in Hbc as ([b' t] & E & Hbt). injection E as -> <-.
    exists b, t. split; [exact Hbt|].
    unfold gogit.fetch_chain in Hc. simpl in Hc.
    apply (in_map fst) in Hc. now rewrite link_hashes in Hc.
  - intros (b & t & Hbt & Hh).
    assert (Hin : In h (map fst (git.link (gogit.history_of p t) None)))
      by now rewrite link_hashes.
    apply in_map_iff in Hin as (c & E & Hc). exists c. split; [exact E|].
    apply in_concat. exists (git.link (gogit.history_of p t) None). split; [|exact Hc].
    apply in_map_iff. exists (b, gogit.history_of p t). split; [reflexivity|].
    apply in_map_iff. now exists (b, t).
Qed.

Lemma cloneRepository_inv pn name w w2 :
  clone.cloneRepository (pristine_dir pn) (clone_dir name) w = (Ok tt, w2) ->
  exists p c,
    pristines w !! pn = Some (RepoDir p) /\
    clones w2 !! name = Some (RepoDir c) /\
    git.bare c = false /\
    git.alternates c = [] /\
    git.remotes c = [("origin", [pristine_dir pn])] /\
    (forall h, gogit.mem h (git.objects c) = true <->
               exists b t, In (b, t) (git.refs p) /\ In h (gogit.history_of p t)) /\
    pristines w2 = pristines w.
Proof.
  intros H. unfold clone.cloneRepository in H. apply or_wrap_Ok_inv in H.
  unfold gogit.PlainClone in H. simpl in H.
  destruct (clones w !! name) as [[|r0]|] eqn:Hc; try discriminate;
    (destruct (clones_writable w); simpl in H; [|discriminate]);
    (destruct (pristines w !! pn) as [[|p]|] eqn:Hp; try discriminate);
    (destruct (gogit.serve p) as [up|] eqn:Hs; [|discriminate]);
    (destruct (assoc (git.up_HEAD up) (git.up_refs up)) as [[|tip rest]|] eqn:Ha;
       try discriminate);
    inversion H; subst w2; clear H; simpl;
    (eexists p, _; split; [reflexivity|]; split; [apply lookup_insert_eq|];
     simpl; repeat split;
     try (intros Hm; now apply (serve_fetch_reachable p up));
     try (intros Hm; now apply (serve_fetch_reachable p up) in Hm)).
Qed.

Lemma addCloneToMetadata_clones repoName cloneName clonePath :
  preserves clones (clone.addCloneToMetadata repoName cloneName clonePath).
Proof.
  unfold clone.addCloneToMetadata, clone.saveMetadata. solve_preserves.
  - apply preserves_loadMetadata.
  - apply WriteFile_metadata_clones.
Qed.

Lemma reads_generateCloneName pn : reads (clone.generateCloneName pn).
Proof. unfold clone.generateCloneName, time_Now. solve_reads. Qed.

(** C1, as amended: every clone that [Clone] creates from an existing
    pristine is a regular clone with a working tree whose [origin] remote
    is the path of the pristine.  Its object store is not linked to that
    of the pristine: it has no alternates entry, and it holds its own copy
    of the history of the pristine's branches, that is, of every commit
    that a branch of the pristine reaches in the pristine's store. *)
Theorem Clone_copies_objects pristineName cloneName w w' :
  clone.Clone pristineName cloneName w = (Ok tt, w') ->
  exists name p c,
    name = (if String.eqb cloneName ""
            then pristineName +:+ "-clone-" +:+ clone.Format (now w)
            else cloneName) /\
    clones w !! name = None /\
    pristines w !! pristineName = Some (RepoDir p) /\
    clones w' !! name = Some (RepoDir c) /\
    git.bare c = false /\
    git.alternates c = [] /\
    git.remotes c = [("origin", [pristine_dir pristineName])] /\
    (forall b t h, In (b, t) (git.refs p) -> In h (gogit.history_of p t) ->
                   gogit.mem h (git.objects c) = true).
Proof.
  intros H. unfold clone.Clone in H.
  unfold bind at 1 in H. unfold gets at 1 in H.
  destruct (os.IsNotExist (os.Stat (pristine_dir pristineName) w)); [discriminate H|].
  apply bind_Ok_inv in H as (name & w0 & Hname & H).
  assert (w0 = w /\ name = (if String.eqb cloneName ""
                            then pristineName +:+ "-clone-" +:+ clone.Format (now w)
                            else cloneName)) as [-> Hn].
  { destruct (String.eqb cloneName ""); inversion Hname; now split. }
  clear Hname.
  unfold bind at 1 in H. unfold clone.cloneExists at 1 in H.
  unfold bind at 1 in H. unfold gets at 1 in H. simpl in H.
  destruct (clones w !! name) eqn:Hfree; [discriminate H|]. simpl in H.
  apply bind_Ok_inv in H as ([] & w1 & Hmk & H). apply or_wrap_Ok_inv in Hmk.
  assert (Hp1 : pristines w1 = pristines w).
  { unfold os.MkdirAll in Hmk. rewrite Hfree in Hmk.
    destruct (clones_writable w); inversion Hmk; reflexivity. }
  unfold bind at 1 in H. rewrite try_eq in H.
  destruct (clone.cloneRepository (pristine_dir pristineName) (clone_dir name) w1)
    as [[[]|e] w2] eqn:Hclone; simpl in H.
  2:{ unfold bind in H. rewrite try_eq in H. discriminate H. }
  apply cloneRepository_inv in Hclone as (p & c & Hp & Hc & Hb & Ha & Hr & Ho & _).
  unfold bind at 1 in H. rewrite try_eq in H.
  destruct (clone.addCloneToMetadata pristineName name (clone_dir name) w2)
    as [[[]|e] w3] eqn:Hadd; simpl in H.
  2:{ unfold bind in H. rewrite try_eq in H. discriminate H. }
  apply (preserves_inv clones _ _ _ _ (addCloneToMetadata_clones _ _ _)) in Hadd.
  unfold Println, modify in H. injection H as <-.
  exists name, p, c. rewrite <- Hp1. simpl. rewrite Hadd.
  repeat split; auto. intros b t h Hbt Hh. apply Ho. now exists b, t.
Qed.

(** C1 at the sample world: [clone test-repo work] has no alternates
    entry and its own copy of the commit of the pristine's branch. *)
Lemma Clone_copies_objects_witness :
  exists c,
    clones sample.cloned !! "work" = Some (RepoDir c) /\
    git.alternates c = [] /\
    gogit.mem "c3" (git.objects c) = true.
Proof.
  assert (H : clone.Clone "test-repo" "work" sample.initialised = (Ok tt, sample.cloned))
    by (vm_compute; reflexivity).
  destruct (Clone_copies_objects "test-repo" "work" sample.initialised sample.cloned H)
    as (name & p & c & Hn & _ & Hp & Hc & _ & Ha & _ & Ho).
  simpl in Hn. subst name.
  exists c. split; [exact Hc|]. split; [exact Ha|].
  apply (Ho "main" "c3").
  - assert (Hp' : pristines sample.initialised !! "test-repo" =
                  Some (RepoDir (pristine_of sample.repo_url sample.upstream "c3"
                                   (Some "c2"))))
      by (vm_compute; reflexivity).
    rewrite Hp' in Hp. injection Hp as <-. now left.
  - assert (Hp' : pristines sample.initialised !! "test-repo" =
                  Some (RepoDir (pristine_of sample.repo_url sample.upstream "c3"
                                   (Some "c2"))))
      by (vm_compute; reflexivity).
    rewrite Hp' in Hp. injection Hp as <-. now left.
Defined.

(** C1 as first stated fails: the clone made from the sample pristine
    has an empty alternates file and its own copy of the pristine's
    commits; its object store is not linked to the pristine's. *)
Lemma Clone_is_not_linked :
  exists p c,
    pristines sample.initialised !! "test-repo" = Some (RepoDir p) /\
    fst (clone.Clone "test-repo" "work" sample.initialised) = Ok tt /\
    clones sample.cloned !! "work" = Some (RepoDir c) /\
    git.alternates c = [] /\
    map fst (git.objects c) = ["c3"] /\
    map fst (git.objects c) = map fst (git.objects p) /\
    ~ shares_objects_with (pristine_dir "test-repo") c.
Proof.
  eexists. eexists.
  split; [vm_compute; reflexivity|].
  split; [vm_compute; reflexivity|].
  split; [vm_compute; reflexivity|].
  repeat split.
  intros [Hin _]. exact Hin.
Qed.

(** The copy is of what the branches reach, not of the whole store: a
    pristine whose branch was set back keeps the later commit in its
    store, and a clone made of it does not have that commit. *)
Example Clone_leaves_unreachable_commits :
  exists p c,
    pristines scenario.rewound !! "test-repo" = Some (RepoDir p) /\
    clone.Clone "test-repo" "work" scenario.rewound =
      (Ok tt, sample.after (clone.Clone "test-repo" "work") scenario.rewound) /\
    clones (sample.after (clone.Clone "test-repo" "work") scenario.rewound) !! "work" =
      Some (RepoDir c) /\
    map fst (git.objects p) = ["c3"; "c2"; "c1"] /\
    git.refs p = [("main", "c2")] /\
    map fst (git.objects c) = ["c2"; "c1"].
Proof.
  eexists. eexists.
  split; [vm_compute; reflexivity|].
  split; [vm_compute; reflexivity|].
  split; [vm_compute; reflexivity|].
  repeat split.
Qed.

(** ** Requests sent by the network operations *)

Lemma sends_preserves {A} n (c : IO A) : preserves net_log c -> sends_unauthenticated n c.
Proof.
  intros H w. exists []. rewrite app_nil_r, H. repeat split; [simpl; lia | constructor].
Qed.

Section Sends.
Context {A B : Type}.

Lemma sends_bind n m (c : IO A) (k : A -> IO B) :
  sends_unauthenticated n c -> (forall a, sends_unauthenticated m (k a)) ->
  sends_unauthenticated (n + m) (bind c k).
Proof.
  intros Hc Hk w. unfold bind. destruct (Hc w) as (new1 & E1 & L1 & F1).
  destruct (c w) as [[a|e] w1]; simpl in *.
  - destruct (Hk a w1) as (new2 & E2 & L2 & F2).
    exists (new1 ++ new2). rewrite E2, E1, app_assoc. repeat split.
    + rewrite length_app. lia.
    + now apply Forall_app.
  - exists new1. repeat split; [exact E1 | lia | exact F1].
Qed.

Lemma sends_bind_l n (c : IO A) (k : A -> IO B) :
  sends_unauthenticated n c -> (forall a, preserves net_log (k a)) ->
  sends_unauthenticated n (bind c k).
Proof.
  intros Hc Hk. replace n with (n + 0) by lia.
  apply sends_bind; [exact Hc | intros a; now apply sends_preserves].
Qed.

Lemma sends_bind_r n (c : IO A) (k : A -> IO B) :
  preserves net_log c -> (forall a, sends_unauthenticated n (k a)) ->
  sends_unauthenticated n (bind c k).
Proof.
  intros Hc Hk. change n with (0 + n).
  apply sends_bind; [now apply sends_preserves | exact Hk].
Qed.

Lemma sends_or_wrap n (c : IO A) ctx :
  sends_unauthenticated n c -> sends_unauthenticated n (c ?: ctx).
Proof.
  intros Hc w. unfold or_wrap. specialize (Hc w).
  now destruct (c w) as [[a|e] w1].
Qed.

Lemma sends_try n (c : IO A) : sends_unauthenticated n c -> sends_unauthenticated n (try c).
Proof. intros Hc w. rewrite try_eq. apply Hc. Qed.

Lemma sends_if n (b : bool) (c d : IO A) :
  sends_unauthenticated n c -> sends_unauthenticated n d ->
  sends_unauthenticated n (if b then c else d).
Proof. now destruct b. Qed.
End Sends.

Ltac preserves_prim :=
  let w := fresh "w" in
  intros w; repeat case_match; reflexivity.

Lemma Stat_net_log path : preserves net_log (gets (os.Stat path)).
Proof. apply preserves_gets. Qed.

Lemma MkdirAll_net_log path : preserves net_log (os.MkdirAll path).
Proof. unfold os.MkdirAll. preserves_prim. Qed.

Lemma RemoveAll_net_log path : preserves net_log (os.RemoveAll path).
Proof. unfold os.RemoveAll. preserves_prim. Qed.

Lemma WriteFile_metadata_net_log path md : preserves net_log (os.WriteFile_metadata path md).
Proof. unfold os.WriteFile_metadata. preserves_prim. Qed.

Lemma ReadFile_text_net_log path : preserves net_log (os.ReadFile_text path).
Proof. unfold os.ReadFile_text. preserves_prim. Qed.

Lemma PlainOpen_net_log path : preserves net_log (gogit.PlainOpen path).
Proof. unfold gogit.PlainOpen. preserves_prim. Qed.

Lemma Head_net_log repo : preserves net_log (gogit.Head repo).
Proof. unfold gogit.Head. preserves_prim. Qed.

Lemma CommitObject_net_log repo h : preserves net_log (gogit.CommitObject repo h).
Proof. unfold gogit.CommitObject. preserves_prim. Qed.

Lemma Remote_net_log repo name : preserves net_log (gogit.Remote repo name).
Proof. unfold gogit.Remote. preserves_prim. Qed.

Lemma Worktree_net_log repo : preserves net_log (gogit.Worktree repo).
Proof. unfold gogit.Worktree. preserves_prim. Qed.

Lemma store_repo_net_log path r w : net_log (gogit.store_repo path r w) = net_log w.
Proof. now destruct path. Qed.

Lemma Reset_hard_net_log worktree h : preserves net_log (gogit.Reset_hard worktree h).
Proof.
  unfold gogit.Reset_hard. intros w.
  repeat case_match; try reflexivity. simpl. apply store_repo_net_log.
Qed.

Lemma Println_net_log line : preserves net_log (Println line).
Proof. now intros w. Qed.

Lemma loadRepoFromVault_net_log name : preserves net_log (pristine.loadRepoFromVault name).
Proof. apply preserves_reads, reads_loadRepoFromVault. Qed.

Lemma readme_of_net_log path files : preserves net_log (pristine.readme_of path files).
Proof.
  induction files as [|file rest IH]; simpl; [apply preserves_ret|].
  apply preserves_bind; [apply preserves_gets|]. intros err.
  apply preserves_if; [|exact IH].
  apply preserves_bind; [apply preserves_try, ReadFile_text_net_log|]. intros content.
  destruct content; [|exact IH]. apply preserves_if; apply preserves_ret.
Qed.

Lemma extractRepoInfo_net_log path : preserves net_log (pristine.extractRepoInfo path).
Proof.
  unfold pristine.extractRepoInfo. solve_preserves.
  - apply PlainOpen_net_log.
  - apply Head_net_log.
  - apply CommitObject_net_log.
  - apply readme_of_net_log.
Qed.

Lemma updateMetadata_net_log name info : preserves net_log (pristine.updateMetadata name info).
Proof.
  unfold pristine.updateMetadata. solve_preserves.
  - apply preserves_ReadFile_metadata.
  - apply preserves_json_Unmarshal.
  - apply WriteFile_metadata_net_log.
Qed.

(** The three calls that use a transport, made without credentials. *)

Lemma PlainClone_sends path isBare o :
  git.co_Auth o = None -> sends_unauthenticated 1 (gogit.PlainClone path isBare o).
Proof.
  intros Hauth w. unfold gogit.PlainClone.
  destruct (gogit.dir_at w path) as [[|r]|];
    try (exists []; rewrite app_nil_r; repeat split; [simpl; lia | constructor]);
    (destruct (negb (gogit.dir_writable w path));
     [exists []; rewrite app_nil_r; repeat split; [simpl; lia | constructor]|]);
    exists [git.mkNetCall "clone" (git.co_URL o) (git.co_Auth o)];
    (repeat split; [| simpl; lia | constructor; [exact Hauth | constructor]]);
    repeat case_match; simpl; rewrite ?store_repo_net_log; reflexivity.
Qed.

Lemma Pull_sends worktree o :
  git.po_Auth o = None -> sends_unauthenticated 1 (gogit.Pull worktree o).
Proof.
  intros Hauth w. unfold gogit.Pull.
  destruct (gogit.repo_at w worktree) as [r|];
    [|exists []; rewrite app_nil_r; repeat split; [simpl; lia | constructor]].
  destruct (assoc _ (git.remotes r)) as [[|url urls]|];
    try (exists []; rewrite app_nil_r; repeat split; [simpl; lia | constructor]).
  exists [git.mkNetCall "fetch" url (git.po_Auth o)].
  repeat split; [| simpl; lia | constructor; [exact Hauth | constructor]].
  repeat case_match; simpl; rewrite ?store_repo_net_log; reflexivity.
Qed.

Lemma List_sends remote o :
  git.lo_Auth o = None -> sends_unauthenticated 1 (gogit.List remote o).
Proof.
  intros Hauth w. unfold gogit.List.
  destruct (gogit.rem_URLs remote) as [|url urls];
    [exists []; rewrite app_nil_r; repeat split; [simpl; lia | constructor]|].
  exists [git.mkNetCall "ls-remote" url (git.lo_Auth o)].
  repeat split; [| simpl; lia | constructor; [exact Hauth | constructor]].
  repeat case_match; reflexivity.
Qed.

Lemma cloneAsReference_sends url path :
  sends_unauthenticated 1 (pristine.cloneAsReference url path).
Proof.
  unfold pristine.cloneAsReference.
  apply sends_bind_r; [apply preserves_or_wrap, MkdirAll_net_log|]. intros _.
  apply sends_or_wrap, PlainClone_sends. reflexivity.
Qed.

Lemma Init_sends name : sends_unauthenticated 1 (pristine.Init name).
Proof.
  unfold pristine.Init.
  apply sends_bind_r; [apply preserves_or_wrap, loadRepoFromVault_net_log|]. intros repo.
  apply sends_bind_r; [apply preserves_gets|]. intros err.
  apply sends_if; [apply sends_preserves, preserves_fail|].
  apply sends_bind_l; [apply sends_or_wrap, cloneAsReference_sends|]. intros _.
  solve_preserves.
  - apply extractRepoInfo_net_log.
  - apply updateMetadata_net_log.
  - apply Println_net_log.
Qed.

Lemma hardResetToOrigin_sends repo : sends_unauthenticated 1 (pristine.hardResetToOrigin repo).
Proof.
  unfold pristine.hardResetToOrigin.
  apply sends_bind_r; [apply preserves_or_wrap, Remote_net_log|]. intros origin.
  apply sends_bind_l; [apply sends_or_wrap, List_sends; reflexivity|]. intros refs.
  destruct (pristine.find_default_branch refs); [|apply preserves_fail].
  solve_preserves.
  - apply Worktree_net_log.
  - apply Reset_hard_net_log.
Qed.

Lemma Sync_sends name : sends_unauthenticated 2 (pristine.Sync name).
Proof.
  unfold pristine.Sync.
  apply sends_bind_r; [apply preserves_gets|]. intros err.
  apply sends_if; [apply sends_preserves, preserves_fail|].
  apply sends_bind_r; [apply preserves_or_wrap, PlainOpen_net_log|]. intros repo.
  apply sends_bind_r; [apply preserves_or_wrap, Worktree_net_log|]. intros worktree.
  apply (sends_bind 1 1); [apply sends_try, Pull_sends; reflexivity|]. intros pulled.
  apply sends_bind_r.
  { destruct pulled as [|e]; [apply preserves_ret|].
    apply preserves_if; [apply preserves_fail | apply preserves_ret]. }
  intros _.
  apply sends_bind_l; [apply sends_or_wrap, hardResetToOrigin_sends|]. intros _.
  solve_preserves.
  - apply extractRepoInfo_net_log.
  - apply updateMetadata_net_log.
  - apply Println_net_log.
Qed.

Lemma addCloneToMetadata_net_log repoName cloneName clonePath :
  preserves net_log (clone.addCloneToMetadata repoName cloneName clonePath).
Proof.
  unfold clone.addCloneToMetadata, clone.saveMetadata. solve_preserves.
  - apply preserves_loadMetadata.
  - apply WriteFile_metadata_net_log.
Qed.

Lemma Clone_sends pristineName cloneName :
  sends_unauthenticated 1 (clone.Clone pristineName cloneName).
Proof.
  unfold clone.Clone.
  apply sends_bind_r; [apply preserves_gets|]. intros err.
  apply sends_if; [apply sends_preserves, preserves_fail|].
  apply sends_bind_r.
  { apply preserves_if; [apply preserves_reads, reads_generateCloneName | apply preserves_ret]. }
  intros name.
  apply sends_bind_r; [unfold clone.cloneExists; solve_preserves|]. intros taken.
  apply sends_if; [apply sends_preserves, preserves_fail|].
  apply sends_bind_r; [apply preserves_or_wrap, MkdirAll_net_log|]. intros _.
  apply sends_bind_l.
  { apply sends_try. unfold clone.cloneRepository.
    apply sends_or_wrap, PlainClone_sends. reflexivity. }
  intros cloned. destruct cloned as [|e].
  - apply preserves_bind; [apply preserves_try, addCloneToMetadata_net_log|].
    intros added. destruct added as [|e].
    + apply Println_net_log.
    + apply preserves_bind; [apply preserves_try, RemoveAll_net_log|].
      intros _. apply preserves_fail.
  - apply preserves_bind; [apply preserves_try, RemoveAll_net_log|].
    intros _. apply preserves_fail.
Qed.

(** The calls of a computation, one step at a time. *)

Lemma bind_log {A B} (c : IO A) (k : A -> IO B) w new :
  net_log (snd (c w)) = net_log w ++ new ->
  (forall a, preserves net_log (k a)) ->
  net_log (snd (bind c k w)) = net_log w ++ new.
Proof.
  intros Hc Hk. unfold bind. destruct (c w) as [[a|e] w1]; simpl in *; [|exact Hc].
  now rewrite Hk.
Qed.

Lemma bind_fails {A B} (c : IO A) (k : A -> IO B) w e :
  fst (c w) = Err e -> fst (bind c k w) = Err e.
Proof.
  unfold bind. destruct (c w) as [[a|e'] w1]; simpl; intros H; [discriminate H | now injection H as ->].
Qed.

Lemma or_wrap_log {A} (c : IO A) ctx w :
  net_log (snd ((c ?: ctx) w)) = net_log (snd (c w)).
Proof. unfold or_wrap. now destruct (c w) as [[a|e] w1]. Qed.

Lemma or_wrap_fails {A} (c : IO A) ctx w e :
  fst (c w) = Err e -> fst ((c ?: ctx) w) = Err (Errorf_w ctx e).
Proof. unfold or_wrap. destruct (c w) as [[a|e'] w1]; simpl; [discriminate|]. now intros [= ->]. Qed.

Lemma connect_log_request op u a w url auth :
  gogit.connect (gogit.log_request op u a w) url auth = gogit.connect w url auth.
Proof. now destruct url. Qed.

(** A clone into a directory that holds no repository and can be
    written calls the transport once, with the options' [Auth]; when the
    transport fails, so does the clone. *)
Lemma PlainClone_call path isBare o w :
  match gogit.dir_at w path with Some (RepoDir _) => False | _ => True end ->
  gogit.dir_writable w path = true ->
  net_log (snd (gogit.PlainClone path isBare o w)) =
    net_log w ++ [git.mkNetCall "clone" (git.co_URL o) (git.co_Auth o)] /\
  forall e, gogit.connect w (git.co_URL o) (git.co_Auth o) = Err e ->
            fst (gogit.PlainClone path isBare o w) = Err e.
Proof.
  intros Hdir Hw. unfold gogit.PlainClone.
  destruct (gogit.dir_at w path) as [[|r]|]; try contradiction;
    rewrite Hw; simpl; rewrite connect_log_request;
    (destruct (gogit.connect w (git.co_URL o) (git.co_Auth o)) as [up|e0];
     [|split; [reflexivity | now intros e [= ->]]]);
    (split; [|discriminate]);
    repeat case_match; simpl; rewrite ?store_repo_net_log; reflexivity.
Qed.

Lemma Init_tail_net_log name path :
  forall a : unit,
    preserves net_log
      (let! info := pristine.extractRepoInfo path ?: "failed to extract repository info" in
       do! pristine.updateMetadata name info ?: "failed to update metadata" in
       Println ("Initialized pristine '" +:+ name +:+ "'")).
Proof.
  intros _. solve_preserves.
  - apply extractRepoInfo_net_log.
  - apply updateMetadata_net_log.
  - apply Println_net_log.
Qed.

(** [Init], past its two guards, calls the transport once for the URL
    of the entry, with no [Auth]; when that call fails, [Init] returns its
    error. *)
Lemma Init_call name w v entry :
  vault_index w = Holds v ->
  find (fun repo => String.eqb (types.Name repo) name) (types.Repos v) = Some entry ->
  pristines w !! name = None ->
  pristines_writable w = true ->
  net_log (snd (pristine.Init name w)) =
    net_log w ++ [git.mkNetCall "clone" (outside (types.URL entry)) None] /\
  forall e, gogit.connect w (outside (types.URL entry)) None = Err e ->
            fst (pristine.Init name w) =
              Err (Errorf_w "failed to clone repository"
                     (Errorf_w "failed to clone repository" e)).
Proof.
  intros Hv Hfind Hnone Hpw.
  pose proof (loadRepoFromVault_Holds name w v Hv) as Hload. rewrite Hfind in Hload.
  set (w0 := set_pristines (<[name := PlainDir]> (pristines w)) w).
  set (o := git.mkCloneOptions (outside (types.URL entry)) None git.HEAD_name true 1 false).
  assert (Hclone : pristine.cloneAsReference (types.URL entry) (pristine_dir name) w =
                   (gogit.PlainClone (pristine_dir name) false o ?: "failed to clone repository")
                     w0).
  { unfold pristine.cloneAsReference, bind. unfold or_wrap at 1. unfold os.MkdirAll.
    cbv beta iota. rewrite Hnone, Hpw. reflexivity. }
  destruct (PlainClone_call (pristine_dir name) false o w0) as [Hlog Hfail].
  { unfold w0. simpl. now rewrite lookup_insert_eq. }
  { exact Hpw. }
  assert (HInit : pristine.Init name w =
            (do! pristine.cloneAsReference (types.URL entry) (pristine_dir name)
                   ?: "failed to clone repository" in
             let! info := pristine.extractRepoInfo (pristine_dir name)
                            ?: "failed to extract repository info" in
             do! pristine.updateMetadata name info ?: "failed to update metadata" in
             Println ("Initialized pristine '" +:+ name +:+ "'")) w).
  { unfold pristine.Init.
    rewrite (bind_Ok _ _ w entry w) by now apply or_wrap_Ok.
    unfold bind at 1. unfold gets at 1. unfold os.Stat at 1. cbv beta iota.
    now rewrite Hnone. }
  rewrite HInit. split.
  - apply bind_log; [|apply Init_tail_net_log].
    now rewrite or_wrap_log, Hclone, or_wrap_log.
  - intros e He. apply bind_fails, or_wrap_fails. rewrite Hclone.
    apply or_wrap_fails, Hfail. exact He.
Qed.

Lemma Pull_call name o w r url urls :
  pristines w !! name = Some (RepoDir r) ->
  assoc (if String.eqb (git.po_RemoteName o) "" then "origin" else git.po_RemoteName o)
        (git.remotes r) = Some (url :: urls) ->
  net_log (snd (gogit.Pull (pristine_dir name) o w)) =
    net_log w ++ [git.mkNetCall "fetch" url (git.po_Auth o)] /\
  forall e, gogit.connect w url (git.po_Auth o) = Err e ->
            gogit.Pull (pristine_dir name) o w =
              (Err e, gogit.log_request "fetch" url (git.po_Auth o) w).
Proof.
  intros Hr Ho. unfold gogit.Pull. simpl gogit.repo_at. rewrite Hr. cbv beta iota.
  rewrite Ho. cbv beta iota. rewrite connect_log_request.
  destruct (gogit.connect w url (git.po_Auth o)) as [up|e0].
  - split; [|discriminate].
    repeat case_match; simpl; rewrite ?store_repo_net_log; reflexivity.
  - split; [reflexivity|]. now intros e [= ->].
Qed.

Lemma Pull_keeps_remotes name o w rp w1 r :
  gogit.Pull (pristine_dir name) o w = (rp, w1) ->
  pristines w !! name = Some (RepoDir r) ->
  network w1 = network w /\
  exists r1, pristines w1 !! name = Some (RepoDir r1) /\ git.remotes r1 = git.remotes r.
Proof.
  unfold gogit.Pull, gogit.log_request. simpl. intros H Hr. rewrite Hr in H.
  repeat (match type of H with
          | context [match ?x with _ => _ end] => destruct x
          end);
    injection H as <- <-; simpl; (split; [reflexivity|]);
    first [ exists r; split; [exact Hr | reflexivity]
          | eexists; split; [apply lookup_insert_eq | reflexivity] ].
Qed.

Lemma hardResetToOrigin_call name w r url urls :
  pristines w !! name = Some (RepoDir r) ->
  assoc "origin" (git.remotes r) = Some (url :: urls) ->
  net_log (snd (pristine.hardResetToOrigin (pristine_dir name) w)) =
    net_log w ++ [git.mkNetCall "ls-remote" url None].
Proof.
  intros Hr Ho. unfold pristine.hardResetToOrigin.
  rewrite (bind_Ok _ _ w (gogit.mkRemote "origin" (url :: urls)) w).
  2:{ apply or_wrap_Ok. unfold gogit.Remote. simpl. now rewrite Hr, Ho. }
  apply bind_log.
  - rewrite or_wrap_log. unfold gogit.List. simpl.
    now destruct (gogit.connect _ url None).
  - intros refs. destruct (pristine.find_default_branch refs); [|apply preserves_fail].
    solve_preserves.
    + apply Worktree_net_log.
    + apply Reset_hard_net_log.
Qed.

Lemma Sync_tail_net_log name path :
  forall a : unit,
    preserves net_log
      (let! info := pristine.extractRepoInfo path ?: "failed to extract repository info" in
       do! pristine.updateMetadata name info ?: "failed to update metadata" in
       Println ("Synced pristine '" +:+ name +:+ "'")).
Proof.
  intros _. solve_preserves.
  - apply extractRepoInfo_net_log.
  - apply updateMetadata_net_log.
  - apply Println_net_log.
Qed.

(** [Sync] of a pristine that has a working tree and an [origin] remote
    calls the transport for a fetch, with no [Auth], then at most once
    more, for the listing of the remote; when the fetch call fails,
    [Sync] returns its error and calls nothing else. *)
Lemma Sync_call name w r url urls :
  pristines w !! name = Some (RepoDir r) ->
  git.bare r = false ->
  assoc "origin" (git.remotes r) = Some (url :: urls) ->
  (exists new,
     net_log (snd (pristine.Sync name w)) =
       net_log w ++ git.mkNetCall "fetch" url None :: new /\
     (new = [] \/ new = [git.mkNetCall "ls-remote" url None])) /\
  forall e, gogit.connect w url None = Err e ->
            e <> git.NoErrAlreadyUpToDate ->
            pristine.Sync name w =
              (Err (Errorf_w "failed to pull changes" e),
               set_net_log (net_log w ++ [git.mkNetCall "fetch" url None]) w).
Proof.
  intros Hr Hb Ho.
  assert (HSync : pristine.Sync name w =
            (let! err := try (gogit.Pull (pristine_dir name) git.PullOptions_zero) in
             do! match err with
                 | Err e =>
                     if bool_decide (e ≠ git.NoErrAlreadyUpToDate)
                     then fail (Errorf_w "failed to pull changes" e)
                     else ret tt
                 | Ok _ => ret tt
                 end in
             do! pristine.hardResetToOrigin (pristine_dir name) ?: "failed to reset to origin" in
             let! info := pristine.extractRepoInfo (pristine_dir name)
                            ?: "failed to extract repository info" in
             do! pristine.updateMetadata name info ?: "failed to update metadata" in
             Println ("Synced pristine '" +:+ name +:+ "'")) w).
  { unfold pristine.Sync.
    unfold bind at 1. unfold gets at 1. unfold os.Stat at 1. cbv beta iota. rewrite Hr.
    cbv beta iota delta [os.IsNotExist].
    rewrite (bind_Ok _ _ w (pristine_dir name) w).
    2:{ apply or_wrap_Ok. unfold gogit.PlainOpen. simpl. now rewrite Hr. }
    rewrite (bind_Ok _ _ w (pristine_dir name) w).
    2:{ apply or_wrap_Ok. unfold gogit.Worktree. simpl. now rewrite Hr, Hb. }
    reflexivity. }
  rewrite HSync. clear HSync.
  destruct (Pull_call name git.PullOptions_zero w r url urls Hr Ho) as [Hlog Hfail].
  simpl git.po_Auth in *.
  destruct (gogit.Pull (pristine_dir name) git.PullOptions_zero w) as [rp w1] eqn:HP.
  destruct (Pull_keeps_remotes _ _ _ _ _ _ HP Hr) as (_ & r1 & Hr1 & Hrem).
  simpl in Hlog.
  assert (Hrest : net_log (snd ((do! pristine.hardResetToOrigin (pristine_dir name)
                                       ?: "failed to reset to origin" in
                                 let! info := pristine.extractRepoInfo (pristine_dir name)
                                                ?: "failed to extract repository info" in
                                 do! pristine.updateMetadata name info
                                       ?: "failed to update metadata" in
                                 Println ("Synced pristine '" +:+ name +:+ "'")) w1)) =
                  net_log w1 ++ [git.mkNetCall "ls-remote" url None]).
  { apply bind_log; [|apply Sync_tail_net_log].
    rewrite or_wrap_log. apply (hardResetToOrigin_call name w1 r1 url urls Hr1).
    now rewrite Hrem. }
  split.
  - unfold bind at 1. rewrite try_eq, HP. simpl fst. simpl snd. cbv beta iota.
    destruct rp as [[]|e0].
    + exists [git.mkNetCall "ls-remote" url None]. split; [|now right].
      unfold bind at 1. unfold ret at 1. cbv beta iota.
      rewrite Hrest, Hlog, <- app_assoc. reflexivity.
    + destruct (bool_decide (e0 ≠ git.NoErrAlreadyUpToDate)).
      * exists []. split; [|now left]. unfold bind at 1. unfold fail at 1. cbv beta iota.
        exact Hlog.
      * exists [git.mkNetCall "ls-remote" url None]. split; [|now right].
        unfold bind at 1. unfold ret at 1. cbv beta iota.
        rewrite Hrest, Hlog, <- app_assoc. reflexivity.
  - intros e He Hne. specialize (Hfail e He). injection Hfail as -> ->.
    unfold bind at 1. rewrite try_eq, HP. simpl fst. simpl snd. cbv beta iota.
    rewrite bool_decide_eq_true_2 by exact Hne.
    reflexivity.
Qed.

Lemma Clone_tail_net_log pristineName name :
  forall err : result unit,
    preserves net_log
      (match err with
       | Err e =>
           let! _ := try (os.RemoveAll (clone_dir name)) in
           fail (Errorf_w "failed to clone repository" e)
       | Ok _ =>
           let! err := try (clone.addCloneToMetadata pristineName name (clone_dir name)) in
           match err with
           | Err e =>
               let! _ := try (os.RemoveAll (clone_dir name)) in
               fail (Errorf_w "failed to update metadata" e)
           | Ok _ => Println ("Created clone '" +:+ name +:+ "'")
           end
       end).
Proof.
  intros [[]|e].
  - apply preserves_bind; [apply preserves_try, addCloneToMetadata_net_log|].
    intros added. destruct added as [|e].
    + apply Println_net_log.
    + apply preserves_bind; [apply preserves_try, RemoveAll_net_log|].
      intros _. apply preserves_fail.
  - apply preserves_bind; [apply preserves_try, RemoveAll_net_log|].
    intros _. apply preserves_fail.
Qed.

(** [Clone], past its guards, calls the transport once for the path of
    the pristine, with no [Auth]; when that call fails, [Clone] returns its
    error. *)
Lemma Clone_call pristineName cloneName w d :
  let name := if String.eqb cloneName ""
              then pristineName +:+ "-clone-" +:+ clone.Format (now w)
              else cloneName in
  pristines w !! pristineName = Some d ->
  clones w !! name = None ->
  clones_writable w = true ->
  net_log (snd (clone.Clone pristineName cloneName w)) =
    net_log w ++ [git.mkNetCall "clone" (pristine_dir pristineName) None] /\
  forall e, gogit.connect w (pristine_dir pristineName) None = Err e ->
            fst (clone.Clone pristineName cloneName w) =
              Err (Errorf_w "failed to clone repository"
                     (Errorf_w "failed to clone from pristine" e)).
Proof.
  intros name Hp Hfree Hcw.
  set (w0 := set_clones (<[name := PlainDir]> (clones w)) w).
  assert (HClone : clone.Clone pristineName cloneName w =
            (let! err := try (clone.cloneRepository (pristine_dir pristineName)
                                (clone_dir name)) in
             match err with
             | Err e =>
                 let! _ := try (os.RemoveAll (clone_dir name)) in
                 fail (Errorf_w "failed to clone repository" e)
             | Ok _ =>
                 let! err := try (clone.addCloneToMetadata pristineName name
                                    (clone_dir name)) in
                 match err with
                 | Err e =>
                     let! _ := try (os.RemoveAll (clone_dir name)) in
                     fail (Errorf_w "failed to update metadata" e)
                 | Ok _ => Println ("Created clone '" +:+ name +:+ "'")
                 end
             end) w0).
  { unfold clone.Clone.
    unfold bind at 1. unfold gets at 1. unfold os.Stat at 1. cbv beta iota. rewrite Hp.
    cbv beta iota delta [os.IsNotExist].
    rewrite (bind_Ok _ _ w name w).
    2:{ unfold name. now destruct (String.eqb cloneName ""). }
    unfold bind at 1. unfold clone.cloneExists at 1.
    unfold bind at 1. unfold gets at 1. unfold os.Stat at 1. cbv beta iota. rewrite Hfree.
    cbv beta iota delta [ret is_ok].
    rewrite (bind_Ok _ _ w tt w0).
    2:{ apply or_wrap_Ok. unfold os.MkdirAll. now rewrite Hfree, Hcw. }
    reflexivity. }
  rewrite HClone. clear HClone.
  destruct (PlainClone_call (clone_dir name) false
              (git.CloneOptions_URL (pristine_dir pristineName)) w0) as [Hlog Hfail].
  { unfold w0. simpl. now rewrite lookup_insert_eq. }
  { exact Hcw. }
  split.
  - change (net_log w) with (net_log w0).
    apply bind_log; [|apply Clone_tail_net_log].
    rewrite try_eq. simpl snd. unfold clone.cloneRepository. now rewrite or_wrap_log.
  - intros e He. specialize (Hfail e He).
    unfold bind at 1. rewrite try_eq. unfold clone.cloneRepository at 1.
    rewrite (or_wrap_fails _ _ _ _ Hfail). simpl fst. cbv beta iota.
    unfold bind. rewrite try_eq. reflexivity.
Qed.

(** C3, as amended: no network operation owns a credential callback or
    an attempt counter.  The clone of [Init], the fetch and the remote
    listing of [Sync] and the clone of [Clone] each call the transport
    once, with no [Auth] in their options, so that authentication is left
    to the engine's default for the URL; nothing is retried ([Init] and
    [Clone] make at most one call, [Sync] at most two, in every world).
    Past the guards of the operation the call is made, and when it fails,
    as it does when the remote rejects what the engine presents, the
    operation returns the engine's error at once, wrapped in its
    context. *)
Theorem network_operations_offer_no_credentials :
  (forall name, sends_unauthenticated 1 (pristine.Init name)) /\
  (forall name, sends_unauthenticated 2 (pristine.Sync name)) /\
  (forall pristineName cloneName,
     sends_unauthenticated 1 (clone.Clone pristineName cloneName)) /\
  (forall name w v entry,
     vault_index w = Holds v ->
     find (fun repo => String.eqb (types.Name repo) name) (types.Repos v) = Some entry ->
     pristines w !! name = None ->
     pristines_writable w = true ->
     net_log (snd (pristine.Init name w)) =
       net_log w ++ [git.mkNetCall "clone" (outside (types.URL entry)) None] /\
     forall e, gogit.connect w (outside (types.URL entry)) None = Err e ->
               fst (pristine.Init name w) =
                 Err (Errorf_w "failed to clone repository"
                        (Errorf_w "failed to clone repository" e))) /\
  (forall name w r url urls,
     pristines w !! name = Some (RepoDir r) ->
     git.bare r = false ->
     assoc "origin" (git.remotes r) = Some (url :: urls) ->
     (exists new,
        net_log (snd (pristine.Sync name w)) =
          net_log w ++ git.mkNetCall "fetch" url None :: new /\
        (new = [] \/ new = [git.mkNetCall "ls-remote" url None])) /\
     forall e, gogit.connect w url None = Err e ->
               e <> git.NoErrAlreadyUpToDate ->
               pristine.Sync name w =
                 (Err (Errorf_w "failed to pull changes" e),
                  set_net_log (net_log w ++ [git.mkNetCall "fetch" url None]) w)) /\
  (forall pristineName cloneName w d,
     let name := if String.eqb cloneName ""
                 then pristineName +:+ "-clone-" +:+ clone.Format (now w)
                 else cloneName in
     pristines w !! pristineName = Some d ->
     clones w !! name = None ->
     clones_writable w = true ->
     net_log (snd (clone.Clone pristineName cloneName w)) =
       net_log w ++ [git.mkNetCall "clone" (pristine_dir pristineName) None] /\
     forall e, gogit.connect w (pristine_dir pristineName) None = Err e ->
               fst (clone.Clone pristineName cloneName w) =
                 Err (Errorf_w "failed to clone repository"
                        (Errorf_w "failed to clone from pristine" e))).
Proof.
  split; [exact Init_sends|]. split; [exact Sync_sends|]. split; [exact Clone_sends|].
  split; [exact Init_call|]. split; [exact Sync_call | exact Clone_call].
Qed.

(** C3 at the sample worlds: [init priv] against the remote that demands
    credentials, [sync test-repo] once its remote has turned private, and
    [clone test-repo work] from a directory that holds no repository: one
    call each, with no [Auth], and the engine's error comes back. *)
Lemma network_operations_offer_no_credentials_witness :
  (fst (pristine.Init "priv" sample.with_private) =
     Err (Errorf_w "failed to clone repository"
            (Errorf_w "failed to clone repository" git.ErrAuthenticationRequired)) /\
   net_log (snd (pristine.Init "priv" sample.with_private)) =
     [git.mkNetCall "clone" (outside sample.private_url) None]) /\
  pristine.Sync "test-repo" scenario.locked_out =
    (Err (Errorf_w "failed to pull changes" git.ErrAuthenticationRequired),
     set_net_log [git.mkNetCall "fetch" (outside sample.repo_url) None] scenario.locked_out) /\
  (fst (clone.Clone "test-repo" "work" sample.hollow_pristine) =
     Err (Errorf_w "failed to clone repository"
            (Errorf_w "failed to clone from pristine" git.ErrRepositoryNotFound)) /\
   net_log (snd (clone.Clone "test-repo" "work" sample.hollow_pristine)) =
     [git.mkNetCall "clone" (pristine_dir "test-repo") None]).
Proof.
  destruct network_operations_offer_no_credentials as (_ & _ & _ & HI & HS & HC).
  split; [|split].
  - assert (Hv : vault_index sample.with_private =
                 Holds (types.mkVault [types.mkVaultEntry "priv" sample.private_url 100]))
      by (vm_compute; reflexivity).
    destruct (HI "priv" sample.with_private _
                (types.mkVaultEntry "priv" sample.private_url 100) Hv eq_refl eq_refl eq_refl)
      as [Hlog Hfail].
    split; [apply Hfail; reflexivity | exact Hlog].
  - assert (Hr : exists r, pristines scenario.locked_out !! "test-repo" = Some (RepoDir r) /\
                           git.bare r = false /\
                           assoc "origin" (git.remotes r) = Some [outside sample.repo_url])
      by (eexists; split; [vm_compute; reflexivity | split; reflexivity]).
    destruct Hr as (r & Hr & Hb & Ho).
    destruct (HS "test-repo" scenario.locked_out r _ _ Hr Hb Ho) as [_ Hfail].
    apply Hfail; [reflexivity | discriminate].
  - assert (Hp : pristines sample.hollow_pristine !! "test-repo" = Some PlainDir)
      by (vm_compute; reflexivity).
    destruct (HC "test-repo" "work" sample.hollow_pristine PlainDir Hp eq_refl eq_refl)
      as [Hlog Hfail].
    split; [apply Hfail; vm_compute; reflexivity | exact Hlog].
Defined.

(** C3 as first stated fails: against a remote that rejects every
    credential, [Init] fails after a single call whose options carry no
    [Auth], on a URL for which the engine has no default to present; no
    credential was attempted, let alone more than a maximum. *)
Lemma Init_fails_without_credential_attempts :
  git.up_private sample.private_upstream = true /\
  git.up_authorized sample.private_upstream = [] /\
  git.up_default_auth sample.private_upstream = Ok None /\
  fst (pristine.Init "priv" sample.with_private) =
    Err (Errorf_w "failed to clone repository"
           (Errorf_w "failed to clone repository" git.ErrAuthenticationRequired)) /\
  net_log (sample.after (pristine.Init "priv") sample.with_private) =
    [git.mkNetCall "clone" (outside sample.private_url) None] /\
  credential_attempts (net_log (sample.after (pristine.Init "priv") sample.with_private)) = 0.
Proof. vm_compute. repeat split. Qed.

(** ** The cases of the package's tests *)

(** [TestValidateURL] *)
Example test_validateURL :
  is_ok (fst (vault.validateURL "https://github.com/user/repo.git" sample.fresh)) = true /\
  is_ok (fst (vault.validateURL "git@github.com:user/repo.git" sample.fresh)) = true /\
  is_ok (fst (vault.validateURL "not-a-url" sample.fresh)) = false /\
  is_ok (fst (vault.validateURL "" sample.fresh)) = false /\
  is_ok (fst (vault.validateURL "https://github.com/user/repo" sample.fresh)) = false.
Proof. vm_compute. repeat split. Qed.

(** [TestExtractNameFromURL] *)
Example test_extractNameFromURL :
  fst (vault.extractNameFromURL "https://github.com/user/repo.git" sample.fresh) = Ok "repo" /\
  fst (vault.extractNameFromURL "git@github.com:user/repo.git" sample.fresh) = Ok "repo" /\
  fst (vault.extractNameFromURL "https://github.com/microsoft/vscode.git" sample.fresh)
    = Ok "vscode" /\
  fst (vault.extractNameFromURL "https://example.com/path/repo-name.git/" sample.fresh)
    = Ok "repo-name.git".
Proof. vm_compute. repeat split. Qed.

(** [TestAdd], [TestGet] and [TestList] *)
Example test_Add_Get_List :
  fst (vault.Add sample.repo_url sample.fresh) = Ok tt /\
  error_contains (fst (vault.Add sample.repo_url sample.added)) "already exists" = true /\
  error_contains (fst (vault.Add "invalid-url" sample.added)) "validation failed" = true /\
  fst (vault.Get "test-repo" sample.added) =
    Ok (types.mkVaultEntry "test-repo" sample.repo_url 100) /\
  error_contains (fst (vault.Get "non-existent" sample.added)) "not found" = true /\
  fst (vault.List sample.fresh) = Ok [] /\
  length (match fst (vault.List sample.three_repos) with Ok l => l | Err _ => [] end) = 3.
Proof. vm_compute. repeat split. Qed.

(** [TestInit], [TestSync] and [TestExtractRepoInfo] *)
Example test_Init_Sync :
  error_contains (fst (pristine.Init "nonexistent" sample.added)) "not found" = true /\
  error_contains (fst (pristine.Sync "nonexistent" sample.added)) "does not exist" = true /\
  is_ok (fst (pristine.Sync "test-repo" sample.hollow_pristine)) = false /\
  error_contains (fst (pristine.extractRepoInfo (pristine_dir "test-repo")
                         sample.hollow_pristine)) "repository does not exist" = true.
Proof. vm_compute. repeat split. Qed.

(** [TestClone], [TestDestroyClone] and [TestDestroyPristine] *)
Example test_Clone_Destroy :
  error_contains (fst (clone.Clone "nonexistent" "" sample.added)) "does not exist" = true /\
  error_contains (fst (clone.Clone "test-repo" "" sample.hollow_pristine))
    "repository not found" = true /\
  error_contains (fst (clone.Clone "test-repo" "my-clone" sample.hollow_pristine))
    "repository not found" = true /\
  error_contains (fst (clone.Destroy "test-clone" sample.fresh)) "not found" = true /\
  fst (clone.Destroy "scratch" sample.untracked_clone) = Ok tt /\
  clones (sample.after (clone.Destroy "scratch") sample.untracked_clone) !! "scratch" = None /\
  fst (clone.Destroy "test-repo" sample.hollow_pristine) = Ok tt /\
  pristines (sample.after (clone.Destroy "test-repo") sample.hollow_pristine) !! "test-repo"
    = None.
Proof. vm_compute. repeat split. Qed.

(** * Further properties *)

(** ** The names [Add] resolves *)

Lemma last_In {A} (l : list A) d : l <> [] -> In (List.last l d) l.
Proof.
  induction l as [|x l IH]; [contradiction|]. intros _.
  destruct l as [|y l]; [now left|].
  right. apply IH. discriminate.
Qed.

Lemma last_cons_not_nil {A} (x : A) l d : l <> [] -> List.last (x :: l) d = List.last l d.
Proof. destruct l; [contradiction | reflexivity]. Qed.

Lemma last_default_irrelevant {A} (l : list A) d d' : l <> [] -> List.last l d = List.last l d'.
Proof.
  induction l as [|x l IH]; [contradiction|]. intros _.
  destruct l as [|y l]; [reflexivity|]. apply IH. discriminate.
Qed.

(** The piece after the last separator is not empty when the text ends
    in another character. *)
Lemma Split_last_not_empty sep s : forall c d,
  last_char s = Some c -> c <> sep -> List.last (strings.Split s sep) d <> "".
Proof.
  induction s as [|a s IH]; intros c d Hc Hne; [discriminate|].
  destruct s as [|b s'].
  - simpl in Hc. injection Hc as ->. simpl.
    destruct (Ascii.eqb c sep) eqn:E; [apply Ascii.eqb_eq in E; contradiction|].
    simpl. discriminate.
  - assert (Hc' : last_char (String b s') = Some c) by exact Hc.
    specialize (IH c d Hc' Hne).
    change (strings.Split (String a (String b s')) sep)
      with (if Ascii.eqb a sep then "" :: strings.Split (String b s') sep
            else match strings.Split (String b s') sep with
                 | [] => [String a ""]
                 | p :: ps => String a p :: ps
                 end).
    destruct (Ascii.eqb a sep).
    + rewrite last_cons_not_nil by apply Split_not_nil. exact IH.
    + destruct (strings.Split (String b s') sep) as [|p ps] eqn:Hs.
      * simpl. discriminate.
      * destruct ps as [|q ps]; [simpl; discriminate|].
        rewrite last_cons_not_nil by discriminate.
        rewrite last_cons_not_nil in IH by discriminate. exact IH.
Qed.

Lemma drop_leading_seps_head s :
  filepath.drop_leading_seps s = "" \/
  exists c t, filepath.drop_leading_seps s = String c t /\ c <> filepath.sep.
Proof.
  induction s as [|a s IH]; simpl; [now left|].
  destruct (Ascii.eqb a filepath.sep) eqn:E; [exact IH|].
  right. exists a, s. split; [reflexivity|].
  intros ->. now rewrite Ascii.eqb_refl in E.
Qed.

Lemma last_char_append_one (a : string) c : last_char (a +:+ String c "") = Some c.
Proof.
  induction a as [|x a IH]; [reflexivity|].
  rewrite append_cons. simpl.
  destruct (a +:+ String c "") eqn:E; [|exact IH].
  destruct a; discriminate.
Qed.

Lemma rev_cons c s : strings.rev (String c s) = strings.rev s +:+ String c "".
Proof. unfold strings.rev. simpl. now rewrite rev_acc_append. Qed.

Lemma strip_trailing_seps_end p :
  filepath.strip_trailing_seps p = "" \/
  exists c, last_char (filepath.strip_trailing_seps p) = Some c /\ c <> filepath.sep.
Proof.
  unfold filepath.strip_trailing_seps.
  destruct (drop_leading_seps_head (strings.rev p)) as [->|(c & t & -> & Hne)].
  - now left.
  - right. exists c. rewrite rev_cons. split; [apply last_char_append_one | exact Hne].
Qed.

Lemma Base_not_empty p : filepath.Base p <> "".
Proof.
  unfold filepath.Base. destruct p as [|a p]; [discriminate|].
  destruct (strip_trailing_seps_end (String a p)) as [->|(c & Hc & Hne)]; [discriminate|].
  destruct (filepath.strip_trailing_seps (String a p)) as [|b q] eqn:E; [discriminate|].
  now apply (Split_last_not_empty filepath.sep (String b q) c).
Qed.

Lemma Base_no_sep p : filepath.Base p = "/" \/ ~ In filepath.sep (chars (filepath.Base p)).
Proof.
  unfold filepath.Base. destruct p as [|a p].
  - right. simpl. intros [H|[]]. discriminate H.
  - destruct (filepath.strip_trailing_seps (String a p)) as [|b q]; [now left|].
    right. apply (Split_no_sep filepath.sep (String b q)).
    apply last_In, Split_not_nil.
Qed.

(** X1: every name that [extractRepoName] resolves, from a URL or from a
    local path, is a single path element (not empty, no separator in it),
    or is the root [/] itself. *)
Theorem extractRepoName_path_element urlOrPath w name w' :
  vault.extractRepoName urlOrPath w = (Ok name, w') ->
  name = "/" \/ path_element name.
Proof.
  unfold vault.extractRepoName, vault.extractNameFromURL, path_element.
  destruct (vault.is_remote_form urlOrPath).
  - set (url := strings.TrimSuffix urlOrPath ".git").
    destruct (strings.Contains url "github.com").
    + destruct (Nat.leb 2 (length (strings.Split url "/"))).
      * destruct (String.eqb (List.last (strings.Split url "/") "") "") eqn:E;
          [discriminate|].
        intros H. injection H as <- _. right. split.
        -- now apply String.eqb_neq.
        -- apply (Split_no_sep filepath.sep url), last_In, Split_not_nil.
      * simpl. discriminate.
    + destruct (strings.Contains url "git@").
      * destruct (Nat.leb 2 (length (strings.Split url ":"))).
        -- destruct (String.eqb _ "") eqn:E; [discriminate|].
           intros H. injection H as <- _.
           destruct (Base_no_sep (List.last (strings.Split url ":") "")) as [->|Hn];
             [now left|].
           right. split; [apply Base_not_empty | exact Hn].
        -- simpl. discriminate.
      * destruct (String.eqb _ "") eqn:E; [discriminate|].
        intros H. injection H as <- _.
        destruct (Base_no_sep url) as [->|Hn]; [now left|].
        right. split; [apply Base_not_empty | exact Hn].
  - intros H. injection H as <- _.
    destruct (Base_no_sep urlOrPath) as [->|Hn]; [now left|].
    right. split; [apply Base_not_empty | exact Hn].
Qed.

(** X1 at the sample URL. *)
Lemma extractRepoName_path_element_witness :
  "test-repo" = "/" \/ path_element "test-repo".
Proof.
  apply (extractRepoName_path_element sample.repo_url sample.fresh "test-repo" sample.fresh).
  reflexivity.
Defined.

(** ** What a successful [Add] changes *)

(** The shape of a successful [Add]. *)
Lemma Add_Ok_shape urlOrPath w w' :
  vault.Add urlOrPath w = (Ok tt, w') ->
  exists url name v0,
    vault.validateURLOrPath urlOrPath w = (Ok url, w) /\
    vault.extractRepoName url w = (Ok name, w) /\
    vault.loadVault w = (Ok v0, w) /\
    vault.repoExists v0 name = false /\
    vault_index w' =
      Holds (types.mkVault (types.Repos v0 ++ [types.mkVaultEntry name url (now w)])) /\
    vault_dirs w' !! name =
      Some (Holds (types.mkRepoMetadata url (now w) (now w) "main" "" "" [] "" "1h"
                     (types.mkSyncInfo types.zero_Time "") (types.mkBuildConfig "" "" [])
                     types.zero_HookConfig)) /\
    (forall other, other <> name -> vault_dirs w' !! other = vault_dirs w !! other) /\
    pristines w' = pristines w /\ clones w' = clones w.
Proof.
  intros H. unfold vault.Add in H.
  apply bind_Ok_inv in H as (url & w1 & Hv & H). apply or_wrap_Ok_inv in Hv.
  pose proof (reads_inv _ _ _ _ (reads_validateURLOrPath urlOrPath) Hv) as ->.
  apply bind_Ok_inv in H as (name & w1 & Hn & H). apply or_wrap_Ok_inv in Hn.
  pose proof (reads_inv _ _ _ _ (reads_extractRepoName url) Hn) as ->.
  apply bind_Ok_inv in H as (v0 & w1 & Hl & H). apply or_wrap_Ok_inv in Hl.
  pose proof (reads_inv _ _ _ _ reads_loadVault Hl) as ->.
  destruct (vault.repoExists v0 name) eqn:Hex; [discriminate H|].
  apply bind_Ok_inv in H as (added & w1 & Ht & H).
  unfold time_Now, gets in Ht. inversion Ht; subst added w1; clear Ht.
  apply bind_Ok_inv in H as ([] & w2 & Hs & H). apply or_wrap_Ok_inv in Hs.
  unfold vault.saveVault in Hs. apply or_wrap_Ok_inv in Hs.
  unfold os.WriteFile_vault in Hs.
  destruct (vault_writable w) eqn:Hw; [|discriminate Hs]. inversion Hs; subst w2; clear Hs.
  apply bind_Ok_inv in H as ([] & w3 & Hc & H). apply or_wrap_Ok_inv in Hc.
  unfold Println, modify in H. injection H as <-.
  exists url, name, v0. repeat (split; [assumption|]).
  revert Hc.
  unfold vault.createMetadata, bind, or_wrap, os.MkdirAll, os.WriteFile_metadata, time_Now, gets.
  simpl. rewrite Hw.
  destruct (vault_dirs w !! name) eqn:Hd; simpl.
  - rewrite Hd. simpl. rewrite Hw. intros Hc. injection Hc as <-. simpl.
    rewrite lookup_insert_eq. repeat split; try reflexivity.
    intros other Hne. now rewrite lookup_insert_ne.
  - destruct (String.eqb name "vault.json"); simpl; [discriminate|].
    rewrite lookup_insert_eq. simpl. rewrite Hw.
    intros Hc. injection Hc as <-. simpl.
    rewrite lookup_insert_eq. repeat split; try reflexivity.
    intros other Hne. now rewrite !lookup_insert_ne.
Qed.

Lemma repoExists_In v name :
  vault.repoExists v name = false <-> ~ In name (names_of v).
Proof.
  unfold vault.repoExists, names_of. destruct v as [repos]. simpl.
  induction repos as [|r repos IH]; simpl; [tauto|].
  rewrite orb_false_iff, IH. split.
  - intros [E Hn] [<-|Hin]; [now rewrite String.eqb_refl in E | tauto].
  - intros H. split; [|tauto].
    apply String.eqb_neq. intros E. apply H. now left.
Qed.

(** X2: a successful [Add] appends exactly one entry to the vault index:
    the names listed before are kept, in their order, the new name comes
    last, and when the names were pairwise distinct they still are. *)
Theorem Add_keeps_names_distinct urlOrPath w w' v0 :
  vault.Add urlOrPath w = (Ok tt, w') ->
  vault.loadVault w = (Ok v0, w) ->
  exists name url,
    vault_index w' =
      Holds (types.mkVault (types.Repos v0 ++ [types.mkVaultEntry name url (now w)])) /\
    ~ In name (names_of v0) /\
    (NoDup (names_of v0) ->
     NoDup (names_of (types.mkVault
                        (types.Repos v0 ++ [types.mkVaultEntry name url (now w)])))).
Proof.
  intros H Hl.
  apply Add_Ok_shape in H as (url & name & v0' & _ & _ & Hl' & Hex & Hidx & _).
  rewrite Hl in Hl'. injection Hl' as <-.
  apply repoExists_In in Hex.
  exists name, url. split; [exact Hidx|]. split; [exact Hex|].
  intros Hnd. unfold names_of. simpl. rewrite map_app. simpl.
  apply NoDup_app. split; [exact Hnd|]. split.
  - intros x Hx Hx'. apply list_elem_of_In in Hx, Hx'.
    destruct Hx' as [<-|[]]. contradiction.
  - apply NoDup_singleton.
Qed.

(** X2 at the sample world. *)
Lemma Add_keeps_names_distinct_witness :
  exists v1,
    vault_index (sample.after (vault.Add sample.other_url) sample.added) = Holds v1 /\
    NoDup (names_of v1).
Proof.
  assert (H : vault.Add sample.other_url sample.added =
              (Ok tt, sample.after (vault.Add sample.other_url) sample.added))
    by (vm_compute; reflexivity).
  destruct (Add_keeps_names_distinct sample.other_url sample.added _
              (types.mkVault [types.mkVaultEntry "test-repo" sample.repo_url 100]) H)
    as (name & url & Hidx & _ & Hnd); [vm_compute; reflexivity|].
  eexists. split; [exact Hidx|]. apply Hnd.
  apply NoDup_singleton.
Defined.

Lemma find_app_found {A} (f : A -> bool) l x y :
  find f l = Some y -> find f (l ++ [x]) = Some y.
Proof.
  induction l as [|z l IH]; simpl; [discriminate|].
  destruct (f z); [auto | exact IH].
Qed.

Lemma find_app_other {A} (f : A -> bool) l x :
  f x = false -> find f (l ++ [x]) = find f l.
Proof.
  intros Hx. induction l as [|z l IH]; simpl; [now rewrite Hx|].
  destruct (f z); [reflexivity | exact IH].
Qed.

(** X3: a successful [Add] does not disturb what the vault already
    lists: every entry that [Get] found before is found unchanged after,
    the metadata file of every such name is as it was, and no pristine and
    no clone directory changes. *)
Theorem Add_keeps_other_entries urlOrPath w w' :
  vault.Add urlOrPath w = (Ok tt, w') ->
  (forall other e,
     fst (vault.Get other w) = Ok e ->
     fst (vault.Get other w') = Ok e /\
     vault_dirs w' !! other = vault_dirs w !! other) /\
  pristines w' = pristines w /\ clones w' = clones w.
Proof.
  intros H.
  apply Add_Ok_shape in H
    as (url & name & v0 & Hv & Hn & Hl & Hex & Hidx & _ & Hother & Hp & Hc).
  split; [|now split].
  intros other e. unfold vault.Get.
  rewrite (bind_Ok _ _ w' _ w') by (apply or_wrap_Ok; apply loadVault_Holds, Hidx).
  rewrite (bind_Ok _ _ w v0 w) by now apply or_wrap_Ok.
  simpl.
  destruct (find (fun repo => String.eqb (types.Name repo) other) (types.Repos v0))
    as [e'|] eqn:Hf; [|discriminate].
  intros He. injection He as ->. split.
  - now rewrite (find_app_found _ _ _ e Hf).
  - apply Hother. intros ->. apply repoExists_In in Hex. apply Hex.
    apply find_some in Hf as [Hin E]. apply String.eqb_eq in E. subst.
    unfold names_of. now apply in_map.
Qed.

(** X3 at the sample world: adding a second repository leaves the first
    entry readable as before. *)
Lemma Add_keeps_other_entries_witness :
  fst (vault.Get "test-repo" (sample.after (vault.Add sample.other_url) sample.added)) =
    Ok (types.mkVaultEntry "test-repo" sample.repo_url 100).
Proof.
  assert (H : vault.Add sample.other_url sample.added =
              (Ok tt, sample.after (vault.Add sample.other_url) sample.added))
    by (vm_compute; reflexivity).
  destruct (Add_keeps_other_entries sample.other_url sample.added _ H) as (Hother & _).
  now destruct (Hother "test-repo" (types.mkVaultEntry "test-repo" sample.repo_url 100)
                  eq_refl).
Defined.

(** ** [Add] and validation *)

Lemma extractRepoName_not_empty urlOrPath w name w' :
  vault.extractRepoName urlOrPath w = (Ok name, w') -> name <> "".
Proof.
  unfold vault.extractRepoName, vault.extractNameFromURL.
  destruct (vault.is_remote_form urlOrPath).
  - match goal with
    | |- context [if String.eqb ?n "" then _ else _] =>
        destruct (String.eqb n "") eqn:E; [discriminate|]
    end.
    intros H. injection H as <- _. now apply String.eqb_neq.
  - intros H. injection H as <- _. apply Base_not_empty.
Qed.

Lemma validateURLOrPath_not_empty urlOrPath w url w' :
  String.prefix "/" (cwd w) = true ->
  vault.validateURLOrPath urlOrPath w = (Ok url, w') -> url <> "".
Proof.
  intros Hc. unfold vault.validateURLOrPath.
  destruct (String.eqb urlOrPath "") eqn:E; [discriminate|].
  apply String.eqb_neq in E.
  destruct (vault.is_remote_form urlOrPath).
  - unfold vault.validateURL. destruct (negb _); [discriminate|].
    intros H. now injection H as <- _.
  - unfold vault.validateLocalPath, bind, gets. simpl.
    destruct (os.IsNotExist _); [discriminate|].
    destruct (os.IsNotExist _); [discriminate|].
    intros H. injection H as <- _.
    pose proof (Abs_is_absolute w urlOrPath Hc) as Ha.
    intros E0. rewrite E0 in Ha. discriminate.
Qed.

Lemma Validate_range_app repos entry :
  validation.Validate_range repos = None ->
  types.Name entry <> "" -> types.URL entry <> "" ->
  validation.Validate_range (repos ++ [entry]) = None.
Proof.
  intros Hr Hn Hu. induction repos as [|r repos IH]; simpl in *.
  - apply String.eqb_neq in Hn, Hu. now rewrite Hn, Hu.
  - destruct (String.eqb (types.Name r) ""); [discriminate|].
    destruct (String.eqb (types.URL r) ""); [discriminate|]. now apply IH.
Qed.

(** X4: [Add] keeps the vault valid.  When the working directory is an
    absolute path and the vault read before the [Add] passes
    [Vault.Validate], a successful [Add] writes an index that passes it
    too: the entries that were there followed by the entry of the name
    and the URL that [Add] resolved from its argument.  The metadata file
    found under that very name after the [Add] records that URL and
    passes [RepoMetadata.Validate]. *)
Theorem Add_keeps_vault_valid urlOrPath w w' v0 :
  String.prefix "/" (cwd w) = true ->
  vault.Add urlOrPath w = (Ok tt, w') ->
  vault.loadVault w = (Ok v0, w) ->
  validation.Vault_Validate v0 = None ->
  exists url name md,
    vault.validateURLOrPath urlOrPath w = (Ok url, w) /\
    vault.extractRepoName url w = (Ok name, w) /\
    vault_index w' =
      Holds (types.mkVault (types.Repos v0 ++ [types.mkVaultEntry name url (now w)])) /\
    validation.Vault_Validate
      (types.mkVault (types.Repos v0 ++ [types.mkVaultEntry name url (now w)])) = None /\
    vault_dirs w' !! name = Some (Holds md) /\
    types.VaultURL md = url /\
    validation.RepoMetadata_Validate md = None.
Proof.
  intros Hc H Hl Hvalid.
  apply Add_Ok_shape in H as (url & name & v0' & Hv & Hn & Hl' & _ & Hidx & Hmd & _).
  rewrite Hl in Hl'. injection Hl' as <-.
  pose proof (validateURLOrPath_not_empty _ _ _ _ Hc Hv) as Hurl.
  pose proof (extractRepoName_not_empty _ _ _ _ Hn) as Hname.
  exists url, name. eexists.
  split; [exact Hv|]. split; [exact Hn|]. split; [exact Hidx|].
  split; [|split; [exact Hmd|split; [reflexivity|]]].
  - unfold validation.Vault_Validate. simpl. now apply Validate_range_app.
  - unfold validation.RepoMetadata_Validate. simpl.
    apply String.eqb_neq in Hurl. now rewrite Hurl.
Qed.

(** X4 at the sample world: [add] of a second URL to the sample vault.
    The index lists both entries and is valid, and the metadata file of
    [other] records the URL and is valid. *)
Lemma Add_keeps_vault_valid_witness :
  exists v1 md,
    vault_index (sample.after (vault.Add sample.other_url) sample.added) = Holds v1 /\
    map types.Name (types.Repos v1) = ["test-repo"; "other"] /\
    validation.Vault_Validate v1 = None /\
    vault_dirs (sample.after (vault.Add sample.other_url) sample.added) !! "other" =
      Some (Holds md) /\
    types.VaultURL md = sample.other_url /\
    validation.RepoMetadata_Validate md = None.
Proof.
  assert (H : vault.Add sample.other_url sample.added =
              (Ok tt, sample.after (vault.Add sample.other_url) sample.added))
    by (vm_compute; reflexivity).
  destruct (Add_keeps_vault_valid sample.other_url sample.added _
              (types.mkVault [types.mkVaultEntry "test-repo" sample.repo_url 100])
              eq_refl H)
    as (url & name & md & Hv & Hn & Hidx & Hval & Hmd & Hurl & Hmv);
    [vm_compute; reflexivity | reflexivity |].
  assert (Hv' : vault.validateURLOrPath sample.other_url sample.added =
                (Ok sample.other_url, sample.added)) by (vm_compute; reflexivity).
  rewrite Hv' in Hv. injection Hv as <-.
  assert (Hn' : vault.extractRepoName sample.other_url sample.added =
                (Ok "other", sample.added)) by (vm_compute; reflexivity).
  rewrite Hn' in Hn. injection Hn as <-.
  eexists. exists md. split; [exact Hidx|].
  split; [reflexivity|]. split; [exact Hval|]. split; [exact Hmd|].
  split; [exact Hurl | exact Hmv].
Defined.

(** ** An index that cannot be read *)

Lemma loadVault_unreadable w :
  vault_index w = Unreadable \/ vault_index w = Garbled ->
  exists e, vault.loadVault w = (Err e, w).
Proof.
  intros [H|H]; unfold vault.loadVault, bind, gets, or_wrap, os.ReadFile_vault; simpl;
    rewrite H; simpl; rewrite ?H; simpl; eexists; reflexivity.
Qed.

(** X5: an index file that is present but cannot be read or parsed is
    never treated as empty and never overwritten: [List], [Get] and [Add]
    all fail, whatever their argument, and leave the world as it was. *)
Theorem unreadable_index_is_not_overwritten w :
  vault_index w = Unreadable \/ vault_index w = Garbled ->
  (exists e, vault.List w = (Err e, w)) /\
  (forall name, exists e, vault.Get name w = (Err e, w)) /\
  (forall urlOrPath, exists e, vault.Add urlOrPath w = (Err e, w)).
Proof.
  intros H. destruct (loadVault_unreadable w H) as [e He].
  split; [|split].
  - eexists. unfold vault.List. apply bind_Err, or_wrap_Err, He.
  - intros name. eexists. unfold vault.Get. apply bind_Err, or_wrap_Err, He.
  - intros urlOrPath. unfold vault.Add.
    destruct (vault.validateURLOrPath urlOrPath w) as [[url|e1] w1] eqn:Hv.
    + pose proof (reads_inv _ _ _ _ (reads_validateURLOrPath urlOrPath) Hv) as ->.
      rewrite (bind_Ok _ _ w url w) by now apply or_wrap_Ok.
      destruct (vault.extractRepoName url w) as [[name|e2] w1] eqn:Hn.
      * pose proof (reads_inv _ _ _ _ (reads_extractRepoName url) Hn) as ->.
        rewrite (bind_Ok _ _ w name w) by now apply or_wrap_Ok.
        eexists. apply bind_Err, or_wrap_Err, He.
      * pose proof (reads_inv _ _ _ _ (reads_extractRepoName url) Hn) as ->.
        eexists. apply bind_Err, or_wrap_Err, Hn.
    + pose proof (reads_inv _ _ _ _ (reads_validateURLOrPath urlOrPath) Hv) as ->.
      eexists. apply bind_Err, or_wrap_Err, Hv.
Qed.

(** X5 at a sample world whose index is not JSON. *)
Lemma unreadable_index_is_not_overwritten_witness :
  exists e, vault.Add sample.repo_url scenario.garbled_index = (Err e, scenario.garbled_index).
Proof.
  destruct (unreadable_index_is_not_overwritten scenario.garbled_index) as (_ & _ & H).
  - right. reflexivity.
  - exact (H sample.repo_url).
Defined.

(** ** An [Add] that fails half way *)

Lemma Stat_local_depends l w w2 :
  cwd w2 = cwd w -> locals w2 = locals w ->
  match l with outside _ | dot_git _ => True | _ => False end ->
  os.Stat l w2 = os.Stat l w.
Proof.
  intros Hc Hl. destruct l; try contradiction; intros _;
    unfold os.Stat, os.Abs; now rewrite Hc, Hl.
Qed.

Lemma validateURLOrPath_depends urlOrPath w w2 :
  cwd w2 = cwd w -> locals w2 = locals w ->
  fst (vault.validateURLOrPath urlOrPath w2) = fst (vault.validateURLOrPath urlOrPath w).
Proof.
  intros Hc Hl. unfold vault.validateURLOrPath.
  destruct (String.eqb urlOrPath ""); [reflexivity|].
  destruct (vault.is_remote_form urlOrPath).
  - unfold vault.validateURL. now destruct (negb _).
  - assert (Ha : os.Abs w2 urlOrPath = os.Abs w urlOrPath)
      by (unfold os.Abs; now rewrite Hc).
    unfold vault.validateLocalPath, bind, gets. cbn -[os.Stat os.Abs].
    rewrite Ha, !(Stat_local_depends _ w w2 Hc Hl) by exact I.
    destruct (os.IsNotExist (os.Stat (outside (os.Abs w urlOrPath)) w)); [reflexivity|].
    cbn -[os.Stat os.Abs].
    rewrite (Stat_local_depends _ w w2 Hc Hl) by exact I.
    now destruct (os.IsNotExist (os.Stat (dot_git (os.Abs w urlOrPath)) w)).
Qed.

Lemma extractRepoName_depends url w w2 :
  fst (vault.extractRepoName url w2) = fst (vault.extractRepoName url w).
Proof.
  unfold vault.extractRepoName, vault.extractNameFromURL.
  repeat (match goal with
          | |- context [if ?b then _ else _] => destruct b
          end; simpl; try reflexivity).
Qed.

Lemma createMetadata_cwd name url : preserves cwd (vault.createMetadata name url).
Proof.
  unfold vault.createMetadata. solve_preserves.
  - unfold os.MkdirAll. preserves_prim.
  - unfold os.WriteFile_metadata. preserves_prim.
Qed.

Lemma createMetadata_locals name url : preserves locals (vault.createMetadata name url).
Proof.
  unfold vault.createMetadata. solve_preserves.
  - unfold os.MkdirAll. preserves_prim.
  - unfold os.WriteFile_metadata. preserves_prim.
Qed.

(** X6: [Add] is not undone when its last step fails.  If it fails while
    creating the metadata, the vault index has already been written with
    the new entry, so the same [Add] tried again is refused as a
    duplicate. *)
Theorem Add_metadata_failure_keeps_entry urlOrPath w e w' :
  vault.Add urlOrPath w = (Err (Errorf_w "failed to create metadata" e), w') ->
  exists name url v0,
    vault.loadVault w = (Ok v0, w) /\
    vault_index w' =
      Holds (types.mkVault (types.Repos v0 ++ [types.mkVaultEntry name url (now w)])) /\
    vault.Add urlOrPath w' =
      (Err (Errorf ("repository '" +:+ name +:+ "' already exists in vault")), w').
Proof.
  intros H. unfold vault.Add in H. unfold bind at 1 in H.
  destruct (or_wrap_result (vault.validateURLOrPath urlOrPath) "validation failed" w)
    as [(url & w1 & E)|(e1 & w1 & E)]; rewrite E in H; [|discriminate H].
  apply or_wrap_Ok_inv in E.
  pose proof (reads_inv _ _ _ _ (reads_validateURLOrPath urlOrPath) E) as ->.
  rename E into Hv. unfold bind at 1 in H.
  destruct (or_wrap_result (vault.extractRepoName url) "failed to extract repository name" w)
    as [(name & w1 & E)|(e1 & w1 & E)]; rewrite E in H; [|discriminate H].
  apply or_wrap_Ok_inv in E.
  pose proof (reads_inv _ _ _ _ (reads_extractRepoName url) E) as ->.
  rename E into Hn. unfold bind at 1 in H.
  destruct (or_wrap_result vault.loadVault "failed to load vault" w)
    as [(v0 & w1 & E)|(e1 & w1 & E)]; rewrite E in H; [|discriminate H].
  apply or_wrap_Ok_inv in E.
  pose proof (reads_inv _ _ _ _ reads_loadVault E) as ->.
  rename E into Hl.
  destruct (vault.repoExists v0 name) eqn:Hex; [discriminate H|].
  unfold bind at 1 in H. unfold time_Now at 1, gets at 1 in H. unfold bind at 1 in H.
  set (v1 := types.mkVault (types.Repos v0 ++ [types.mkVaultEntry name url (now w)])) in *.
  destruct (or_wrap_result (vault.saveVault v1) "failed to save vault" w)
    as [([] & w2 & E)|(e1 & w2 & E)]; rewrite E in H; [|discriminate H].
  apply or_wrap_Ok_inv in E. unfold vault.saveVault in E. apply or_wrap_Ok_inv in E.
  unfold os.WriteFile_vault in E.
  destruct (vault_writable w); [|discriminate E]. injection E as <-.
  unfold bind at 1 in H.
  destruct ((vault.createMetadata name url ?: "failed to create metadata")
              (set_vault_index (Holds v1) w)) as [[[]|e2] w3] eqn:E.
  { unfold Println, modify in H. discriminate H. }
  injection H as _ <-.
  unfold or_wrap in E.
  destruct (vault.createMetadata name url (set_vault_index (Holds v1) w))
    as [[[]|e3] w4] eqn:Hc; [discriminate E|]. injection E as _ <-.
  pose proof (preserves_inv vault_index _ _ _ _ (createMetadata_vault_index name url) Hc)
    as Hidx.
  pose proof (preserves_inv cwd _ _ _ _ (createMetadata_cwd name url) Hc) as Hcwd.
  pose proof (preserves_inv locals _ _ _ _ (createMetadata_locals name url) Hc) as Hloc.
  simpl in Hidx, Hcwd, Hloc.
  exists name, url, v0. split; [exact Hl|]. split; [exact Hidx|].
  assert (Hv4 : vault.validateURLOrPath urlOrPath w4 = (Ok url, w4)).
  { rewrite (reads_eq _ w4 (reads_validateURLOrPath urlOrPath)).
    rewrite (validateURLOrPath_depends urlOrPath w w4 Hcwd Hloc), Hv. reflexivity. }
  assert (Hn4 : vault.extractRepoName url w4 = (Ok name, w4)).
  { rewrite (reads_eq _ w4 (reads_extractRepoName url)).
    rewrite (extractRepoName_depends url w w4), Hn. reflexivity. }
  unfold vault.Add.
  rewrite (bind_Ok _ _ w4 url w4) by now apply or_wrap_Ok.
  rewrite (bind_Ok _ _ w4 name w4) by now apply or_wrap_Ok.
  rewrite (bind_Ok _ _ w4 v1 w4) by (apply or_wrap_Ok; now apply loadVault_Holds).
  unfold vault.repoExists, v1. simpl. rewrite existsb_app. simpl.
  rewrite String.eqb_refl, orb_true_r. reflexivity.
Qed.

(** X6 at a sample input: the repository [vault.json.git] resolves to the
    name of the index file, so its metadata directory cannot be made. *)
Lemma Add_metadata_failure_keeps_entry_witness :
  exists w',
    is_ok (fst (vault.Add scenario.index_name_url sample.fresh)) = false /\
    w' = sample.after (vault.Add scenario.index_name_url) sample.fresh /\
    vault.Add scenario.index_name_url w' =
      (Err (Errorf "repository 'vault.json' already exists in vault"), w').
Proof.
  set (w' := sample.after (vault.Add scenario.index_name_url) sample.fresh).
  assert (H : vault.Add scenario.index_name_url sample.fresh =
              (Err (Errorf_w "failed to create metadata"
                      (Errorf_w "failed to create metadata directory"
                         (os.PathError "mkdir" os.ErrNotDir))), w'))
    by (vm_compute; reflexivity).
  destruct (Add_metadata_failure_keeps_entry _ _ _ _ H) as (name & url & v0 & Hl & Hidx & HA).
  exists w'. split; [now rewrite H|]. split; [reflexivity|].
  assert (Hname : name = "vault.json").
  { assert (Hi : vault_index w' =
                 Holds (types.mkVault [types.mkVaultEntry "vault.json"
                                         scenario.index_name_url 100]))
      by (vm_compute; reflexivity).
    rewrite Hi in Hidx. injection Hidx as Hidx.
    destruct (types.Repos v0) as [|x [|y l]]; simpl in Hidx.
    - now injection Hidx as -> _.
    - discriminate Hidx.
    - injection Hidx as _ Hidx. destruct l; discriminate Hidx. }
  rewrite Hname in HA. exact HA.
Defined.

(** ** What the pristine manager leaves alone *)

Ltac frame_prim :=
  let w := fresh "w" in
  unfold preserves; intros w; cbv beta;
  repeat case_match; simpl;
  rewrite ?lookup_insert_ne, ?lookup_delete_ne by congruence;
  reflexivity.

Lemma preserves_Println {X} (f : World -> X) :
  (forall l w, f (set_stdout l w) = f w) -> forall line, preserves f (Println line).
Proof. intros H line w. apply H. Qed.

Lemma reads_PlainOpen path : reads (gogit.PlainOpen path).
Proof. intros w. unfold gogit.PlainOpen. now destruct (gogit.repo_at w path). Qed.

Lemma reads_Head repo : reads (gogit.Head repo).
Proof. intros w. unfold gogit.Head. repeat case_match; reflexivity. Qed.

Lemma reads_CommitObject repo h : reads (gogit.CommitObject repo h).
Proof. intros w. unfold gogit.CommitObject. repeat case_match; reflexivity. Qed.

Lemma reads_Remote repo name : reads (gogit.Remote repo name).
Proof. intros w. unfold gogit.Remote. repeat case_match; reflexivity. Qed.

Lemma reads_Worktree repo : reads (gogit.Worktree repo).
Proof. intros w. unfold gogit.Worktree. repeat case_match; reflexivity. Qed.

Lemma reads_ReadFile_text path : reads (os.ReadFile_text path).
Proof. intros w. unfold os.ReadFile_text. repeat case_match; reflexivity. Qed.

Lemma reads_try {A} (c : IO A) : reads c -> reads (try c).
Proof. intros H w. rewrite try_eq. apply H. Qed.

Lemma reads_readme_of path files : reads (pristine.readme_of path files).
Proof.
  induction files as [|file rest IH]; simpl; [apply reads_ret|].
  apply reads_bind; [apply reads_gets|]. intros err.
  apply reads_if; [|exact IH].
  apply reads_bind; [apply reads_try, reads_ReadFile_text|]. intros content.
  destruct content; [|exact IH]. apply reads_if; apply reads_ret.
Qed.

Lemma reads_extractRepoInfo path : reads (pristine.extractRepoInfo path).
Proof.
  unfold pristine.extractRepoInfo. solve_reads.
  - apply reads_PlainOpen.
  - apply reads_Head.
  - apply reads_CommitObject.
  - apply reads_readme_of.
Qed.

Lemma preserves_bind_val {X A B} (f : World -> X) (P : A -> Prop) (c : IO A) (k : A -> IO B) :
  (forall w a w1, c w = (Ok a, w1) -> P a) ->
  preserves f c -> (forall a, P a -> preserves f (k a)) -> preserves f (bind c k).
Proof.
  intros HP Hc Hk w. unfold bind. specialize (Hc w). specialize (HP w).
  destruct (c w) as [[a|e] w1]; simpl in *.
  - rewrite (Hk a); [exact Hc | now apply (HP a w1)].
  - exact Hc.
Qed.

Lemma preserves_range {X A S} (f : World -> X) (body : A -> S -> IO S) (xs : list A) :
  (forall x acc, In x xs -> preserves f (body x acc)) ->
  forall acc, preserves f (range xs body acc).
Proof.
  induction xs as [|x rest IH]; intros H acc; simpl.
  - apply preserves_ret.
  - apply preserves_bind; [apply H; now left|].
    intros acc'. apply IH. intros y a Hy. apply H. now right.
Qed.

(** [updateMetadata] changes the world through one call only. *)
Lemma updateMetadata_frame {X} (f : World -> X) vaultName info :
  (forall md, preserves f (os.WriteFile_metadata (metadata_json vaultName) md)) ->
  preserves f (pristine.updateMetadata vaultName info).
Proof.
  intros Hwrite. unfold pristine.updateMetadata. solve_preserves.
  - apply preserves_ReadFile_metadata.
  - apply preserves_json_Unmarshal.
  - apply Hwrite.
Qed.

(** [Init] changes the world through its clone, its metadata update and
    the line it prints. *)
Lemma Init_frame_meta {X} (f : World -> X) vaultName :
  preserves f (os.MkdirAll (pristine_dir vaultName)) ->
  (forall o, preserves f (gogit.PlainClone (pristine_dir vaultName) false o)) ->
  (forall info, preserves f (pristine.updateMetadata vaultName info)) ->
  (forall l w, f (set_stdout l w) = f w) ->
  preserves f (pristine.Init vaultName).
Proof.
  intros Hmk Hclone Hmeta Hout.
  unfold pristine.Init, pristine.cloneAsReference.
  solve_preserves.
  - apply preserves_reads, reads_loadRepoFromVault.
  - apply Hmk.
  - apply Hclone.
  - apply preserves_reads, reads_extractRepoInfo.
  - apply Hmeta.
  - now apply preserves_Println.
Qed.

(** [Init] changes the world through four calls only. *)
Lemma Init_frame {X} (f : World -> X) vaultName :
  preserves f (os.MkdirAll (pristine_dir vaultName)) ->
  (forall o, preserves f (gogit.PlainClone (pristine_dir vaultName) false o)) ->
  (forall md, preserves f (os.WriteFile_metadata (metadata_json vaultName) md)) ->
  (forall l w, f (set_stdout l w) = f w) ->
  preserves f (pristine.Init vaultName).
Proof.
  intros Hmk Hclone Hwrite Hout. apply Init_frame_meta; auto.
  intros info. now apply updateMetadata_frame.
Qed.

Lemma PlainOpen_val path w a w1 : gogit.PlainOpen path w = (Ok a, w1) -> a = path.
Proof.
  unfold gogit.PlainOpen. destruct (gogit.repo_at w path); intros H; now inversion H.
Qed.

Lemma Worktree_val repo w a w1 : gogit.Worktree repo w = (Ok a, w1) -> a = repo.
Proof.
  unfold gogit.Worktree. destruct (gogit.repo_at w repo) as [r|]; [|discriminate].
  destruct (git.bare r); intros H; now inversion H.
Qed.

(** [Sync] changes the world through its pull, its reset, the listing of
    the remote, its metadata update and the line it prints. *)
Lemma Sync_frame_meta {X} (f : World -> X) vaultName :
  (forall o, preserves f (gogit.Pull (pristine_dir vaultName) o)) ->
  (forall h, preserves f (gogit.Reset_hard (pristine_dir vaultName) h)) ->
  (forall remote o, preserves f (gogit.List remote o)) ->
  (forall info, preserves f (pristine.updateMetadata vaultName info)) ->
  (forall l w, f (set_stdout l w) = f w) ->
  preserves f (pristine.Sync vaultName).
Proof.
  intros Hpull Hreset Hlist Hmeta Hout.
  unfold pristine.Sync. apply preserves_bind; [apply preserves_gets|]. intros err.
  apply preserves_if; [apply preserves_fail|].
  apply (preserves_bind_val f (fun a => a = pristine_dir vaultName)).
  { intros w a w1 H. apply or_wrap_Ok_inv in H. now apply PlainOpen_val in H. }
  { apply preserves_or_wrap, preserves_reads, reads_PlainOpen. }
  intros repo ->.
  apply (preserves_bind_val f (fun a => a = pristine_dir vaultName)).
  { intros w a w1 H. apply or_wrap_Ok_inv in H. now apply Worktree_val in H. }
  { apply preserves_or_wrap, preserves_reads, reads_Worktree. }
  intros worktree ->.
  apply preserves_bind; [apply preserves_try, Hpull|]. intros pulled.
  apply preserves_bind.
  { destruct pulled; [apply preserves_ret|]. apply preserves_if; [apply preserves_fail | apply preserves_ret]. }
  intros _. apply preserves_bind.
  { apply preserves_or_wrap. unfold pristine.hardResetToOrigin.
    apply preserves_bind; [apply preserves_or_wrap, preserves_reads, reads_Remote|].
    intros origin. apply preserves_bind; [apply preserves_or_wrap, Hlist|]. intros refs.
    destruct (pristine.find_default_branch refs); [|apply preserves_fail].
    apply (preserves_bind_val f (fun a => a = pristine_dir vaultName)).
    { intros w a w1 H. apply or_wrap_Ok_inv in H. now apply Worktree_val in H. }
    { apply preserves_or_wrap, preserves_reads, reads_Worktree. }
    intros worktree ->. apply preserves_or_wrap, Hreset. }
  intros _. solve_preserves.
  - apply preserves_reads, reads_extractRepoInfo.
  - apply Hmeta.
  - now apply preserves_Println.
Qed.

(** [Sync] changes the world through five calls only. *)
Lemma Sync_frame {X} (f : World -> X) vaultName :
  (forall o, preserves f (gogit.Pull (pristine_dir vaultName) o)) ->
  (forall h, preserves f (gogit.Reset_hard (pristine_dir vaultName) h)) ->
  (forall remote o, preserves f (gogit.List remote o)) ->
  (forall md, preserves f (os.WriteFile_metadata (metadata_json vaultName) md)) ->
  (forall l w, f (set_stdout l w) = f w) ->
  preserves f (pristine.Sync vaultName).
Proof.
  intros Hpull Hreset Hlist Hwrite Hout. apply Sync_frame_meta; auto.
  intros info. now apply updateMetadata_frame.
Qed.

Lemma MkdirAll_elsewhere_pristine name other :
  other <> name -> preserves (fun w => pristines w !! other) (os.MkdirAll (pristine_dir name)).
Proof. intros Hne. unfold os.MkdirAll. frame_prim. Qed.

Lemma PlainClone_elsewhere_pristine name other isBare o :
  other <> name ->
  preserves (fun w => pristines w !! other) (gogit.PlainClone (pristine_dir name) isBare o).
Proof. intros Hne. unfold gogit.PlainClone, gogit.store_repo, gogit.log_request. frame_prim. Qed.

Lemma Pull_elsewhere_pristine name other o :
  other <> name ->
  preserves (fun w => pristines w !! other) (gogit.Pull (pristine_dir name) o).
Proof. intros Hne. unfold gogit.Pull, gogit.store_repo, gogit.log_request. frame_prim. Qed.

Lemma Reset_hard_elsewhere_pristine name other h :
  other <> name ->
  preserves (fun w => pristines w !! other) (gogit.Reset_hard (pristine_dir name) h).
Proof. intros Hne. unfold gogit.Reset_hard, gogit.store_repo. frame_prim. Qed.

Lemma WriteFile_metadata_elsewhere name other md :
  other <> name ->
  preserves (fun w => vault_dirs w !! other) (os.WriteFile_metadata (metadata_json name) md).
Proof. intros Hne. unfold os.WriteFile_metadata. frame_prim. Qed.

Lemma List_frame {X} (f : World -> X) remote o :
  (forall l w, f (set_net_log l w) = f w) -> preserves f (gogit.List remote o).
Proof.
  intros H w. unfold gogit.List, gogit.log_request.
  repeat case_match; simpl; rewrite ?H; reflexivity.
Qed.

Ltac Init_field f :=
  apply (Init_frame f);
  [ unfold os.MkdirAll; frame_prim
  | intros ?; unfold gogit.PlainClone, gogit.log_request; frame_prim
  | intros ?; unfold os.WriteFile_metadata; frame_prim
  | reflexivity ].

Lemma Init_vault_index name : preserves vault_index (pristine.Init name).
Proof. Init_field vault_index. Qed.

Lemma Init_clones name : preserves clones (pristine.Init name).
Proof. Init_field clones. Qed.

Lemma Init_locals name : preserves locals (pristine.Init name).
Proof. Init_field locals. Qed.

Lemma Init_other_pristine name other :
  other <> name -> preserves (fun w => pristines w !! other) (pristine.Init name).
Proof.
  intros Hne. apply (Init_frame (fun w => pristines w !! other)); try reflexivity.
  - now apply MkdirAll_elsewhere_pristine.
  - intros o. now apply PlainClone_elsewhere_pristine.
  - intros md. unfold os.WriteFile_metadata. frame_prim.
Qed.

Lemma Init_other_metadata name other :
  other <> name -> preserves (fun w => vault_dirs w !! other) (pristine.Init name).
Proof.
  intros Hne. apply (Init_frame (fun w => vault_dirs w !! other)); try reflexivity.
  - unfold os.MkdirAll. frame_prim.
  - intros o. unfold gogit.PlainClone, gogit.log_request. frame_prim.
  - intros md. now apply WriteFile_metadata_elsewhere.
Qed.

(** X7: [Init] of a name touches nothing that belongs to another name
    and nothing of the vault index or of the clones: whatever it returns,
    the vault index, the clone directories, the paths outside, and the
    pristine directory and metadata file of every other name are as they
    were. *)
Theorem Init_touches_one_name vaultName w :
  let w' := snd (pristine.Init vaultName w) in
  vault_index w' = vault_index w /\
  clones w' = clones w /\
  locals w' = locals w /\
  forall other, other <> vaultName ->
    pristines w' !! other = pristines w !! other /\
    vault_dirs w' !! other = vault_dirs w !! other.
Proof.
  cbv zeta. split; [|split; [|split]].
  - apply Init_vault_index.
  - apply Init_clones.
  - apply Init_locals.
  - intros other Hne. split.
    + now apply (Init_other_pristine vaultName other).
    + now apply (Init_other_metadata vaultName other).
Qed.

Lemma Pull_dom name o :
  preserves (fun w => dom (pristines w)) (gogit.Pull (pristine_dir name) o).
Proof.
  intros w. unfold gogit.Pull, gogit.repo_at, gogit.dir_at.
  destruct (pristines w !! name) as [d|] eqn:E; [|reflexivity].
  destruct d as [|r]; [reflexivity|].
  repeat case_match; try reflexivity;
    simpl; apply dom_insert_lookup_L; now rewrite E.
Qed.

Lemma Reset_hard_dom name h :
  preserves (fun w => dom (pristines w)) (gogit.Reset_hard (pristine_dir name) h).
Proof.
  intros w. unfold gogit.Reset_hard, gogit.repo_at, gogit.dir_at.
  destruct (pristines w !! name) as [d|] eqn:E; [|reflexivity].
  destruct d as [|r]; [reflexivity|].
  repeat case_match; try reflexivity;
    simpl; apply dom_insert_lookup_L; now rewrite E.
Qed.

Lemma WriteFile_metadata_dom path md :
  preserves (fun w => dom (vault_dirs w)) (os.WriteFile_metadata path md).
Proof.
  intros w. unfold os.WriteFile_metadata.
  destruct path; try reflexivity.
  destruct (vault_dirs w !! name) eqn:E; [|reflexivity].
  destruct (vault_writable w); [|reflexivity].
  simpl. apply dom_insert_lookup_L. now rewrite E.
Qed.

Ltac Sync_field f :=
  apply (Sync_frame f);
  [ intros ?; unfold gogit.Pull, gogit.log_request; frame_prim
  | intros ?; unfold gogit.Reset_hard; frame_prim
  | intros ? ?; now apply List_frame
  | intros ?; unfold os.WriteFile_metadata; frame_prim
  | reflexivity ].

Lemma Sync_vault_index name : preserves vault_index (pristine.Sync name).
Proof. Sync_field vault_index. Qed.

Lemma Sync_clones name : preserves clones (pristine.Sync name).
Proof. Sync_field clones. Qed.

Lemma Sync_locals name : preserves locals (pristine.Sync name).
Proof. Sync_field locals. Qed.

Lemma Sync_other_pristine name other :
  other <> name -> preserves (fun w => pristines w !! other) (pristine.Sync name).
Proof.
  intros Hne. apply (Sync_frame (fun w => pristines w !! other)); try reflexivity.
  - intros o. now apply Pull_elsewhere_pristine.
  - intros h. now apply Reset_hard_elsewhere_pristine.
  - intros remote o. now apply List_frame.
  - intros md. unfold os.WriteFile_metadata. frame_prim.
Qed.

Lemma Sync_other_metadata name other :
  other <> name -> preserves (fun w => vault_dirs w !! other) (pristine.Sync name).
Proof.
  intros Hne. apply (Sync_frame (fun w => vault_dirs w !! other)); try reflexivity.
  - intros o. unfold gogit.Pull, gogit.log_request. frame_prim.
  - intros h. unfold gogit.Reset_hard. frame_prim.
  - intros remote o. now apply List_frame.
  - intros md. now apply WriteFile_metadata_elsewhere.
Qed.

(** X8: [Sync] of a name that is a file name, the three directories
    lying apart, creates and removes no directory: the pristine
    directories and the metadata directories are the same set of names
    before and after.  It touches nothing that belongs to another name,
    and nothing of the vault index, of the clones or of the paths
    outside. *)
Theorem Sync_touches_one_name vaultName w :
  plain_name vaultName ->
  separate_roots w ->
  let w' := snd (pristine.Sync vaultName w) in
  dom (pristines w') = dom (pristines w) /\
  dom (vault_dirs w') = dom (vault_dirs w) /\
  vault_index w' = vault_index w /\
  clones w' = clones w /\
  locals w' = locals w /\
  forall other, other <> vaultName ->
    pristines w' !! other = pristines w !! other /\
    vault_dirs w' !! other = vault_dirs w !! other.
Proof.
  intros _ _. cbv zeta. split; [|split; [|split; [|split; [|split]]]].
  - apply (Sync_frame (fun w => dom (pristines w))); try reflexivity.
    + apply Pull_dom.
    + apply Reset_hard_dom.
    + intros remote o. now apply List_frame.
    + intros md. unfold os.WriteFile_metadata. frame_prim.
  - apply (Sync_frame (fun w => dom (vault_dirs w))); try reflexivity.
    + intros o. unfold gogit.Pull, gogit.log_request. frame_prim.
    + intros h. unfold gogit.Reset_hard. frame_prim.
    + intros remote o. now apply List_frame.
    + intros md. apply WriteFile_metadata_dom.
  - apply Sync_vault_index.
  - apply Sync_clones.
  - apply Sync_locals.
  - intros other Hne. split.
    + now apply (Sync_other_pristine vaultName other).
    + now apply (Sync_other_metadata vaultName other).
Qed.

(** X8 at the sample world: [sync test-repo] on the sample pristine. *)
Lemma Sync_touches_one_name_witness :
  let w := sample.initialised in
  let w' := snd (pristine.Sync "test-repo" w) in
  dom (pristines w') = dom (pristines w) /\
  dom (vault_dirs w') = dom (vault_dirs w) /\
  vault_index w' = vault_index w /\
  clones w' = clones w /\
  forall other, other <> "test-repo" -> pristines w' !! other = pristines w !! other.
Proof.
  intros w w'.
  assert (Hs : separate_roots w) by (vm_compute; reflexivity).
  destruct (Sync_touches_one_name "test-repo" w eq_refl Hs) as (H1 & H2 & H3 & H4 & _ & H6).
  split; [exact H1|]. split; [exact H2|]. split; [exact H3|]. split; [exact H4|].
  intros other Hne. now destruct (H6 other Hne).
Defined.

Lemma bulk_frame {X} (f : World -> X) (op : string -> IO unit) (label : string) repos :
  (forall repo, In repo repos -> preserves f (op (types.Name repo))) ->
  forall errors,
    preserves f
      (range repos
         (fun repo (errors : list string) =>
            let! err := try (op (types.Name repo)) in
            match err with
            | Err e => ret (errors ++ [label +:+ types.Name repo +:+ ": " +:+ Error e])
            | Ok _ => ret errors
            end) errors).
Proof.
  intros H. apply preserves_range. intros repo acc Hin.
  apply preserves_bind; [apply preserves_try, H, Hin|].
  intros err. destruct err; apply preserves_ret.
Qed.

Lemma not_listed_ne other (repos : list types.VaultEntry) repo :
  ~ In other (map types.Name repos) -> In repo repos -> other <> types.Name repo.
Proof. intros Hn Hin ->. apply Hn. now apply in_map. Qed.

(** X9: the bulk operations stay within the vault's list.  On a vault
    index listing the repositories [v], [InitAll] and [SyncAll] leave the
    pristine directory and the metadata file of every name that [v] does
    not list as they were, and neither changes the vault index or a clone
    directory. *)
Theorem bulk_touches_listed_names_only w v :
  vault_index w = Holds v ->
  forall w', w' = snd (pristine.InitAll w) \/ w' = snd (pristine.SyncAll w) ->
    vault_index w' = vault_index w /\
    clones w' = clones w /\
    forall other, ~ In other (names_of v) ->
      pristines w' !! other = pristines w !! other /\
      vault_dirs w' !! other = vault_dirs w !! other.
Proof.
  intros Hv w' Hw'.
  assert (Hgen : forall X (f : World -> X),
            (forall l w, f (set_stdout l w) = f w) ->
            (forall repo, In repo (types.Repos v) ->
               preserves f (pristine.Init (types.Name repo)) /\
               preserves f (pristine.Sync (types.Name repo))) ->
            f w' = f w).
  { intros X f Hout Hop.
    destruct Hw' as [-> | ->]; [unfold pristine.InitAll | unfold pristine.SyncAll];
      rewrite (bind_Ok _ _ w (types.Repos v) w)
        by (apply or_wrap_Ok; now apply loadAllReposFromVault_Holds).
    - apply (preserves_bind f).
      + apply (bulk_frame f pristine.Init). intros repo Hin. now apply Hop.
      + intros errors. apply preserves_if; [apply preserves_fail | now apply preserves_Println].
    - apply (preserves_bind f).
      + apply (bulk_frame f pristine.Sync). intros repo Hin. now apply Hop.
      + intros errors. apply preserves_if; [apply preserves_fail | now apply preserves_Println]. }
  split; [|split].
  - apply (Hgen _ vault_index); [reflexivity|]. intros repo _. split; intros w0.
    + apply Init_vault_index.
    + apply Sync_vault_index.
  - apply (Hgen _ clones); [reflexivity|]. intros repo _. split; intros w0.
    + apply Init_clones.
    + apply Sync_clones.
  - intros other Hn. split.
    + apply (Hgen _ (fun w => pristines w !! other)); [reflexivity|].
      intros repo Hin. pose proof (not_listed_ne _ _ _ Hn Hin) as Hne. split; intros w0.
      * now apply Init_other_pristine.
      * now apply Sync_other_pristine.
    + apply (Hgen _ (fun w => vault_dirs w !! other)); [reflexivity|].
      intros repo Hin. pose proof (not_listed_ne _ _ _ Hn Hin) as Hne. split; intros w0.
      * now apply Init_other_metadata.
      * now apply Sync_other_metadata.
Qed.

(** X9 at a sample world: a stray directory below the pristines
    directory, named by no vault entry, is still there after [InitAll]. *)
Lemma bulk_touches_listed_names_only_witness :
  pristines (snd (pristine.InitAll sample.stray_pristine)) !! "stray" = Some PlainDir.
Proof.
  assert (Hv : vault_index sample.stray_pristine =
               Holds (types.mkVault [types.mkVaultEntry "test-repo" sample.repo_url 100]))
    by (vm_compute; reflexivity).
  destruct (bulk_touches_listed_names_only sample.stray_pristine _ Hv
              (snd (pristine.InitAll sample.stray_pristine)) (or_introl eq_refl))
    as (_ & _ & H).
  destruct (H "stray") as [Hp _].
  - simpl. intros [E|[]]. discriminate E.
  - rewrite Hp. vm_compute. reflexivity.
Defined.

(** ** What [Clone] changes, and what a failed [Clone] leaves *)

Lemma set_net_log_id w : set_net_log (net_log w) w = w.
Proof. now destruct w. Qed.

Lemma PlainClone_clone_dir_inv name o w r w2 :
  gogit.PlainClone (clone_dir name) false o w = (r, w2) ->
  exists l,
    match r with
    | Ok _ =>
        exists c,
          clones_writable w = true /\
          w2 = set_clones (<[name := RepoDir c]> (clones w)) (set_net_log l w)
    | Err _ => w2 = set_net_log l w
    end.
Proof.
  unfold gogit.PlainClone. simpl. intros H.
  destruct (clones w !! name) as [[|r0]|];
    try (injection H as <- <-; exists (net_log w); now rewrite set_net_log_id);
    (destruct (clones_writable w) eqn:Hcw; simpl in H;
     [|injection H as <- <-; exists (net_log w); now rewrite set_net_log_id]);
    exists (net_log w ++ [git.mkNetCall "clone" (git.co_URL o) (git.co_Auth o)]);
    unfold gogit.log_request in H;
    repeat (match type of H with
            | context [match ?x with _ => _ end] => destruct x
            end);
    injection H as <- <-; try reflexivity;
    (eexists; split; reflexivity).
Qed.

Lemma addCloneToMetadata_inv repoName cloneName path w r w3 :
  clone.addCloneToMetadata repoName cloneName path w = (r, w3) ->
  match r with
  | Ok _ =>
      exists md,
        vault_dirs w !! repoName = Some (Holds md) /\
        vault_writable w = true /\
        w3 = set_vault_dirs
               (<[repoName :=
                    Holds (clone.with_Clones md
                             (types.Clones md ++
                                [types.mkClone cloneName (location_text w path) (now w)])
                             (now w))]> (vault_dirs w)) w
  | Err _ => w3 = w
  end.
Proof.
  unfold clone.addCloneToMetadata, clone.loadMetadata, clone.saveMetadata,
    bind, or_wrap, gets, time_Now, os.ReadFile_metadata, os.WriteFile_metadata.
  destruct (vault_dirs w !! repoName) as [[| | |md]|] eqn:E; simpl;
    try (intros H; inversion H; reflexivity).
  rewrite E. destruct (vault_writable w); simpl; intros H; inversion H; subst.
  - now exists md.
  - reflexivity.
Qed.

(** The outcomes of [Clone], for the name it resolves: on an error the
    world is as before but for the requests logged; on success it has one
    more clone directory, one more record in the metadata of the pristine,
    and one more line printed. *)
Lemma Clone_shape pristineName cloneName w r w' :
  clone.Clone pristineName cloneName w = (r, w') ->
  let name := if String.eqb cloneName ""
              then pristineName +:+ "-clone-" +:+ clone.Format (now w)
              else cloneName in
  exists l,
    match r with
    | Err _ => w' = set_net_log l w
    | Ok _ =>
        exists md c,
          clones w !! name = None /\
          is_Some (pristines w !! pristineName) /\
          clones_writable w = true /\
          vault_writable w = true /\
          vault_dirs w !! pristineName = Some (Holds md) /\
          w' = set_stdout (stdout w ++ ["Created clone '" +:+ name +:+ "'"])
                 (set_vault_dirs
                    (<[pristineName :=
                         Holds (clone.with_Clones md
                                  (types.Clones md ++
                                     [types.mkClone name (filepath.Join [clonesPath w; name])
                                        (now w)])
                                  (now w))]> (vault_dirs w))
                    (set_clones (<[name := RepoDir c]> (clones w)) (set_net_log l w)))
    end.
Proof.
  intros H name. unfold clone.Clone in H.
  unfold bind at 1 in H. unfold gets at 1 in H.
  destruct (os.IsNotExist (os.Stat (pristine_dir pristineName) w)) eqn:Hst.
  { injection H as <- <-. exists (net_log w). now rewrite set_net_log_id. }
  assert (Hsome : is_Some (pristines w !! pristineName)).
  { unfold os.Stat in Hst. destruct (pristines w !! pristineName); [eauto | discriminate Hst]. }
  clear Hst. unfold bind at 1 in H.
  assert (Hn : (if String.eqb cloneName "" then clone.generateCloneName pristineName
                else ret cloneName) w = (Ok name, w)).
  { unfold name. now destruct (String.eqb cloneName ""). }
  rewrite Hn in H. clear Hn.
  unfold bind at 1 in H. unfold clone.cloneExists at 1 in H.
  unfold bind at 1 in H. unfold gets at 1 in H. simpl in H.
  destruct (clones w !! name) eqn:Hfree; simpl in H.
  { injection H as <- <-. exists (net_log w). now rewrite set_net_log_id. }
  unfold bind at 1 in H. unfold or_wrap at 1 in H. unfold os.MkdirAll at 1 in H.
  rewrite Hfree in H.
  destruct (clones_writable w) eqn:Hcw.
  2:{ injection H as <- <-. exists (net_log w). now rewrite set_net_log_id. }
  set (w1 := set_clones (<[name := PlainDir]> (clones w)) w) in H.
  unfold bind at 1 in H. rewrite try_eq in H.
  unfold clone.cloneRepository in H. unfold or_wrap in H.
  destruct (gogit.PlainClone (clone_dir name) false
              (git.CloneOptions_URL (pristine_dir pristineName)) w1) as [r2 w2] eqn:Hclone.
  apply PlainClone_clone_dir_inv in Hclone as (l & Hclone). exists l.
  destruct r2 as [[]|e2]; simpl in H.
  - destruct Hclone as (c & _ & ->).
    unfold bind at 1 in H. rewrite try_eq in H.
    destruct (clone.addCloneToMetadata pristineName name (clone_dir name)
                (set_clones (<[name:=RepoDir c]> (clones w1)) (set_net_log l w1)))
      as [r3 w3] eqn:Hadd.
    apply addCloneToMetadata_inv in Hadd. destruct r3 as [[]|e3]; simpl in H.
    + destruct Hadd as (md & Hmd & Hvw & ->). unfold Println, modify in H.
      injection H as <- <-. exists md, c. simpl in *.
      repeat split; auto. now rewrite insert_insert_eq.
    + subst w3. unfold bind at 1 in H. rewrite try_eq in H.
      unfold os.RemoveAll in H. simpl in H. rewrite lookup_insert_eq, Hcw in H. simpl in H.
      injection H as <- <-. unfold set_clones, set_net_log. simpl.
      rewrite insert_insert_eq, delete_insert_id by exact Hfree. now destruct w.
  - subst w2. unfold bind at 1 in H. rewrite try_eq in H.
    unfold os.RemoveAll in H. simpl in H. rewrite lookup_insert_eq, Hcw in H. simpl in H.
    injection H as <- <-. unfold set_clones, set_net_log. simpl.
    rewrite delete_insert_id by exact Hfree. now destruct w.
Qed.

(** X10: a [Clone] that fails leaves no trace on disk, when the name of
    the pristine and the name of the clone (the one given, or the one
    generated when none is given) are file names and the three directories
    lie apart.  Whatever the step that failed, the clone directories, the
    pristines, the metadata files and the vault index are as they were
    before the call, and no line has been printed. *)
Theorem Clone_failure_leaves_no_trace pristineName cloneName w e w' :
  plain_name pristineName ->
  plain_name (if String.eqb cloneName ""
              then pristineName +:+ "-clone-" +:+ clone.Format (now w)
              else cloneName) ->
  separate_roots w ->
  clone.Clone pristineName cloneName w = (Err e, w') ->
  clones w' = clones w /\ pristines w' = pristines w /\
  vault_dirs w' = vault_dirs w /\ vault_index w' = vault_index w /\
  stdout w' = stdout w.
Proof.
  intros _ _ _ H. apply Clone_shape in H as (l & ->). now repeat split.
Qed.

(** X11: a [Clone] that succeeds, for names that are file names and
    three directories that lie apart, creates one clone directory, under
    a name that was free, and appends one record to the clone list of the
    pristine's metadata file: the name, the path of that name directly
    below the clones directory and the current time.  The new clone is
    tracked, the records that were in the list are kept in their order,
    and the success line is printed. *)
Theorem Clone_records_the_clone pristineName cloneName w w' :
  plain_name pristineName ->
  plain_name (if String.eqb cloneName ""
              then pristineName +:+ "-clone-" +:+ clone.Format (now w)
              else cloneName) ->
  separate_roots w ->
  clone.Clone pristineName cloneName w = (Ok tt, w') ->
  exists name md md',
    name = (if String.eqb cloneName ""
            then pristineName +:+ "-clone-" +:+ clone.Format (now w)
            else cloneName) /\
    vault_dirs w !! pristineName = Some (Holds md) /\
    vault_dirs w' = <[pristineName := Holds md']> (vault_dirs w) /\
    types.Clones md' =
      types.Clones md ++ [types.mkClone name (clonesPath w +:+ "/" +:+ name) (now w)] /\
    types.VaultURL md' = types.VaultURL md /\
    types.LastUpdated md' = now w /\
    dom (clones w') = {[name]} ∪ dom (clones w) /\
    (name ∉ dom (clones w)) /\
    tracked w' name /\
    stdout w' = stdout w ++ ["Created clone '" +:+ name +:+ "'"].
Proof.
  intros _ Hplain Hroots H.
  apply Clone_shape in H as (l & md & c & Hfree & _ & _ & _ & Hmd & ->).
  apply separate_roots_inv in Hroots as (_ & _ & Hroot & Hnot).
  eexists _, md, _. split; [reflexivity|]. split; [exact Hmd|]. split; [reflexivity|].
  simpl. repeat split; auto.
  - now rewrite (Join_plain _ _ Hroot Hnot Hplain).
  - apply dom_insert_L.
  - now apply not_elem_of_dom.
  - eexists pristineName, _. split.
    + simpl. apply lookup_insert_eq.
    + simpl. rewrite map_app. apply in_or_app. right. now left.
Qed.

(** X12: clone names generated in the same second collide.  After a
    [Clone] with no name given has succeeded, a second one for the same
    pristine, made while the clock still shows the same second and the
    first clone is still there, fails with the already-exists error and
    changes nothing. *)
Theorem generated_names_collide_within_a_second pristineName w w' w2 :
  clone.Clone pristineName "" w = (Ok tt, w') ->
  now w2 = now w ->
  pristines w2 = pristines w' ->
  clones w2 = clones w' ->
  clone.Clone pristineName "" w2 =
    (Err (Errorf ("clone '" +:+ (pristineName +:+ "-clone-" +:+ clone.Format (now w))
                  +:+ "' already exists")), w2).
Proof.
  intros H Hnow Hp Hc.
  assert (Hex : os.IsNotExist (os.Stat (pristine_dir pristineName) w) = false).
  { unfold clone.Clone in H. unfold bind at 1 in H. unfold gets at 1 in H.
    destruct (os.IsNotExist _); [discriminate H | reflexivity]. }
  apply Clone_shape in H as (l & md & c & _ & _ & _ & _ & _ & ->). simpl in Hp, Hc.
  unfold clone.Clone. unfold bind at 1. unfold gets at 1.
  assert (Hs : os.Stat (pristine_dir pristineName) w2 = os.Stat (pristine_dir pristineName) w).
  { unfold os.Stat. now rewrite Hp. }
  rewrite Hs, Hex. simpl.
  unfold clone.generateCloneName, clone.cloneExists, bind, time_Now, gets. simpl.
  rewrite Hnow, Hc, lookup_insert_eq. simpl. reflexivity.
Qed.

(** ** Removing a clone from the metadata *)

Lemma loadMetadata_Holds name w md :
  vault_dirs w !! name = Some (Holds md) ->
  clone.loadMetadata (metadata_json name) w = (Ok md, w).
Proof.
  intros H. unfold clone.loadMetadata, bind, or_wrap, os.ReadFile_metadata.
  now rewrite H.
Qed.

Lemma loadMetadata_inv name w r w' :
  clone.loadMetadata (metadata_json name) w = (r, w') ->
  w' = w /\ forall md, r = Ok md -> vault_dirs w !! name = Some (Holds md).
Proof.
  unfold clone.loadMetadata, bind, or_wrap, os.ReadFile_metadata.
  destruct (vault_dirs w !! name) as [[| | |md0]|]; simpl;
    intros H; inversion H; subst; split; try reflexivity; intros md E;
    try discriminate E.
  now injection E as ->.
Qed.

Lemma filter_all_or_less {A} (P : A -> Prop) `{forall x, Decision (P x)} (l : list A) :
  filter P l = l \/ (length (filter P l) < length l /\ exists x, In x l /\ ~ P x).
Proof.
  induction l as [|a l IH]; [now left|].
  destruct (decide (P a)) as [Ha|Ha].
  - rewrite filter_cons_True by exact Ha.
    destruct IH as [->|(Hlt & x & Hx & Hn)]; [now left|].
    right. split; [simpl; lia|]. exists x. split; [now right | exact Hn].
  - right. rewrite filter_cons_False by exact Ha. split.
    + pose proof (length_filter P l). simpl. lia.
    + exists a. split; [now left | exact Ha].
Qed.

Lemma listed_name (n : string) (l : list types.Clone) :
  In n (map types.clone_Name l) <-> exists c, In c l /\ ~ types.clone_Name c <> n.
Proof.
  rewrite in_map_iff. split; intros (c & H1 & H2).
  - exists c. split; [exact H2|]. intros Hne. now apply Hne.
  - exists c. split; [|exact H1]. now destruct (decide (types.clone_Name c = n)).
Qed.

Lemma filter_drops_name (n : string) (l : list types.Clone) :
  ~ In n (map types.clone_Name (filter (fun c => types.clone_Name c <> n) l)).
Proof.
  rewrite in_map_iff. intros (c & Hn & Hin).
  apply list_elem_of_In, list_elem_of_filter in Hin. now destruct Hin.
Qed.

Lemma filter_keeps_unlisted (n : string) (l : list types.Clone) :
  ~ In n (map types.clone_Name l) -> filter (fun c => types.clone_Name c <> n) l = l.
Proof.
  intros Hn. destruct (filter_all_or_less (fun c => types.clone_Name c <> n) l)
    as [E|(_ & x & Hx & Hp)]; [exact E|].
  exfalso. apply Hn, listed_name. now exists x.
Qed.

(** The loop of [removeCloneFromMetadata]: it writes at most one file,
    the first it meets that lists the clone. *)
Lemma removeClone_scan_inv n entries w r w' :
  clone.removeClone_scan n entries w = (r, w') ->
  match r with
  | Ok _ =>
      exists repo md,
        In (os.mkDirEntry repo true) entries /\
        vault_dirs w !! repo = Some (Holds md) /\
        In n (map types.clone_Name (types.Clones md)) /\
        w' = set_vault_dirs
               (<[repo :=
                    Holds (clone.with_Clones md
                             (filter (fun c => types.clone_Name c <> n) (types.Clones md))
                             (now w))]> (vault_dirs w)) w
  | Err _ => w' = w
  end.
Proof.
  induction entries as [|[ename isdir] rest IH]; simpl; intros H.
  - now inversion H.
  - assert (Hrest : clone.removeClone_scan n rest w = (r, w') ->
                    match r with
                    | Ok _ =>
                        exists repo md,
                          (os.mkDirEntry ename isdir = os.mkDirEntry repo true \/
                           In (os.mkDirEntry repo true) rest) /\
                          vault_dirs w !! repo = Some (Holds md) /\
                          In n (map types.clone_Name (types.Clones md)) /\
                          w' = set_vault_dirs
                                 (<[repo :=
                                      Holds (clone.with_Clones md
                                               (filter (fun c => types.clone_Name c <> n)
                                                  (types.Clones md))
                                               (now w))]> (vault_dirs w)) w
                    | Err _ => w' = w
                    end).
    { intros H0. apply IH in H0. destruct r; [|exact H0].
      destruct H0 as (repo & md & Hin & H0). exists repo, md. split; [now right | exact H0]. }
    destruct isdir; [|now apply Hrest].
    unfold bind at 1 in H. rewrite try_eq in H.
    destruct (clone.loadMetadata (metadata_json ename) w) as [r1 w1] eqn:El.
    apply loadMetadata_inv in El as [-> Hmd]. simpl in H.
    destruct r1 as [md|e1]; [|now apply Hrest].
    specialize (Hmd md eq_refl).
    destruct (filter_all_or_less (fun c => types.clone_Name c <> n) (types.Clones md))
      as [E|(Hlt & x & Hx & Hp)].
    + rewrite E, Nat.eqb_refl in H. simpl in H. now apply Hrest.
    + assert (Hneq : Nat.eqb (length (filter (fun c => types.clone_Name c <> n)
                                        (types.Clones md)))
                       (length (types.Clones md)) = false)
        by (apply Nat.eqb_neq; lia).
      rewrite Hneq in H. simpl in H.
      unfold bind, time_Now, gets, clone.saveMetadata, or_wrap, os.WriteFile_metadata in H.
      rewrite Hmd in H. destruct (vault_writable w); inversion H; subst; [|reflexivity].
      exists ename, md. split; [now left|]. split; [exact Hmd|]. split; [|reflexivity].
      apply listed_name. now exists x.
Qed.

Lemma removeCloneFromMetadata_inv n w r w' :
  clone.removeCloneFromMetadata n w = (r, w') ->
  match r with
  | Ok _ =>
      exists repo md,
        vault_dirs w !! repo = Some (Holds md) /\
        In n (map types.clone_Name (types.Clones md)) /\
        w' = set_vault_dirs
               (<[repo :=
                    Holds (clone.with_Clones md
                             (filter (fun c => types.clone_Name c <> n) (types.Clones md))
                             (now w))]> (vault_dirs w)) w
  | Err _ => w' = w
  end.
Proof.
  unfold clone.removeCloneFromMetadata, bind, or_wrap, os.ReadDir_vault.
  destruct (vault_listable w); [|intros H; now inversion H].
  intros H. apply removeClone_scan_inv in H. destruct r; [|exact H].
  destruct H as (repo & md & _ & H). now exists repo, md.
Qed.

Lemma ReadDir_vault_lists w repo x :
  vault_listable w = true ->
  vault_dirs w !! repo = Some x ->
  exists entries,
    os.ReadDir_vault w = (Ok entries, w) /\ In (os.mkDirEntry repo true) entries.
Proof.
  intros Hl Hx. unfold os.ReadDir_vault. rewrite Hl. eexists. split; [reflexivity|].
  eapply Permutation_in; [symmetry; apply merge_sort_Permutation|].
  apply in_or_app. right. apply in_map_iff. exists (repo, x). split; [reflexivity|].
  apply list_elem_of_In, elem_of_map_to_list. exact Hx.
Qed.

Lemma removeClone_scan_finds n entries w :
  vault_writable w = true ->
  (exists repo md,
     In (os.mkDirEntry repo true) entries /\
     vault_dirs w !! repo = Some (Holds md) /\
     In n (map types.clone_Name (types.Clones md))) ->
  fst (clone.removeClone_scan n entries w) = Ok tt.
Proof.
  intros Hw. induction entries as [|[ename isdir] rest IH]; simpl.
  - intros (repo & md & [] & _).
  - intros (repo & md & [Hhd|Hin] & Hmd & Hn).
    + injection Hhd as -> ->.
      unfold bind at 1. rewrite try_eq, (loadMetadata_Holds _ _ _ Hmd). simpl.
      destruct (filter_all_or_less (fun c => types.clone_Name c <> n) (types.Clones md))
        as [E|(Hlt & _)].
      * exfalso. apply (filter_drops_name n (types.Clones md)). now rewrite E.
      * assert (Hneq : Nat.eqb (length (filter (fun c => types.clone_Name c <> n)
                                          (types.Clones md)))
                         (length (types.Clones md)) = false)
          by (apply Nat.eqb_neq; lia).
        rewrite Hneq. simpl.
        unfold bind, time_Now, gets, clone.saveMetadata, or_wrap, os.WriteFile_metadata.
        rewrite Hmd, Hw. reflexivity.
    + assert (Hrest : fst (clone.removeClone_scan n rest w) = Ok tt)
        by (apply IH; now exists repo, md).
      destruct isdir; [|exact Hrest].
      unfold bind at 1. rewrite try_eq.
      destruct (clone.loadMetadata (metadata_json ename) w) as [r1 w1] eqn:El.
      apply loadMetadata_inv in El as [-> Hmd1]. simpl.
      destruct r1 as [md1|e1]; [|exact Hrest].
      specialize (Hmd1 md1 eq_refl).
      destruct (Nat.eqb _ _); simpl; [exact Hrest|].
      unfold bind, time_Now, gets, clone.saveMetadata, or_wrap, os.WriteFile_metadata.
      rewrite Hmd1, Hw. reflexivity.
Qed.

Lemma removeCloneFromMetadata_finds n w :
  vault_listable w = true ->
  vault_writable w = true ->
  tracked w n ->
  fst (clone.removeCloneFromMetadata n w) = Ok tt.
Proof.
  intros Hl Hw (repo & md & Hmd & Hn).
  destruct (ReadDir_vault_lists w repo _ Hl Hmd) as (entries & Hrd & Hin).
  unfold clone.removeCloneFromMetadata.
  rewrite (bind_Ok _ _ w entries w) by now apply or_wrap_Ok.
  apply removeClone_scan_finds; [exact Hw|]. now exists repo, md.
Qed.

(** X13: [removeCloneFromMetadata] rewrites one metadata file or none.
    When it returns nil, one file that listed the clone has been written
    back without the records of that name, the other records in their
    order, and nothing else in the world has changed; when it returns an
    error, nothing has changed at all. *)
Theorem removeCloneFromMetadata_outcomes cloneName w r w' :
  clone.removeCloneFromMetadata cloneName w = (r, w') ->
  match r with
  | Ok _ =>
      exists repo md md',
        vault_dirs w !! repo = Some (Holds md) /\
        In cloneName (map types.clone_Name (types.Clones md)) /\
        w' = set_vault_dirs (<[repo := Holds md']> (vault_dirs w)) w /\
        types.Clones md' =
          filter (fun c => types.clone_Name c <> cloneName) (types.Clones md) /\
        ~ In cloneName (map types.clone_Name (types.Clones md')) /\
        types.VaultURL md' = types.VaultURL md /\
        types.LastUpdated md' = now w
  | Err _ => w' = w
  end.
Proof.
  intros H. apply removeCloneFromMetadata_inv in H. destruct r; [|exact H].
  destruct H as (repo & md & Hmd & Hn & ->).
  eexists repo, md, _. split; [exact Hmd|]. split; [exact Hn|]. split; [reflexivity|].
  simpl. repeat split. apply filter_drops_name.
Qed.

(** X14: when the vault directory can be listed and written,
    [removeCloneFromMetadata] returns nil exactly for the clone names that
    some readable metadata file lists. *)
Theorem removeCloneFromMetadata_succeeds_iff_tracked cloneName w :
  vault_listable w = true ->
  vault_writable w = true ->
  fst (clone.removeCloneFromMetadata cloneName w) = Ok tt <-> tracked w cloneName.
Proof.
  intros Hl Hw. split.
  - destruct (clone.removeCloneFromMetadata cloneName w) as [r w'] eqn:E. simpl.
    intros ->. apply removeCloneFromMetadata_inv in E as (repo & md & Hmd & Hn & _).
    now exists repo, md.
  - now apply removeCloneFromMetadata_finds.
Qed.

(** ** [Destroy] *)

Lemma RemoveAll_inv path w r w' :
  os.RemoveAll path w = (r, w') ->
  match r with
  | Ok _ =>
      match path with
      | pristine_dir name => w' = w /\ pristines w !! name = None \/
                             w' = set_pristines (delete name (pristines w)) w
      | clone_dir name => w' = w /\ clones w !! name = None \/
                          w' = set_clones (delete name (clones w)) w
      | _ => False
      end
  | Err _ => w' = w
  end.
Proof.
  unfold os.RemoveAll. repeat case_match; intros Hret; inversion Hret; subst; auto.
Qed.

Lemma destroyClone_inv cloneName w r w' :
  clone.destroyClone cloneName w = (r, w') ->
  pristines w' = pristines w /\ vault_index w' = vault_index w /\
  (forall other, other <> cloneName -> clones w' !! other = clones w !! other) /\
  (r = Ok tt -> clones w' !! cloneName = None).
Proof.
  unfold clone.destroyClone. unfold bind at 1. unfold or_wrap.
  destruct (os.RemoveAll (clone_dir cloneName) w) as [r1 w1] eqn:Hrm.
  assert (Hgone : r1 = Ok tt -> clones w1 !! cloneName = None).
  { intros ->. now apply (RemoveAll_clone_gone cloneName w). }
  apply RemoveAll_inv in Hrm. destruct r1 as [[]|e1].
  2:{ subst w1. intros H. inversion H; subst. repeat split. discriminate. }
  specialize (Hgone eq_refl).
  unfold bind at 1. rewrite try_eq.
  destruct (clone.removeCloneFromMetadata cloneName w1) as [r2 w2] eqn:Hmeta.
  apply removeCloneFromMetadata_inv in Hmeta. simpl.
  assert (Hw2 : pristines w2 = pristines w1 /\ vault_index w2 = vault_index w1 /\
                clones w2 = clones w1).
  { destruct r2; [destruct Hmeta as (repo & md & _ & _ & ->) | subst w2]; now repeat split. }
  destruct Hw2 as (Hp2 & Hi2 & Hc2).
  assert (Hw1 : pristines w1 = pristines w /\ vault_index w1 = vault_index w /\
                forall other, other <> cloneName -> clones w1 !! other = clones w !! other).
  { destruct Hrm as [[-> _] | ->]; simpl; repeat split; auto.
    intros other Hne. now apply lookup_delete_ne. }
  destruct Hw1 as (Hp1 & Hi1 & Hc1).
  intros H.
  assert (Hfin : r = Ok tt /\ pristines w' = pristines w2 /\ vault_index w' = vault_index w2 /\
                 clones w' = clones w2).
  { destruct r2; unfold bind, ret, Eprintln, Println, modify in H; inversion H; subst;
      now repeat split. }
  destruct Hfin as (_ & -> & -> & ->).
  rewrite Hp2, Hi2, Hc2, Hp1, Hi1. repeat split; auto.
Qed.


Lemma destroyPristine_inv pristineName w r w' :
  clone.destroyPristine pristineName w = (r, w') ->
  vault_index w' = vault_index w /\ clones w' = clones w /\ vault_dirs w' = vault_dirs w /\
  forall other, other <> pristineName -> pristines w' !! other = pristines w !! other.
Proof.
  unfold clone.destroyPristine, bind, or_wrap, os.RemoveAll, Println, modify.
  destruct (pristines w !! pristineName); [destruct (pristines_writable w)|];
    intros H; injection H as <- <-; simpl; repeat split; auto.
  intros other Hne. now apply lookup_delete_ne.
Qed.

(** X15: [Destroy] of a target that is a file name, the three
    directories lying apart, removes at most one directory.  The vault
    index and every clone and pristine directory of another name are as
    they were; when the target names a clone directory, the pristines are
    untouched, even if a pristine bears the same name; and when the target
    names neither, [Destroy] fails and changes nothing. *)
Theorem Destroy_removes_at_most_one_directory target w :
  plain_name target ->
  separate_roots w ->
  let w' := snd (clone.Destroy target w) in
  vault_index w' = vault_index w /\
  (forall other, other <> target ->
     clones w' !! other = clones w !! other /\
     pristines w' !! other = pristines w !! other) /\
  (is_Some (clones w !! target) -> pristines w' = pristines w) /\
  (clones w !! target = None ->
   clones w' = clones w /\ vault_dirs w' = vault_dirs w) /\
  (clones w !! target = None -> pristines w !! target = None ->
   clone.Destroy target w =
     (Err (Errorf ("target '" +:+ target +:+ "' not found (not a clone or pristine)")), w)).
Proof.
  intros _ _. cbv zeta. unfold clone.Destroy, bind, gets. simpl.
  destruct (clones w !! target) as [d|] eqn:Hc; simpl.
  - destruct (clone.destroyClone target w) as [r w'] eqn:Hd.
    apply destroyClone_inv in Hd as (Hp & Hi & Ho & _). simpl.
    split; [exact Hi|]. split.
    { intros other Hne. split; [now apply Ho | now rewrite Hp]. }
    split; [intros _; exact Hp|]. split; discriminate.
  - destruct (pristines w !! target) as [p|] eqn:Hp; simpl.
    + destruct (clone.destroyPristine target w) as [r w'] eqn:Hd.
      apply destroyPristine_inv in Hd as (Hi & Hcl & Hd' & Ho). simpl.
      split; [exact Hi|]. split.
      { intros other Hne. split; [now rewrite Hcl | now apply Ho]. }
      split; [intros [x Hx]; discriminate Hx|]. split; [now split | discriminate].
    + split; [reflexivity|]. split; [now split|].
      split; [intros [x Hx]; discriminate Hx|]. split; [now split | reflexivity].
Qed.

(** X16: [Clone] followed by [Destroy] of the clone is a round trip, for
    names that are file names and three directories that lie apart.  When
    the vault directory can be listed and no metadata file already listed
    the clone's name, destroying a clone just made succeeds without a
    warning and puts back the clone directories, the pristines, the vault
    index and the clone list of the pristine's metadata as they were
    before the [Clone]. *)
Theorem Clone_Destroy_round_trip pristineName cloneName w w1 :
  clone.Clone pristineName cloneName w = (Ok tt, w1) ->
  let name := if String.eqb cloneName ""
              then pristineName +:+ "-clone-" +:+ clone.Format (now w)
              else cloneName in
  plain_name pristineName ->
  plain_name name ->
  separate_roots w ->
  vault_listable w = true ->
  ~ tracked w name ->
  exists w2 md md2,
    clone.Destroy name w1 = (Ok tt, w2) /\
    clones w2 = clones w /\
    pristines w2 = pristines w /\
    vault_index w2 = vault_index w /\
    vault_dirs w !! pristineName = Some (Holds md) /\
    vault_dirs w2 = <[pristineName := Holds md2]> (vault_dirs w) /\
    types.Clones md2 = types.Clones md /\
    stderr w2 = stderr w.
Proof.
  intros H name _ _ _ Hl Hnt.
  apply Clone_shape in H as (l & md & c & Hfree & _ & Hcw & Hvw & Hmd & ->).
  fold name in Hfree |- *.
  set (md1 := clone.with_Clones md
                (types.Clones md ++
                   [types.mkClone name (filepath.Join [clonesPath w; name]) (now w)]) (now w)).
  set (w1 := set_stdout _ _).
  set (w1' := set_clones (delete name (clones w1)) w1).
  assert (Hrm : os.RemoveAll (clone_dir name) w1 = (Ok tt, w1')).
  { unfold os.RemoveAll. simpl. now rewrite lookup_insert_eq, Hcw. }
  assert (Htr : tracked w1' name).
  { exists pristineName, md1. split; [simpl; apply lookup_insert_eq|].
    simpl. rewrite map_app. apply in_or_app. right. now left. }
  destruct (clone.removeCloneFromMetadata name w1') as [r2 w2] eqn:Hmeta.
  pose proof (removeCloneFromMetadata_finds name w1' Hl Hvw Htr) as Hr2.
  rewrite Hmeta in Hr2. simpl in Hr2. subst r2.
  pose proof (removeCloneFromMetadata_inv _ _ _ _ Hmeta) as (repo & md' & Hmd' & Hn' & Hw2).
  simpl in Hmd'.
  assert (repo = pristineName) as ->.
  { destruct (decide (repo = pristineName)) as [E|Hne]; [exact E|].
    exfalso. apply Hnt. exists repo, md'. split; [|exact Hn'].
    now rewrite lookup_insert_ne in Hmd' by congruence. }
  rewrite lookup_insert_eq in Hmd'. injection Hmd' as <-.
  assert (HD : clone.Destroy name w1 =
               (Ok tt, set_stdout (stdout w2 ++ ["Destroyed clone '" +:+ name +:+ "'"]) w2)).
  { unfold clone.Destroy, bind at 1, gets. simpl. rewrite lookup_insert_eq. simpl.
    unfold clone.destroyClone.
    rewrite (bind_Ok _ _ w1 tt w1') by now apply or_wrap_Ok.
    unfold bind at 1. rewrite try_eq, Hmeta. reflexivity. }
  eexists _, md, _. split; [exact HD|]. rewrite Hw2. simpl.
  split; [now apply delete_insert_id|]. split; [reflexivity|]. split; [reflexivity|].
  split; [exact Hmd|]. split; [apply insert_insert_eq|]. split; [|reflexivity].
  simpl. rewrite filter_app, (filter_keeps_unlisted name (types.Clones md)).
  - rewrite filter_cons_False, filter_nil by (simpl; tauto). apply app_nil_r.
  - intros Hin. apply Hnt. now exists pristineName, md.
Qed.

(** ** The clone manager at the sample worlds *)

(** X10 at a sample world: the pristine directory of [test-repo] is there
    but holds no repository, so the clone step fails after the clone
    directory has been created; the directory is removed again. *)
Lemma Clone_failure_leaves_no_trace_witness :
  (exists e, fst (clone.Clone "test-repo" "work" sample.hollow_pristine) = Err e) /\
  clones (sample.after (clone.Clone "test-repo" "work") sample.hollow_pristine) =
    clones sample.hollow_pristine.
Proof.
  assert (Hr : exists e, fst (clone.Clone "test-repo" "work" sample.hollow_pristine) = Err e)
    by (eexists; vm_compute; reflexivity).
  split; [exact Hr|]. unfold sample.after.
  destruct (clone.Clone "test-repo" "work" sample.hollow_pristine) as [r w'] eqn:E.
  destruct Hr as [e Hr]. simpl in Hr. subst r.
  assert (Hs : separate_roots sample.hollow_pristine) by (vm_compute; reflexivity).
  now destruct (Clone_failure_leaves_no_trace "test-repo" "work" sample.hollow_pristine
                  e w' eq_refl eq_refl Hs E) as (H & _).
Defined.

(** X11 at the sample world: [clone test-repo work] is tracked, and its
    record is the only one in the metadata of [test-repo]. *)
Lemma Clone_records_the_clone_witness :
  tracked sample.cloned "work" /\
  exists md',
    vault_dirs sample.cloned !! "test-repo" = Some (Holds md') /\
    types.Clones md' = [types.mkClone "work" "/c/work" 100].
Proof.
  assert (H : clone.Clone "test-repo" "work" sample.initialised = (Ok tt, sample.cloned))
    by (vm_compute; reflexivity).
  assert (Hs : separate_roots sample.initialised) by (vm_compute; reflexivity).
  destruct (Clone_records_the_clone "test-repo" "work" sample.initialised sample.cloned
              eq_refl eq_refl Hs H)
    as (name & md & md' & Hn & Hmd & Hd & Hc & _ & _ & _ & _ & Ht & _).
  simpl in Hn. subst name. split; [exact Ht|].
  assert (H0 : exists md0, vault_dirs sample.initialised !! "test-repo" = Some (Holds md0) /\
                           types.Clones md0 = [])
    by (eexists; split; vm_compute; reflexivity).
  destruct H0 as (md0 & H0 & Hc0). rewrite H0 in Hmd. injection Hmd as <-.
  exists md'. split; [rewrite Hd; apply lookup_insert_eq|].
  rewrite Hc, Hc0. reflexivity.
Defined.

(** X12 at the sample world: [clone test-repo] twice at second 100. *)
Lemma generated_names_collide_within_a_second_witness :
  fst (clone.Clone "test-repo" ""
         (sample.after (clone.Clone "test-repo" "") sample.initialised)) =
    Err (Errorf "clone 'test-repo-clone-100' already exists").
Proof.
  assert (H : clone.Clone "test-repo" "" sample.initialised =
              (Ok tt, sample.after (clone.Clone "test-repo" "") sample.initialised))
    by (vm_compute; reflexivity).
  rewrite (generated_names_collide_within_a_second "test-repo" sample.initialised _
             (sample.after (clone.Clone "test-repo" "") sample.initialised) H);
    vm_compute; reflexivity.
Defined.

(** X13 at the sample world: the record of [work] is taken out of the
    metadata of [test-repo]. *)
Lemma removeCloneFromMetadata_outcomes_witness :
  exists repo md md',
    vault_dirs sample.cloned !! repo = Some (Holds md) /\
    In "work" (map types.clone_Name (types.Clones md)) /\
    sample.after (clone.removeCloneFromMetadata "work") sample.cloned =
      set_vault_dirs (<[repo := Holds md']> (vault_dirs sample.cloned)) sample.cloned /\
    ~ In "work" (map types.clone_Name (types.Clones md')).
Proof.
  assert (Hr : fst (clone.removeCloneFromMetadata "work" sample.cloned) = Ok tt)
    by (vm_compute; reflexivity).
  unfold sample.after.
  destruct (clone.removeCloneFromMetadata "work" sample.cloned) as [r w'] eqn:E.
  simpl in Hr. subst r.
  pose proof (removeCloneFromMetadata_outcomes _ _ _ _ E)
    as (repo & md & md' & H1 & H2 & H3 & _ & H5 & _).
  exists repo, md, md'.
  split; [exact H1|]. split; [exact H2|]. split; [exact H3 | exact H5].
Defined.

(** X14 at the sample world. *)
Lemma removeCloneFromMetadata_succeeds_iff_tracked_witness :
  fst (clone.removeCloneFromMetadata "work" sample.cloned) = Ok tt <->
  tracked sample.cloned "work".
Proof.
  apply removeCloneFromMetadata_succeeds_iff_tracked; vm_compute; reflexivity.
Defined.

Lemma sample_initialised_untracked name : ~ tracked sample.initialised name.
Proof.
  intros (repo & md & Hmd & Hin).
  apply elem_of_map_to_list, list_elem_of_In in Hmd.
  assert (Hl : exists md0, map_to_list (vault_dirs sample.initialised) =
                           [("test-repo", Holds md0)] /\ types.Clones md0 = [])
    by (eexists; split; vm_compute; reflexivity).
  destruct Hl as (md0 & Hl & Hc). rewrite Hl in Hmd.
  destruct Hmd as [E|[]]. injection E as _ <-. rewrite Hc in Hin. exact Hin.
Qed.

(** X16 at the sample world: [clone test-repo work], then [destroy work]. *)
Lemma Clone_Destroy_round_trip_witness :
  exists w2,
    clone.Destroy "work" sample.cloned = (Ok tt, w2) /\
    clones w2 = clones sample.initialised /\
    stderr w2 = stderr sample.initialised.
Proof.
  assert (H : clone.Clone "test-repo" "work" sample.initialised = (Ok tt, sample.cloned))
    by (vm_compute; reflexivity).
  assert (Hs : separate_roots sample.initialised) by (vm_compute; reflexivity).
  destruct (Clone_Destroy_round_trip "test-repo" "work" sample.initialised sample.cloned H
              eq_refl eq_refl Hs)
    as (w2 & md & md2 & HD & Hc & _ & _ & _ & _ & _ & He).
  - vm_compute. reflexivity.
  - apply sample_initialised_untracked.
  - exists w2. simpl in HD. now repeat split.
Defined.

(** X15 at the sample world: [destroy work] after [clone test-repo work]
    leaves the vault index and the pristines as they were. *)
Lemma Destroy_removes_at_most_one_directory_witness :
  let w := sample.cloned in
  let w' := snd (clone.Destroy "work" w) in
  vault_index w' = vault_index w /\ pristines w' = pristines w.
Proof.
  intros w w'.
  assert (Hs : separate_roots w) by (vm_compute; reflexivity).
  destruct (Destroy_removes_at_most_one_directory "work" w eq_refl Hs) as (H1 & _ & H3 & _).
  split; [exact H1|]. apply H3. eexists. vm_compute. reflexivity.
Defined.

(** ** Listing clones and cleaning up orphans *)

(** The loop of [List]: the records of every readable metadata file
    whose directory is among the entries, in the order of the entries. *)
Lemma List_loop entries : forall acc w,
  range entries
    (fun entry (clones : list orphans.CloneInfo) =>
       if os.entry_IsDir entry then
         let metadataFile := metadata_json (os.entry_Name entry) in
         let! err := gets (os.Stat metadataFile) in
         if is_ok err then
           let! loaded := try (clone.loadMetadata metadataFile) in
           match loaded with
           | Err _ => ret clones
           | Ok metadata => ret (clones ++ orphans.infos_of (os.entry_Name entry) metadata)
           end
         else ret clones
       else ret clones) acc w =
  (Ok (acc ++ concat (map (listed_under w) entries)), w).
Proof.
  induction entries as [|[ename isdir] rest IH]; intros acc w.
  - simpl. unfold ret. now rewrite app_nil_r.
  - match goal with |- range _ ?b _ _ = _ => set (body := b) in * end.
    assert (Hb : body (os.mkDirEntry ename isdir) acc w =
                 (Ok (acc ++ listed_under w (os.mkDirEntry ename isdir)), w)).
    { unfold body, listed_under. simpl. destruct isdir; [|unfold ret; now rewrite app_nil_r].
      unfold bind at 1. unfold gets at 1. unfold os.Stat.
      unfold clone.loadMetadata, bind, or_wrap, try, os.ReadFile_metadata.
      destruct (vault_dirs w !! ename) as [[| | |md]|] eqn:E; simpl; rewrite ?E; simpl;
        try (unfold ret; now rewrite ?app_nil_r).
      destruct (String.eqb ename "vault.json" && os.present (vault_index w)); simpl;
        unfold ret; now rewrite app_nil_r. }
    change (range (os.mkDirEntry ename isdir :: rest) body acc w)
      with (bind (body (os.mkDirEntry ename isdir) acc) (fun acc' => range rest body acc') w).
    rewrite (bind_Ok _ _ _ _ _ Hb), IH. simpl. now rewrite app_assoc.
Qed.

Lemma List_listable w :
  vault_listable w = true ->
  exists entries,
    os.ReadDir_vault w = (Ok entries, w) /\
    orphans.List w = (Ok (concat (map (listed_under w) entries)), w).
Proof.
  intros Hl. unfold orphans.List, os.ReadDir_vault. rewrite Hl. eexists. split; [reflexivity|].
  unfold bind at 1. unfold or_wrap. unfold os.ReadDir_vault. rewrite Hl.
  now rewrite List_loop.
Qed.

Lemma In_listed_under w entry ci :
  In ci (listed_under w entry) <->
  exists md,
    entry = os.mkDirEntry (orphans.ci_Repo ci) true /\
    vault_dirs w !! orphans.ci_Repo ci = Some (Holds md) /\
    In ci (orphans.infos_of (orphans.ci_Repo ci) md).
Proof.
  unfold listed_under. destruct entry as [ename isdir]. simpl. split.
  - destruct isdir; [|intros []].
    destruct (vault_dirs w !! ename) as [[| | |md]|] eqn:E; try (intros []).
    intros Hin. assert (Hr : orphans.ci_Repo ci = ename).
    { unfold orphans.infos_of in Hin. apply in_map_iff in Hin as (c & Hc & _).
      now subst ci. }
    exists md. rewrite Hr. now repeat split.
  - intros (md & E & Hmd & Hin). injection E as -> ->. now rewrite Hmd.
Qed.

Lemma tracked_infos w n :
  tracked w n <->
  exists ci md,
    orphans.ci_Name ci = n /\
    vault_dirs w !! orphans.ci_Repo ci = Some (Holds md) /\
    In ci (orphans.infos_of (orphans.ci_Repo ci) md).
Proof.
  unfold tracked, orphans.infos_of. split.
  - intros (repo & md & Hmd & Hin). apply in_map_iff in Hin as (c & Hc & Hin).
    exists (orphans.mkCloneInfo (types.clone_Name c) (types.clone_Path c)
              (types.clone_Created c) repo), md.
    simpl. split; [exact Hc|]. split; [exact Hmd|].
    apply in_map_iff. now exists c.
  - intros (ci & md & Hn & Hmd & Hin). exists (orphans.ci_Repo ci), md. split; [exact Hmd|].
    apply in_map_iff in Hin as (c & Hc & Hin). rewrite <- Hc in Hn. simpl in Hn.
    apply in_map_iff. now exists c.
Qed.

(** X17: [List] reports the clone records of the readable metadata
    files, and nothing else.  When the vault directory can be listed it
    returns, without changing anything, a list that holds a record exactly
    when the metadata file of the repository it names holds it; the names
    in the list are the tracked clone names.  When the directory cannot be
    listed it fails. *)
Theorem List_reports_tracked_clones w :
  (vault_listable w = true ->
   exists l,
     orphans.List w = (Ok l, w) /\
     (forall ci,
        In ci l <->
        exists md,
          vault_dirs w !! orphans.ci_Repo ci = Some (Holds md) /\
          In ci (orphans.infos_of (orphans.ci_Repo ci) md)) /\
     (forall n, In n (map orphans.ci_Name l) <-> tracked w n)) /\
  (vault_listable w = false ->
   orphans.List w =
     (Err (Errorf_w "failed to read vault directory"
             (os.PathError "open" os.ErrPermission)), w)).
Proof.
  split.
  - intros Hl. destruct (List_listable w Hl) as (entries & Hrd & HL).
    assert (Hchar : forall ci,
              In ci (concat (map (listed_under w) entries)) <->
              exists md,
                vault_dirs w !! orphans.ci_Repo ci = Some (Holds md) /\
                In ci (orphans.infos_of (orphans.ci_Repo ci) md)).
    { intros ci. rewrite in_concat. split.
      - intros (l & Hl1 & Hl2). apply in_map_iff in Hl1 as (entry & <- & _).
        apply In_listed_under in Hl2 as (md & _ & H). now exists md.
      - intros (md & Hmd & Hin).
        destruct (ReadDir_vault_lists w _ _ Hl Hmd) as (entries' & Hrd' & He).
        rewrite Hrd in Hrd'. injection Hrd' as <-.
        exists (listed_under w (os.mkDirEntry (orphans.ci_Repo ci) true)). split.
        + apply in_map_iff. now eexists.
        + apply In_listed_under. now exists md. }
    eexists. split; [exact HL|]. split; [exact Hchar|].
    intros n. rewrite tracked_infos, in_map_iff. split.
    + intros (ci & Hn & Hin). apply Hchar in Hin as (md & H). now exists ci, md.
    + intros (ci & md & Hn & H). exists ci. split; [exact Hn|]. apply Hchar. now exists md.
  - intros Hl. unfold orphans.List, bind, or_wrap, os.ReadDir_vault. now rewrite Hl.
Qed.

(** The loop of [DetectOrphanedClones]: the names of the entries that
    pass the test, in the order of the entries. *)
Lemma Detect_loop (expectedNames : gset string) entries : forall acc w,
  range entries
    (fun entry (orphaned : list string) =>
       if os.entry_IsDir entry && negb (bool_decide (os.entry_Name entry ∈ expectedNames))
       then ret (orphaned ++ [os.entry_Name entry])
       else ret orphaned) acc w =
  (Ok (acc ++ map os.entry_Name (List.filter (is_orphan expectedNames) entries)), w).
Proof.
  induction entries as [|e rest IH]; intros acc w; simpl.
  - unfold ret. now rewrite app_nil_r.
  - unfold bind, is_orphan at 1.
    destruct (os.entry_IsDir e && negb (bool_decide (os.entry_Name e ∈ expectedNames)));
      unfold ret at 1; rewrite IH; [|reflexivity].
    simpl. now rewrite <- app_assoc.
Qed.

Lemma ReadDir_clones_In w e entries :
  orphans.ReadDir_clones w = (Ok entries, w) ->
  In e entries <-> os.entry_IsDir e = true /\ is_Some (clones w !! os.entry_Name e).
Proof.
  unfold orphans.ReadDir_clones. intros H. injection H as <-.
  split.
  - intros Hin. eapply Permutation_in in Hin; [|apply merge_sort_Permutation].
    apply in_map_iff in Hin as ([n d] & <- & Hin). simpl. split; [reflexivity|].
    apply list_elem_of_In, elem_of_map_to_list in Hin. now exists d.
  - intros [Hd [d Hn]]. eapply Permutation_in; [symmetry; apply merge_sort_Permutation|].
    apply in_map_iff. exists (os.entry_Name e, d). split.
    + destruct e as [n b]. simpl in *. now subst b.
    + apply list_elem_of_In, elem_of_map_to_list. exact Hn.
Qed.

Lemma Detect_listable w :
  vault_listable w = true ->
  exists l,
    orphans.DetectOrphanedClones w = (Ok l, w) /\
    forall n, In n l <-> is_Some (clones w !! n) /\ ~ tracked w n.
Proof.
  intros Hl. destruct (List_listable w Hl) as (ventries & _ & HL).
  assert (Hexp : forall n,
            n ∈ (list_to_set (map orphans.ci_Name
                                (concat (map (listed_under w) ventries))) : gset string) <->
            tracked w n).
  { intros n. rewrite elem_of_list_to_set, list_elem_of_In, tracked_infos, in_map_iff.
    split.
    - intros (ci & Hn & Hin). apply in_concat in Hin as (l & Hl1 & Hl2).
      apply in_map_iff in Hl1 as (entry & <- & _).
      apply In_listed_under in Hl2 as (md & _ & H). now exists ci, md.
    - intros (ci & md & Hn & Hmd & Hin). exists ci. split; [exact Hn|].
      destruct (ReadDir_vault_lists w _ _ Hl Hmd) as (entries' & Hrd' & He).
      unfold orphans.List in HL.
      rewrite (bind_Ok _ _ w entries' w) in HL by now apply or_wrap_Ok.
      rewrite List_loop in HL. injection HL as HL. rewrite <- HL.
      apply in_concat. exists (listed_under w (os.mkDirEntry (orphans.ci_Repo ci) true)).
      split; [apply in_map_iff; now eexists|]. apply In_listed_under. now exists md. }
  eexists. split.
  - unfold orphans.DetectOrphanedClones. unfold bind at 1. rewrite try_eq.
    unfold orphans.ReadDir_clones at 1 2. simpl.
    rewrite (bind_Ok _ _ w _ w) by (apply or_wrap_Ok; exact HL).
    apply Detect_loop.
  - intros n. simpl. rewrite in_map_iff. split.
    + intros (e & <- & Hin). apply filter_In in Hin as [Hin Ht].
      apply (ReadDir_clones_In w e _ eq_refl) in Hin as [_ Hs]. split; [exact Hs|].
      unfold is_orphan in Ht. apply andb_true_iff in Ht as [_ Ht].
      apply negb_true_iff, bool_decide_eq_false in Ht. intros Htr. apply Ht, Hexp, Htr.
    + intros [Hs Hnt]. exists (os.mkDirEntry n true). split; [reflexivity|].
      apply filter_In. split.
      * apply (ReadDir_clones_In w _ _ eq_refl). now split.
      * unfold is_orphan. simpl. apply negb_true_iff, bool_decide_eq_false.
        intros Hin. apply Hnt, Hexp, Hin.
Qed.

Lemma Detect_unlistable w :
  vault_listable w = false ->
  orphans.DetectOrphanedClones w =
    (Err (Errorf_w "failed to list expected clones"
            (Errorf_w "failed to read vault directory"
               (os.PathError "open" os.ErrPermission))), w).
Proof.
  intros Hl. unfold orphans.DetectOrphanedClones. unfold bind at 1. rewrite try_eq.
  unfold orphans.ReadDir_clones at 1 2. simpl.
  unfold orphans.List, bind, or_wrap, os.ReadDir_vault. now rewrite Hl.
Qed.

(** X18: [DetectOrphanedClones] finds the untracked clone directories.
    When the vault directory can be listed it returns, without changing
    anything, the names of the clone directories that no readable metadata
    file lists, and only those; when it cannot, the failure of [List] is
    returned, wrapped. *)
Theorem DetectOrphanedClones_finds_untracked w :
  (vault_listable w = true ->
   exists l,
     orphans.DetectOrphanedClones w = (Ok l, w) /\
     forall n, In n l <-> is_Some (clones w !! n) /\ ~ tracked w n) /\
  (vault_listable w = false ->
   orphans.DetectOrphanedClones w =
     (Err (Errorf_w "failed to list expected clones"
             (Errorf_w "failed to read vault directory"
                (os.PathError "open" os.ErrPermission))), w)).
Proof.
  split; [apply Detect_listable | apply Detect_unlistable].
Qed.

(** One turn of the loop of [CleanupOrphanedClones]. *)
Lemma Cleanup_turn x w :
  exists w1,
    (do! Println ("  - " +:+ x) in
     let clonePath := clone_dir x in
     let! err := try (os.RemoveAll clonePath) in
     match err with
     | Err e => Eprintln ("Warning: failed to remove orphaned clone '" +:+ x
                          +:+ "': " +:+ Error e)
     | Ok _ => ret tt
     end) w = (Ok tt, w1) /\
    vault_index w1 = vault_index w /\ vault_dirs w1 = vault_dirs w /\
    pristines w1 = pristines w /\ clones_writable w1 = clones_writable w /\
    (forall n, n <> x -> clones w1 !! n = clones w !! n) /\
    (clones_writable w = true -> clones w1 !! x = None) /\
    (clones_writable w = false -> clones w1 = clones w).
Proof.
  unfold bind at 1. unfold Println at 1, modify.
  unfold bind. rewrite try_eq. unfold os.RemoveAll. simpl.
  destruct (clones w !! x) eqn:E.
  - destruct (clones_writable w) eqn:Hw; simpl; eexists; (split; [reflexivity|]); simpl;
      repeat split; auto; try discriminate.
    + intros n Hne. now apply lookup_delete_ne.
    + intros _. apply lookup_delete_eq.
  - simpl. eexists. split; [reflexivity|]. simpl. repeat split; auto.
Qed.

Lemma Cleanup_loop l : forall w,
  exists w',
    range l
      (fun clone (_ : unit) =>
         do! Println ("  - " +:+ clone) in
         let clonePath := clone_dir clone in
         let! err := try (os.RemoveAll clonePath) in
         match err with
         | Err e => Eprintln ("Warning: failed to remove orphaned clone '" +:+ clone
                              +:+ "': " +:+ Error e)
         | Ok _ => ret tt
         end) tt w = (Ok tt, w') /\
    vault_index w' = vault_index w /\ vault_dirs w' = vault_dirs w /\
    pristines w' = pristines w /\ clones_writable w' = clones_writable w /\
    (forall n, ~ In n l -> clones w' !! n = clones w !! n) /\
    (clones_writable w = true -> forall n, In n l -> clones w' !! n = None) /\
    (clones_writable w = false -> clones w' = clones w).
Proof.
  induction l as [|x rest IH]; intros w.
  - exists w. simpl. repeat split; auto. intros _ n [].
  - destruct (Cleanup_turn x w) as (w1 & H1 & Hi1 & Hd1 & Hp1 & Hw1 & Ho1 & Hx1 & Hn1).
    destruct (IH w1) as (w' & H' & Hi' & Hd' & Hp' & Hw' & Ho' & Hx' & Hn').
    exists w'. split.
    { match goal with
      | |- range _ ?b _ _ = _ =>
          change (bind (b x tt) (fun acc' => range rest b acc') w = (Ok tt, w'));
          rewrite (bind_Ok (b x tt) _ w tt w1 H1)
      end. exact H'. }
    rewrite Hi', Hd', Hp', Hw', Hi1, Hd1, Hp1, Hw1. repeat split; auto.
    + intros n Hn. rewrite Ho' by (intros Hin; apply Hn; now right).
      apply Ho1. intros ->. apply Hn. now left.
    + intros Hw n Hin. rewrite Hw1 in Hx'.
      destruct (in_dec string_dec n rest) as [Hr|Hr]; [now apply Hx'|].
      rewrite (Ho' n Hr). destruct Hin as [->|Hin]; [now apply Hx1 | contradiction].
    + intros Hw. rewrite Hw1 in Hn'. rewrite (Hn' Hw). now apply Hn1.
Qed.

Lemma tracked_decidable w n : tracked w n \/ ~ tracked w n.
Proof.
  destruct (@List.Exists_dec _
              (fun kv : string * file_state types.RepoMetadata =>
                 match snd kv with
                 | Holds md => In n (map types.clone_Name (types.Clones md))
                 | _ => False
                 end) (map_to_list (vault_dirs w))) as [H|H].
  { intros [k f]. simpl. destruct f; try (right; tauto). apply in_dec, string_dec. }
  - left. apply Exists_exists in H as ([k f] & Hin & Hf). simpl in Hf.
    destruct f as [| | |md]; try contradiction. exists k, md. split; [|exact Hf].
    apply elem_of_map_to_list. exact Hin.
  - right. intros (repo & md & Hmd & Hn). apply H, Exists_exists.
    exists (repo, Holds md). split; [|exact Hn].
    apply elem_of_map_to_list. exact Hmd.
Qed.

(** X19: [CleanupOrphanedClones] removes orphans and nothing else, the
    three directories lying apart and the entries of the clones directory
    being file names.  Whatever it returns, the vault index, the metadata
    files and the pristines are as they were, and so is the clone
    directory of every tracked clone whose name is a file name (a clone
    tracked under a name with a separator in it lies inside another entry
    and is not covered).  When the vault directory can be listed it
    returns nil; if the clones directory can be written, no untracked
    clone directory is left, and if it cannot, no directory is removed
    (each failure is only a warning). *)
Theorem CleanupOrphanedClones_removes_only_orphans w :
  separate_roots w ->
  clone_entries_plain w ->
  let r := fst (orphans.CleanupOrphanedClones w) in
  let w' := snd (orphans.CleanupOrphanedClones w) in
  vault_index w' = vault_index w /\
  vault_dirs w' = vault_dirs w /\
  pristines w' = pristines w /\
  (forall n, plain_name n -> tracked w n -> clones w' !! n = clones w !! n) /\
  (vault_listable w = true ->
   r = Ok tt /\
   (clones_writable w = true ->
    forall n, is_Some (clones w' !! n) <-> is_Some (clones w !! n) /\ tracked w n) /\
   (clones_writable w = false -> clones w' = clones w)) /\
  (vault_listable w = false -> r <> Ok tt /\ clones w' = clones w).
Proof.
  intros _ _. cbv zeta. unfold orphans.CleanupOrphanedClones.
  destruct (vault_listable w) eqn:Hl.
  - destruct (Detect_listable w Hl) as (l & HD & Hchar).
    rewrite (bind_Ok _ _ w l w) by now apply or_wrap_Ok.
    assert (Hkeep : forall n, ~ In n l -> is_Some (clones w !! n) -> tracked w n).
    { intros n Hn Hs. destruct (tracked_decidable w n) as [Ht|Hnt]; [exact Ht|].
      exfalso. apply Hn, Hchar. now split. }
    destruct (Nat.eqb (length l) 0) eqn:Hlen.
    + apply Nat.eqb_eq, length_zero_iff_nil in Hlen. subst l.
      unfold Println, modify. simpl.
      split; [reflexivity|]. split; [reflexivity|]. split; [reflexivity|].
      split; [reflexivity|]. split; [|discriminate].
      intros _. split; [reflexivity|]. split; [|reflexivity].
      intros _ n. split; [|tauto]. intros Hs. split; [exact Hs|].
      apply Hkeep; [intros [] | exact Hs].
    + set (w0 := set_stdout
                   (stdout w ++ ["Found " +:+ strings.Itoa (length l) +:+ " orphaned clone(s):"])
                   w).
      destruct (Cleanup_loop l w0) as (w1 & HL & Hi & Hd & Hp & Hw & Ho & Hx & Hn).
      rewrite (bind_Ok (Println _) _ w tt w0) by reflexivity.
      rewrite (bind_Ok _ _ w0 tt w1 HL). unfold Println, modify. simpl.
      rewrite Hi, Hd, Hp.
      split; [reflexivity|]. split; [reflexivity|]. split; [reflexivity|].
      split; [|split; [|discriminate]].
      * intros n _ Ht. apply Ho. intros Hin. apply Hchar in Hin as [_ Hnt]. now apply Hnt.
      * intros _. split; [reflexivity|]. split; [|exact Hn].
        intros Hcw n. destruct (in_dec string_dec n l) as [Hin|Hin].
        -- rewrite (Hx Hcw n Hin). apply Hchar in Hin as [Hs Hnt]. split.
           ++ intros [x Hx']. discriminate Hx'.
           ++ intros [_ Ht]. now exfalso.
        -- rewrite (Ho n Hin). simpl. split; [|tauto].
           intros Hs. split; [exact Hs|]. now apply Hkeep.
  - rewrite (bind_Err _ _ w _ w) by (apply or_wrap_Err, Detect_unlistable, Hl). simpl.
    repeat split; auto; discriminate.
Qed.

Lemma sample_cloned_tracked : tracked sample.cloned "work".
Proof.
  assert (H : clone.Clone "test-repo" "work" sample.initialised = (Ok tt, sample.cloned))
    by (vm_compute; reflexivity).
  apply Clone_shape in H as (l & md & c & _ & _ & _ & _ & _ & Hw). rewrite Hw.
  eexists "test-repo", _. split; [simpl; apply lookup_insert_eq|].
  simpl. rewrite map_app. apply in_or_app. right. now left.
Qed.

Lemma sample_untracked_clone_untracked name : ~ tracked sample.untracked_clone name.
Proof. intros (repo & md & Hmd & _). simpl in Hmd. now rewrite lookup_empty in Hmd. Qed.

(** X17 at the sample world: [List] reports the clone [work]. *)
Lemma List_reports_tracked_clones_witness :
  exists l,
    orphans.List sample.cloned = (Ok l, sample.cloned) /\
    In "work" (map orphans.ci_Name l).
Proof.
  destruct (proj1 (List_reports_tracked_clones sample.cloned)) as (l & HL & _ & Hn).
  - vm_compute. reflexivity.
  - exists l. split; [exact HL|]. apply Hn, sample_cloned_tracked.
Defined.

(** X18 at a sample world: the directory [scratch], which no metadata
    file lists, is found. *)
Lemma DetectOrphanedClones_finds_untracked_witness :
  exists l,
    orphans.DetectOrphanedClones sample.untracked_clone = (Ok l, sample.untracked_clone) /\
    In "scratch" l.
Proof.
  destruct (proj1 (DetectOrphanedClones_finds_untracked sample.untracked_clone) eq_refl)
    as (l & HD & Hchar).
  exists l. split; [exact HD|]. apply Hchar. split.
  - exists PlainDir. reflexivity.
  - apply sample_untracked_clone_untracked.
Defined.

(** X19 at the same world: the cleanup removes [scratch]. *)
Lemma CleanupOrphanedClones_removes_only_orphans_witness :
  fst (orphans.CleanupOrphanedClones sample.untracked_clone) = Ok tt /\
  clones (snd (orphans.CleanupOrphanedClones sample.untracked_clone)) !! "scratch" = None.
Proof.
  assert (Hplain : clone_entries_plain sample.untracked_clone).
  { intros name [d Hd]. simpl in Hd.
    destruct (decide (name = "scratch")) as [->|Hne]; [reflexivity|].
    rewrite lookup_insert_ne, lookup_empty in Hd by congruence. discriminate Hd. }
  destruct (CleanupOrphanedClones_removes_only_orphans sample.untracked_clone eq_refl Hplain)
    as (_ & _ & _ & _ & H & _).
  destruct (H eq_refl) as (Hr & Hw & _). split; [exact Hr|].
  apply eq_None_not_Some. intros Hs. apply (Hw eq_refl) in Hs as [_ Ht].
  exact (sample_untracked_clone_untracked _ Ht).
Defined.

(** ** The pristine manager: the index, the README and the reset *)

Lemma pristine_load_fails w :
  (forall v, vault_index w <> Holds v) ->
  exists e,
    (forall name,
       pristine.loadRepoFromVault name w = (Err e, w)) /\
    pristine.loadAllReposFromVault w = (Err e, w) /\
    (e = Errorf_w "failed to read vault file" (os.PathError "open" os.ErrNotExist) \/
     e = Errorf_w "failed to read vault file" (os.PathError "open" os.ErrPermission) \/
     e = Errorf_w "failed to unmarshal vault"
           (errors_New "invalid character looking for beginning of value")).
Proof.
  intros H.
  unfold pristine.loadRepoFromVault, pristine.loadAllReposFromVault, bind, or_wrap,
    os.ReadFile_vault.
  destruct (vault_index w) as [| | |v] eqn:E; [| | |exfalso; now apply (H v)];
    simpl; eexists; repeat split; eauto.
Qed.

(** X20: the pristine manager does not treat a missing index as an
    empty vault.  When the index file is absent, unreadable or not JSON,
    [Init] of any name, [InitAll] and [SyncAll] fail with the read or parse
    error, wrapped, and change nothing. *)
Theorem pristine_manager_requires_the_index w :
  (forall v, vault_index w <> Holds v) ->
  exists e,
    (forall name,
       pristine.Init name w =
         (Err (Errorf_w "failed to load repository from vault" e), w)) /\
    pristine.InitAll w = (Err (Errorf_w "failed to load repositories from vault" e), w) /\
    pristine.SyncAll w = (Err (Errorf_w "failed to load repositories from vault" e), w) /\
    (e = Errorf_w "failed to read vault file" (os.PathError "open" os.ErrNotExist) \/
     e = Errorf_w "failed to read vault file" (os.PathError "open" os.ErrPermission) \/
     e = Errorf_w "failed to unmarshal vault"
           (errors_New "invalid character looking for beginning of value")).
Proof.
  intros H. destruct (pristine_load_fails w H) as (e & Hone & Hall & He).
  exists e. split; [|split; [|split; [|exact He]]].
  - intros name. unfold pristine.Init. apply bind_Err, or_wrap_Err, Hone.
  - unfold pristine.InitAll. apply bind_Err, or_wrap_Err, Hall.
  - unfold pristine.SyncAll. apply bind_Err, or_wrap_Err, Hall.
Qed.

(** X20 at the sample world with no index yet. *)
Lemma pristine_manager_requires_the_index_witness :
  exists e, pristine.InitAll sample.fresh = (Err e, sample.fresh).
Proof.
  destruct (pristine_manager_requires_the_index sample.fresh) as (e & _ & H & _).
  - intros v. discriminate.
  - eexists. exact H.
Defined.

Lemma length_append (a b : string) :
  String.length (a +:+ b) = String.length a + String.length b.
Proof. induction a as [|c a IH]; [reflexivity|]. rewrite append_cons. simpl. now rewrite IH. Qed.

Lemma length_substring_0 m : forall s, String.length (String.substring 0 m s) <= m.
Proof.
  induction m as [|m IH]; intros s.
  - destruct s; simpl; lia.
  - destruct s as [|c s]; simpl; [lia|]. specialize (IH s). lia.
Qed.

Lemma readme_of_bound path files : forall w r w',
  pristine.readme_of path files w = (Ok r, w') -> String.length r <= 503.
Proof.
  induction files as [|file rest IH]; intros w r w'; simpl.
  - intros H. injection H as <- _. simpl. lia.
  - unfold bind at 1. unfold gets at 1.
    destruct (is_ok (os.Stat (os.Join path file) w)); [|apply IH].
    unfold bind at 1. rewrite try_eq.
    pose proof (reads_ReadFile_text (os.Join path file) w) as Hr.
    destruct (os.ReadFile_text (os.Join path file) w) as [[readme|e] w1]; simpl in *;
      subst w1; [|apply IH].
    destruct (Nat.ltb 500 (String.length readme)) eqn:Hlt; intros H; injection H as <- _.
    + rewrite length_append. pose proof (length_substring_0 500 readme). simpl. lia.
    + apply Nat.ltb_ge in Hlt. lia.
Qed.

Lemma length_substring_exact m : forall s,
  m <= String.length s -> String.length (String.substring 0 m s) = m.
Proof.
  induction m as [|m IH]; intros s Hm.
  - now destruct s.
  - destruct s as [|c s]; simpl in *; [lia|]. rewrite IH; lia.
Qed.

(** X21: the README excerpt kept in the metadata.  The text that
    [extractRepoInfo] returns for the README of a pristine is taken from
    the first of [README.md], [README.rst], [README.txt] and [README] that
    is in the working tree and can be read: the whole text when it has at
    most 500 bytes, and otherwise its first 500 bytes followed by three
    dots, 503 bytes in all; it is the empty text when there is no such
    file.  Whatever the path, the text is at most 503 bytes long. *)
Theorem extractRepoInfo_readme_is_short path w info w' :
  pristine.extractRepoInfo path w = (Ok info, w') ->
  String.length (pristine.info_Readme info) <= 503 /\
  forall name r,
    path = pristine_dir name ->
    pristines w !! name = Some (RepoDir r) ->
    match first_readable ["README.md"; "README.rst"; "README.txt"; "README"] (git.files r) with
    | None => pristine.info_Readme info = ""
    | Some text =>
        if Nat.ltb 500 (String.length text)
        then pristine.info_Readme info = String.substring 0 500 text +:+ "..." /\
             String.length (pristine.info_Readme info) = 503
        else pristine.info_Readme info = text
    end.
Proof.
  unfold pristine.extractRepoInfo. intros H.
  apply bind_Ok_inv in H as (repo & w1 & Hopen & H). apply or_wrap_Ok_inv in Hopen.
  pose proof (reads_inv _ _ _ _ (reads_PlainOpen _) Hopen) as ->.
  apply bind_Ok_inv in H as (ref & w2 & Hhead & H). apply or_wrap_Ok_inv in Hhead.
  pose proof (reads_inv _ _ _ _ (reads_Head _) Hhead) as ->.
  apply bind_Ok_inv in H as (commit & w3 & Hcommit & H). apply or_wrap_Ok_inv in Hcommit.
  pose proof (reads_inv _ _ _ _ (reads_CommitObject _ _) Hcommit) as ->.
  apply bind_Ok_inv in H as (readme & w4 & Hr & H).
  injection H as <- _. simpl pristine.info_Readme. split.
  - now apply readme_of_bound in Hr.
  - intros name r -> Hp.
    pose proof (readme_of_first name r
                  ["README.md"; "README.rst"; "README.txt"; "README"] w Hp) as Hfirst.
    rewrite Hr in Hfirst.
    set (f := first_readable _ (git.files r)) in *.
    injection Hfirst as -> _.
    destruct f as [text|]; [|reflexivity].
    unfold excerpt. destruct (Nat.ltb 500 (String.length text)) eqn:Hlt; [|reflexivity].
    split; [reflexivity|]. apply Nat.ltb_lt in Hlt.
    rewrite length_append, length_substring_exact by lia. reflexivity.
Qed.

(** X21 at a sample world: the pristine of a repository whose README
    has 600 bytes; the excerpt is its first 500 bytes and three dots. *)
Lemma extractRepoInfo_readme_is_short_witness :
  exists info w',
    pristine.extractRepoInfo (pristine_dir "test-repo") scenario.wordy_initialised =
      (Ok info, w') /\
    String.length scenario.long_text = 600 /\
    pristine.info_Readme info = String.substring 0 500 scenario.long_text +:+ "..." /\
    String.length (pristine.info_Readme info) = 503.
Proof.
  assert (E : exists info w',
             pristine.extractRepoInfo (pristine_dir "test-repo") scenario.wordy_initialised =
               (Ok info, w'))
    by (eexists; eexists; vm_compute; reflexivity).
  destruct E as (info & w' & E). exists info, w'.
  split; [exact E|]. split; [vm_compute; reflexivity|].
  destruct (extractRepoInfo_readme_is_short _ _ _ _ E) as [_ H].
  assert (Hp : exists r,
             pristines scenario.wordy_initialised !! "test-repo" = Some (RepoDir r) /\
             first_readable ["README.md"; "README.rst"; "README.txt"; "README"] (git.files r) =
               Some scenario.long_text)
    by (eexists; split; vm_compute; reflexivity).
  destruct Hp as (r & Hp & Hf).
  specialize (H "test-repo" r eq_refl Hp). rewrite Hf in H.
  assert (Hlt : Nat.ltb 500 (String.length scenario.long_text) = true)
    by (vm_compute; reflexivity).
  rewrite Hlt in H. exact H.
Defined.

Lemma find_default_branch_In refs ref :
  pristine.find_default_branch refs = Some ref ->
  In ref refs /\ git.IsBranch (git.ref_Name ref) = true /\
  (git.Short (git.ref_Name ref) = "main" \/ git.Short (git.ref_Name ref) = "master").
Proof.
  unfold pristine.find_default_branch. intros H. apply find_some in H as [Hin Hp].
  apply andb_true_iff in Hp as [Hb Hn]. split; [exact Hin|]. split; [exact Hb|].
  apply orb_true_iff in Hn as [Hn|Hn]; apply String.eqb_eq in Hn; auto.
Qed.

Lemma tips_In (rs : list (string * list git.Hash)) b t :
  In (b, t) (gogit.tips rs) -> exists rest, In (b, t :: rest) rs.
Proof.
  unfold gogit.tips. intros H.
  apply list_elem_of_In, list_elem_of_omap in H as ([b' chain] & Hin & Hf).
  simpl in Hf. destruct chain as [|t' rest]; [discriminate|]. injection Hf as -> ->.
  exists rest. now apply list_elem_of_In.
Qed.

(** What the remote's list must hold for a default branch to be found. *)
Lemma List_default_branch remote o w refs w1 ref :
  gogit.List remote o w = (Ok refs, w1) ->
  pristine.find_default_branch refs = Some ref ->
  exists url urls up b rest,
    gogit.rem_URLs remote = url :: urls /\
    gogit.connect w1 url (git.lo_Auth o) = Ok up /\
    network w1 = network w /\
    (b = "main" \/ b = "master") /\
    In (b, git.ref_Hash ref :: rest) (git.up_refs up).
Proof.
  unfold gogit.List. destruct (gogit.rem_URLs remote) as [|url urls]; [discriminate|].
  destruct (gogit.connect (gogit.log_request "ls-remote" url (git.lo_Auth o) w) url
              (git.lo_Auth o)) as [up|e] eqn:Hc; [|discriminate].
  intros H Hf. injection H as <- <-.
  apply find_default_branch_In in Hf as (Hin & Hb & Hn).
  apply in_app_or in Hin as [Hin|Hin].
  { destruct (assoc (git.up_HEAD up) (gogit.tips (git.up_refs up))); [|destruct Hin].
    destruct Hin as [<-|[]]. discriminate Hb. }
  apply in_map_iff in Hin as ([b t] & <- & Hin). simpl in *.
  rewrite Short_branch in Hn. apply tips_In in Hin as (rest & Hin).
  exists url, urls, up, b, rest. repeat split; auto.
Qed.


(** X22: [Sync] needs a branch named [main] or [master].  Its reset
    step takes the first branch of either name that the origin remote
    advertises, not the branch the pristine has checked out; so when [Sync]
    returns nil for a pristine whose origin is a URL, that URL serves a
    branch named [main] or [master]. *)
Theorem Sync_needs_main_or_master vaultName w w' :
  pristine.Sync vaultName w = (Ok tt, w') ->
  exists r url urls,
    pristines w !! vaultName = Some (RepoDir r) /\
    assoc "origin" (git.remotes r) = Some (url :: urls) /\
    forall u, url = outside u ->
      exists up b tip rest,
        network w !! u = Some up /\
        (b = "main" \/ b = "master") /\
        In (b, tip :: rest) (git.up_refs up).
Proof.
  intros H. unfold pristine.Sync in H.
  unfold bind at 1 in H. unfold gets at 1 in H.
  destruct (os.IsNotExist (os.Stat (pristine_dir vaultName) w)); [discriminate H|].
  apply bind_Ok_inv in H as (repo & w0 & Hopen & H). apply or_wrap_Ok_inv in Hopen.
  pose proof (reads_inv _ _ _ _ (reads_PlainOpen _) Hopen) as ->.
  assert (Hr : exists r, pristines w !! vaultName = Some (RepoDir r)).
  { unfold gogit.PlainOpen, gogit.repo_at, gogit.dir_at in Hopen.
    destruct (pristines w !! vaultName) as [[|r]|]; try discriminate Hopen. now exists r. }
  destruct Hr as [r Hr].
  apply PlainOpen_val in Hopen as ->.
  apply bind_Ok_inv in H as (worktree & w0 & Hwt & H). apply or_wrap_Ok_inv in Hwt.
  pose proof (reads_inv _ _ _ _ (reads_Worktree _) Hwt) as ->.
  apply Worktree_val in Hwt as ->.
  unfold bind at 1 in H. rewrite try_eq in H.
  destruct (gogit.Pull (pristine_dir vaultName) git.PullOptions_zero w) as [rp w1] eqn:Hpull.
  apply (Pull_keeps_remotes _ _ _ _ _ r) in Hpull as (Hnet1 & r1 & Hr1 & Hrem1); [|exact Hr].
  simpl in H.
  apply bind_Ok_inv in H as ([] & w1' & Hm & H).
  assert (w1' = w1) as ->.
  { destruct rp as [u|e]; [now injection Hm as <-|].
    destruct (bool_decide (e <> git.NoErrAlreadyUpToDate)); [discriminate Hm|].
    now injection Hm as <-. }
  clear Hm.
  apply bind_Ok_inv in H as ([] & w2 & Hreset & _). apply or_wrap_Ok_inv in Hreset.
  unfold pristine.hardResetToOrigin in Hreset.
  apply bind_Ok_inv in Hreset as (origin & w1' & Hrem & Hreset). apply or_wrap_Ok_inv in Hrem.
  pose proof (reads_inv _ _ _ _ (reads_Remote _ _) Hrem) as ->.
  unfold gogit.Remote, gogit.repo_at, gogit.dir_at in Hrem. rewrite Hr1 in Hrem.
  destruct (assoc "origin" (git.remotes r1)) as [urls0|] eqn:Ho; [|discriminate Hrem].
  injection Hrem as <-.
  apply bind_Ok_inv in Hreset as (refs & w3 & Hlist & Hreset). apply or_wrap_Ok_inv in Hlist.
  destruct (pristine.find_default_branch refs) as [ref|] eqn:Hf; [|discriminate Hreset].
  destruct (List_default_branch _ _ _ _ _ _ Hlist Hf)
    as (url & urls & up & b & rest & Hu & Hc & Hnet3 & Hb & Hin).
  simpl in Hu. subst urls0. rewrite Hrem1 in Ho.
  exists r, url, urls. split; [exact Hr|]. split; [exact Ho|].
  intros u ->. exists up, b, (git.ref_Hash ref), rest.
  split; [|split; [exact Hb | exact Hin]].
  unfold gogit.connect in Hc. rewrite Hnet3, Hnet1 in Hc.
  destruct (network w !! u) as [up0|]; [|discriminate Hc].
  destruct (gogit.authenticate up0 _); [|discriminate Hc]. now injection Hc as ->.
Qed.

(** X22 at the sample world: the upstream of [test-repo] serves [main]. *)
Lemma Sync_needs_main_or_master_witness :
  exists r url urls,
    pristines sample.initialised !! "test-repo" = Some (RepoDir r) /\
    assoc "origin" (git.remotes r) = Some (url :: urls).
Proof.
  assert (H : pristine.Sync "test-repo" sample.initialised =
              (Ok tt, sample.after (pristine.Sync "test-repo") sample.initialised))
    by (vm_compute; reflexivity).
  destruct (Sync_needs_main_or_master _ _ _ H) as (r & url & urls & Hr & Ho & _).
  exists r, url, urls. split; [exact Hr | exact Ho].
Defined.

(** ** The pristine manager and the metadata *)

Lemma updateMetadata_inv name info w r w' :
  pristine.updateMetadata name info w = (r, w') ->
  match r with
  | Ok _ =>
      exists md,
        vault_dirs w !! name = Some (Holds md) /\
        w' = set_vault_dirs
               (<[name := Holds (updated_metadata md info (now w))]> (vault_dirs w)) w
  | Err _ => w' = w
  end.
Proof.
  unfold pristine.updateMetadata, bind, or_wrap, os.ReadFile_metadata, os.WriteFile_metadata,
    time_Now, gets.
  destruct (vault_dirs w !! name) as [[| | |md]|] eqn:E; simpl;
    try (intros H; injection H as <- <-; reflexivity).
  rewrite E. destruct (vault_writable w); intros H; injection H as <- <-; [|reflexivity].
  now exists md.
Qed.

Lemma updateMetadata_records name info repo :
  preserves (fun w => records_of w repo) (pristine.updateMetadata name info).
Proof.
  intros w. destruct (pristine.updateMetadata name info w) as [r w'] eqn:E.
  apply updateMetadata_inv in E. simpl. destruct r as [[]|e]; [|now subst].
  destruct E as (md & Hmd & ->). unfold records_of. simpl.
  destruct (decide (repo = name)) as [->|Hne].
  - now rewrite lookup_insert_eq, Hmd.
  - now rewrite lookup_insert_ne by congruence.
Qed.

Lemma Init_records name repo : preserves (fun w => records_of w repo) (pristine.Init name).
Proof.
  apply (Init_frame_meta (fun w => records_of w repo)).
  - unfold os.MkdirAll. frame_prim.
  - intros o. unfold gogit.PlainClone, gogit.log_request. frame_prim.
  - intros info. apply updateMetadata_records.
  - reflexivity.
Qed.

Lemma Sync_records name repo : preserves (fun w => records_of w repo) (pristine.Sync name).
Proof.
  apply (Sync_frame_meta (fun w => records_of w repo)).
  - intros o. unfold gogit.Pull, gogit.log_request. frame_prim.
  - intros h. unfold gogit.Reset_hard. frame_prim.
  - intros remote o. now apply List_frame.
  - intros info. apply updateMetadata_records.
  - reflexivity.
Qed.

Lemma tracked_records w n :
  tracked w n <-> exists repo l, records_of w repo = Some l /\ In n (map types.clone_Name l).
Proof.
  unfold tracked, records_of. split.
  - intros (repo & md & Hmd & Hn). exists repo, (types.Clones md). now rewrite Hmd.
  - intros (repo & l & Hl & Hn).
    destruct (vault_dirs w !! repo) as [[| | |md]|] eqn:E; try discriminate Hl.
    injection Hl as <-. now exists repo, md.
Qed.

(** X23: the pristine manager never changes which clones are tracked.
    [Init] and [Sync] of any name, [InitAll] and [SyncAll] rewrite metadata
    files but keep the clone records of every one of them as they were,
    whatever they return. *)
Theorem pristine_manager_keeps_clone_records w w' :
  (w' = snd (pristine.InitAll w) \/ w' = snd (pristine.SyncAll w) \/
   exists name, w' = snd (pristine.Init name w) \/ w' = snd (pristine.Sync name w)) ->
  (forall repo, records_of w' repo = records_of w repo) /\
  (forall n, tracked w' n <-> tracked w n).
Proof.
  intros Hw'.
  assert (Hrec : forall repo, records_of w' repo = records_of w repo).
  { intros repo.
    destruct Hw' as [-> | [-> | (name & [-> | ->])]].
    - unfold pristine.InitAll.
      apply (preserves_bind (fun w => records_of w repo)).
      + apply preserves_or_wrap, preserves_reads.
        unfold pristine.loadAllReposFromVault. solve_reads.
        * apply reads_ReadFile_vault.
        * apply reads_json_Unmarshal.
      + intros repos. apply preserves_bind.
        * apply (bulk_frame _ pristine.Init). intros entry _. apply Init_records.
        * intros errors. apply preserves_if;
            [apply preserves_fail | now apply preserves_Println].
    - unfold pristine.SyncAll.
      apply (preserves_bind (fun w => records_of w repo)).
      + apply preserves_or_wrap, preserves_reads.
        unfold pristine.loadAllReposFromVault. solve_reads.
        * apply reads_ReadFile_vault.
        * apply reads_json_Unmarshal.
      + intros repos. apply preserves_bind.
        * apply (bulk_frame _ pristine.Sync). intros entry _. apply Sync_records.
        * intros errors. apply preserves_if;
            [apply preserves_fail | now apply preserves_Println].
    - apply Init_records.
    - apply Sync_records. }
  split; [exact Hrec|].
  intros n. rewrite !tracked_records. split; intros (repo & l & Hl & Hn); exists repo, l.
  - now rewrite <- Hrec.
  - now rewrite Hrec.
Qed.

(** X23 at the sample world: the clone [work] is still tracked after a
    [Sync] of its pristine. *)
Lemma pristine_manager_keeps_clone_records_witness :
  tracked (snd (pristine.Sync "test-repo" sample.cloned)) "work".
Proof.
  destruct (pristine_manager_keeps_clone_records sample.cloned
              (snd (pristine.Sync "test-repo" sample.cloned))) as [_ H].
  - right. right. exists "test-repo". now right.
  - apply H, sample_cloned_tracked.
Defined.

Lemma PlainClone_keeps_directory name isBare o w r w1 :
  is_Some (pristines w !! name) ->
  gogit.PlainClone (pristine_dir name) isBare o w = (r, w1) ->
  is_Some (pristines w1 !! name).
Proof.
  intros [d Hd]. unfold gogit.PlainClone, gogit.log_request. simpl. rewrite Hd. intros H.
  repeat (match type of H with
          | context [match ?x with _ => _ end] => destruct x
          end);
    injection H as _ <-; simpl; rewrite ?lookup_insert_eq, ?Hd; eauto.
Qed.

Lemma cloneAsReference_leaves_directory url name w r w1 :
  pristines_writable w = true ->
  pristine.cloneAsReference url (pristine_dir name) w = (r, w1) ->
  is_Some (pristines w1 !! name).
Proof.
  intros Hw. unfold pristine.cloneAsReference. unfold bind at 1. unfold or_wrap at 1.
  unfold os.MkdirAll. rewrite Hw.
  assert (Hclone : forall w0 r0 w2,
            is_Some (pristines w0 !! name) ->
            (gogit.PlainClone (pristine_dir name) false
               (git.mkCloneOptions (outside url) None git.HEAD_name true 1 false)
               ?: "failed to clone repository") w0 = (r0, w2) ->
            is_Some (pristines w2 !! name)).
  { intros w0 r0 w2 Hs. unfold or_wrap.
    destruct (gogit.PlainClone _ _ _ w0) as [rc wc] eqn:E.
    apply (PlainClone_keeps_directory _ _ _ _ _ _ Hs) in E.
    destruct rc; intros H; now injection H as _ <-. }
  destruct (pristines w !! name) as [d|] eqn:E.
  - apply Hclone. rewrite E. eauto.
  - apply Hclone. simpl. rewrite lookup_insert_eq. eauto.
Qed.

Lemma Init_tail_pristines name line :
  preserves pristines
    (let! info := pristine.extractRepoInfo (pristine_dir name)
                    ?: "failed to extract repository info" in
     do! pristine.updateMetadata name info ?: "failed to update metadata" in
     Println line).
Proof.
  solve_preserves.
  - apply preserves_reads, reads_extractRepoInfo.
  - apply updateMetadata_frame. intros md. unfold os.WriteFile_metadata. frame_prim.
  - now apply preserves_Println.
Qed.

(** X24: a failed [Init] blocks the retry.  [Init] does not remove the
    directory it made: when it is not refused at the start (the name is
    listed, no pristine directory is there, the pristines directory can be
    written) and then fails at any later step, the directory of the
    pristine is left behind, and the same [Init] tried again is refused
    with the already-exists error. *)
Theorem failed_Init_blocks_retry vaultName w v entry e w' :
  vault_index w = Holds v ->
  find (fun repo => String.eqb (types.Name repo) vaultName) (types.Repos v) = Some entry ->
  pristines w !! vaultName = None ->
  pristines_writable w = true ->
  pristine.Init vaultName w = (Err e, w') ->
  is_Some (pristines w' !! vaultName) /\
  pristine.Init vaultName w' =
    (Err (Errorf ("pristine '" +:+ vaultName +:+ "' already exists")), w').
Proof.
  intros Hv Hfind Hnone Hpw H.
  assert (Hi : vault_index w' = Holds v).
  { rewrite (preserves_inv vault_index _ _ _ _ (Init_vault_index vaultName) H). exact Hv. }
  assert (Hs : is_Some (pristines w' !! vaultName)).
  { unfold pristine.Init in H.
    pose proof (loadRepoFromVault_Holds vaultName w v Hv) as Hload. rewrite Hfind in Hload.
    rewrite (bind_Ok _ _ w entry w) in H by now apply or_wrap_Ok.
    unfold bind at 1 in H. unfold gets at 1 in H. simpl in H. rewrite Hnone in H. simpl in H.
    unfold bind at 1 in H. unfold or_wrap at 1 in H.
    destruct (pristine.cloneAsReference (types.URL entry) (pristine_dir vaultName) w)
      as [rc wc] eqn:Hc.
    apply (cloneAsReference_leaves_directory _ _ _ _ _ Hpw) in Hc.
    destruct rc as [[]|ec]; [|now injection H as _ <-].
    rewrite (preserves_inv pristines _ _ _ _ (Init_tail_pristines vaultName _) H).
    exact Hc. }
  split; [exact Hs|].
  unfold pristine.Init.
  pose proof (loadRepoFromVault_Holds vaultName w' v Hi) as Hload. rewrite Hfind in Hload.
  rewrite (bind_Ok _ _ w' entry w') by now apply or_wrap_Ok.
  unfold bind, gets. simpl. destruct Hs as [d Hs]. now rewrite Hs.
Qed.

(** X24 at a sample world: the private repository cannot be cloned
    without credentials; the second [Init] is refused. *)
Lemma failed_Init_blocks_retry_witness :
  fst (pristine.Init "priv" (snd (pristine.Init "priv" sample.with_private))) =
    Err (Errorf "pristine 'priv' already exists").
Proof.
  assert (Hv : exists v entry,
            vault_index sample.with_private = Holds v /\
            find (fun repo => String.eqb (types.Name repo) "priv") (types.Repos v) = Some entry)
    by (eexists; eexists; split; vm_compute; reflexivity).
  destruct Hv as (v & entry & Hv & Hf).
  assert (He : exists e, fst (pristine.Init "priv" sample.with_private) = Err e)
    by (eexists; vm_compute; reflexivity).
  destruct He as [e He].
  destruct (pristine.Init "priv" sample.with_private) as [r w'] eqn:E.
  simpl in He. subst r.
  destruct (failed_Init_blocks_retry "priv" sample.with_private v entry e w' Hv Hf
              eq_refl eq_refl E) as [_ H].
  simpl. rewrite H. reflexivity.
Defined.

Lemma extractRepoInfo_inv name w info w1 :
  pristine.extractRepoInfo (pristine_dir name) w = (Ok info, w1) ->
  w1 = w /\
  exists r,
    pristines w !! name = Some (RepoDir r) /\
    git.HEAD r = Some (pristine.info_DefaultBranch info, pristine.info_CurrentBranchHash info).
Proof.
  intros H. split; [exact (reads_inv _ _ _ _ (reads_extractRepoInfo _) H)|].
  unfold pristine.extractRepoInfo in H.
  apply bind_Ok_inv in H as (repo & w0 & Hopen & H). apply or_wrap_Ok_inv in Hopen.
  pose proof (reads_inv _ _ _ _ (reads_PlainOpen _) Hopen) as ->.
  apply PlainOpen_val in Hopen as ->.
  apply bind_Ok_inv in H as (ref & w0 & Hhead & H). apply or_wrap_Ok_inv in Hhead.
  pose proof (reads_inv _ _ _ _ (reads_Head _) Hhead) as ->.
  apply bind_Ok_inv in H as (commit & w0 & Hcommit & H). apply or_wrap_Ok_inv in Hcommit.
  pose proof (reads_inv _ _ _ _ (reads_CommitObject _ _) Hcommit) as ->.
  apply bind_Ok_inv in H as (readme & w0 & _ & H). injection H as <- _.
  unfold gogit.Head, gogit.repo_at, gogit.dir_at in Hhead.
  unfold gogit.CommitObject, gogit.repo_at, gogit.dir_at in Hcommit.
  destruct (pristines w !! name) as [[|r]|]; try discriminate Hhead.
  exists r. split; [reflexivity|].
  destruct (git.HEAD r) as [[b h]|]; [|discriminate Hhead].
  injection Hhead as <-. simpl in *. rewrite Short_branch.
  destruct (gogit.has_object w r h); [|discriminate Hcommit]. now injection Hcommit as <-.
Qed.

Lemma tail_agrees name line w1 w' :
  (let! info := pristine.extractRepoInfo (pristine_dir name)
                  ?: "failed to extract repository info" in
   do! pristine.updateMetadata name info ?: "failed to update metadata" in
   Println line) w1 = (Ok tt, w') ->
  exists r md,
    pristines w' !! name = Some (RepoDir r) /\
    vault_dirs w' !! name = Some (Holds md) /\
    git.HEAD r = Some (types.DefaultBranch md, types.CurrentBranchHash md) /\
    types.LastSync md = types.mkSyncInfo (now w') "manual" /\
    types.LastUpdated md = now w'.
Proof.
  intros H.
  apply bind_Ok_inv in H as (info & w0 & Hinfo & H). apply or_wrap_Ok_inv in Hinfo.
  apply extractRepoInfo_inv in Hinfo as (-> & r & Hr & Hhead).
  apply bind_Ok_inv in H as ([] & w2 & Hmeta & H). apply or_wrap_Ok_inv in Hmeta.
  apply updateMetadata_inv in Hmeta as (md & Hmd & ->).
  unfold Println, modify in H. injection H as <-.
  exists r, (updated_metadata md info (now w1)). simpl.
  split; [exact Hr|]. split; [apply lookup_insert_eq|]. now repeat split.
Qed.

(** X25: after a successful [Init] or [Sync] the metadata agrees with
    the pristine.  The metadata file of the name records the branch the
    pristine has checked out and the commit its HEAD points to, together
    with a manual sync and an update at the current time. *)
Theorem metadata_agrees_with_pristine vaultName w w' :
  pristine.Init vaultName w = (Ok tt, w') \/ pristine.Sync vaultName w = (Ok tt, w') ->
  exists r md,
    pristines w' !! vaultName = Some (RepoDir r) /\
    vault_dirs w' !! vaultName = Some (Holds md) /\
    git.HEAD r = Some (types.DefaultBranch md, types.CurrentBranchHash md) /\
    types.LastSync md = types.mkSyncInfo (now w') "manual" /\
    types.LastUpdated md = now w'.
Proof.
  intros [H|H].
  - unfold pristine.Init in H.
    apply bind_Ok_inv in H as (repo & w0 & _ & H).
    unfold bind at 1 in H. unfold gets at 1 in H.
    destruct (is_ok (os.Stat (pristine_dir vaultName) w0)); [discriminate H|].
    apply bind_Ok_inv in H as ([] & w1 & _ & H).
    now apply tail_agrees in H.
  - unfold pristine.Sync in H.
    unfold bind at 1 in H. unfold gets at 1 in H.
    destruct (os.IsNotExist (os.Stat (pristine_dir vaultName) w)); [discriminate H|].
    apply bind_Ok_inv in H as (repo & w0 & _ & H).
    apply bind_Ok_inv in H as (worktree & w1 & _ & H).
    apply bind_Ok_inv in H as (pulled & w2 & _ & H).
    apply bind_Ok_inv in H as ([] & w3 & _ & H).
    apply bind_Ok_inv in H as ([] & w4 & _ & H).
    now apply tail_agrees in H.
Qed.

(** X25 at the sample world: [init test-repo]. *)
Lemma metadata_agrees_with_pristine_witness :
  exists r md,
    pristines sample.initialised !! "test-repo" = Some (RepoDir r) /\
    vault_dirs sample.initialised !! "test-repo" = Some (Holds md) /\
    git.HEAD r = Some (types.DefaultBranch md, types.CurrentBranchHash md).
Proof.
  assert (H : pristine.Init "test-repo" sample.added = (Ok tt, sample.initialised))
    by (vm_compute; reflexivity).
  destruct (metadata_agrees_with_pristine "test-repo" sample.added sample.initialised
              (or_introl H)) as (r & md & H1 & H2 & H3 & _).
  exists r, md. split; [exact H1|]. split; [exact H2 | exact H3].
Defined.
